(** * PurgeBot: retention resolution, cleanup orchestration and full sync

    A shallow embedding of the cleanup engine of [src/bot.js] and of the
    guards of [src/ui/routes/cleanup.js].  JavaScript values read from the
    YAML configuration are kept as a small sum type, so that the dynamic
    checks of the source ([typeof], [Number.isInteger], [!== undefined])
    stay visible in the model. *)

From Stdlib Require Import ZArith List String Bool Lia PeanoNat.
From Stdlib Require Import Sorting.Permutation Sorting.Sorted Structures.OrdersEx.
Import ListNotations.
Open Scope string_scope.
Open Scope list_scope.
Open Scope Z_scope.

(** ** JavaScript values *)

Module Js.

(** Numbers that fail [Number.isInteger]. [Fraction fl part] is the finite
    number strictly between [fl] and [fl + 1] whose fractional part has
    the number [part] in some fixed enumeration of the fractional parts. *)
Inductive nonint : Type :=
| NaN
| PosInfinity
| NegInfinity
| Fraction (fl : Z) (part : positive).

(** A value as the YAML loader (or a JSON request body) produces it, or as
    a property access returns it.  [VInt z] is a number whose value is the
    integer [z]; [VOther] stands for arrays, nested mappings and functions:
    values that are neither [undefined] nor [null], are truthy, and are not
    numbers. *)
Inductive value : Type :=
| VUndefined
| VNull
| VBool (b : bool)
| VInt (z : Z)
| VNonInt (r : nonint)
| VStr (s : string)
| VOther.

(** [typeof v === 'number'] *)
Definition is_number (v : value) : bool :=
  match v with
  | VInt _ | VNonInt _ => true
  | _ => false
  end.

(** [Number.isInteger(v)] *)
Definition isInteger (v : value) : bool :=
  match v with
  | VInt _ => true
  | _ => false
  end.

(** [v < -1] for a number [v] (false on [NaN]). *)
Definition lt_minus_one (v : value) : bool :=
  match v with
  | VInt z => z <? -1
  | VNonInt NegInfinity => true
  | VNonInt (Fraction fl _) => fl <? -1
  | _ => false
  end.

(** [v !== undefined] *)
Definition defined (v : value) : bool :=
  match v with
  | VUndefined => false
  | _ => true
  end.

(** [v ?? d] *)
Definition nullish (v d : value) : value :=
  match v with
  | VUndefined | VNull => d
  | _ => v
  end.

(** [v === true] *)
Definition is_true (v : value) : bool :=
  match v with
  | VBool true => true
  | _ => false
  end.

(** [v !== false] *)
Definition not_false (v : value) : bool :=
  match v with
  | VBool false => false
  | _ => true
  end.

(** Truthiness, as used by [if (v)] and [v || d]. *)
Definition truthy (v : value) : bool :=
  match v with
  | VUndefined | VNull | VBool false | VInt 0 | VNonInt NaN => false
  | VStr s => negb (String.eqb s "")
  | _ => true
  end.

(** Own properties of a plain object, in insertion order. *)
Definition object : Type := list (string * value).

(** The names of the members that every plain object inherits from
    [Object.prototype]: eleven functions, and the accessor [__proto__],
    which returns the prototype. *)
Definition prototype_members : list string :=
  ["constructor"; "hasOwnProperty"; "isPrototypeOf"; "propertyIsEnumerable";
   "toLocaleString"; "toString"; "valueOf"; "__defineGetter__";
   "__defineSetter__"; "__lookupGetter__"; "__lookupSetter__"; "__proto__"].

Definition inherited (k : string) : bool :=
  existsb (String.eqb k) prototype_members.

(** The own property [k] of [o], when it has one. *)
Fixpoint own (o : object) (k : string) : option value :=
  match o with
  | [] => None
  | (k', v) :: rest => if String.eqb k' k then Some v else own rest k
  end.

(** [o[k]]: the own property when there is one, else the member inherited
    from [Object.prototype] when [k] names one, else [undefined]. *)
Fixpoint get (o : object) (k : string) : value :=
  match o with
  | [] => if inherited k then VOther else VUndefined
  | (k', v) :: rest => if String.eqb k' k then v else get rest k
  end.

End Js.
Import Js.

(** ** Logging

    [log(level, msg)] appends a line; the model keeps the level and the data
    interpolated into the message. *)

Inductive level : Type := INFO | WARN | ERROR.

Inductive message : Type :=
| MInvalidGlobalDefault (v : value)
| MInvalidRetention (v : value) (context : string) (globalDefault : value)
| MAlreadyRunning
| MGuildNotFound
| MConfigLoaded (enabledCount totalCount : nat) (globalDefault : value) (dryRun : bool)
| MDeprecatedOverrides (cat : string)
| MReloadFailed
| MScanning (cat chan : string) (index allowed : nat)
| MNothingToDelete (cat chan : string) (fetched : nat)
| MDryRun (cat chan : string) (wouldDelete bulk cappedOld : nat)
    (remaining : option nat) (bulkOnly : bool)
| MDeleteFailed (cat chan : string) (msgId : nat) (err : string)
| MOldRemain (cat chan : string) (remaining cap : nat)
| MDeleted (cat chan : string) (deleted : nat)
| MChannelError (cat chan : string) (err : string)
| MProcessing (cat : string) (allowed : nat)
| MCancelled
| MSummary (cancelled : bool) (processed purged skipped errors : nat)
| MStarting (dryRun : bool) (categoryFilter channelFilter : option string)
| MAutoCategory (cat : string) (channels : nat)
| MAutoChannel (chan cat : string) (retention : value) (source : string)
| MAutoSummary (changes : nat)
| MSyncStart
| MSyncNewCategory (cat : string) (globalDefault : value) (channels : list string)
| MSyncMigrated (cat : string)
| MSyncOverrideRemoved (cat chan : string)
| MSyncCategory (cat : string) (enabled : bool) (retention : value) (channels : nat)
| MSyncCategoryRemoved (cat : string)
| MSyncWritten (changes : nat)
| MSyncNoChanges
| MSyncComplete (categories channels : nat).

Definition logrec : Type := (level * message)%type.

(** ** Configuration *)

(** An entry of [_channels]: a plain string ([- general]) or a mapping
    ([- general: 3]).  A mapping has a first own property, whose key is the
    channel name ([Object.keys(entry)[0]]), and possibly more. *)
Inductive Entry : Type :=
| EName (name : string)
| EMap (name : string) (days : value) (more : object).

(** The own properties of a mapping entry. *)
Definition entry_object (name : string) (days : value) (more : object) : object :=
  (name, days) :: more.

(** [typeof e === 'string' ? e : Object.keys(e)[0]] *)
Definition entry_name (e : Entry) : string :=
  match e with
  | EName s => s
  | EMap s _ _ => s
  end.

(** A category of [config.categories].  [_channels], when present, is a
    list of names and mappings, as a sync writes it; a document that holds
    another value under [_channels] is outside the model. *)
Record Category : Type := mkCategory {
  cat_enabled : value;
  cat_default : value;                     (* [undefined] when absent *)
  cat_deleteOld : value;
  cat_overrides : option object;           (* deprecated [overrides:] section *)
  cat_channels : option (list Entry)       (* [None]: no [_channels] *)
}.

(** The [discord:] settings after [loadConfig] has clamped them. *)
Record Discord : Type := mkDiscord {
  maxMessagesPerChannel : nat;
  maxOldDeletesPerChannel : nat;
  delayBetweenChannels : nat;
  skipPinned : bool
}.

Record Config : Type := mkConfig {
  globalDefault : value;
  dryRun : bool;
  discord : Discord;
  categories : list (string * Category);   (* own keys, insertion order *)
  discoveryComplete : bool;                (* [_discoveryComplete] *)
  webhookInfo : bool                       (* [webhooks.info] is set *)
}.

(** The category under the own key [name] of [config.categories].  A read
    [config.categories[name]] is [category_at] below.  The loops over the
    categories of the platform ([autoDiscoverChannels], [syncConfig]) are
    modelled with the own key: they are taken on platforms none of whose
    categories bears the name of a member inherited from
    [Object.prototype]. *)
Fixpoint lookup_category (cats : list (string * Category)) (name : string)
  : option Category :=
  match cats with
  | [] => None
  | (n, c) :: rest => if String.eqb n name then Some c else lookup_category rest name
  end.

(** What a member inherited from [Object.prototype] shows when it is read
    as a category: it has none of [enabled], [default], [deleteOld],
    [overrides] and [_channels]. *)
Definition inherited_member : Category :=
  mkCategory VUndefined VUndefined VUndefined None None.

(** [config.categories[name]] as a read: the own key when there is one,
    else the member inherited from [Object.prototype] when [name] names
    one ([None]: [undefined]). *)
Definition category_at (cats : list (string * Category)) (name : string)
  : option Category :=
  match lookup_category cats name with
  | Some cat => Some cat
  | None => if inherited name then Some inherited_member else None
  end.

(** ** Retention resolution *)

(** The test of [validateRetention] and of [loadConfig]:
    [typeof v !== 'number' || !Number.isInteger(v) || v < -1]. *)
Definition invalid_retention (v : value) : bool :=
  negb (is_number v) || negb (isInteger v) || lt_minus_one v.

(** [loadConfig] on a parsed document: [globalDefault] defaults to 7 when
    nullish and falls back to 7 with a warning when invalid; categories with
    a deprecated [overrides:] section are reported. *)
Definition loadConfig (parsed : Config) : Config * list logrec :=
  let gd := nullish (globalDefault parsed) (VInt 7) in
  let '(gd', warnings) :=
    if invalid_retention gd
    then (VInt 7, [(WARN, MInvalidGlobalDefault gd)])
    else (gd, []) in
  let deprecated :=
    flat_map
      (fun '(catName, cat) =>
         match cat_overrides cat with
         | Some _ => [(WARN, MDeprecatedOverrides catName)]
         | None => []
         end)
      (categories parsed) in
  let enabledCount :=
    List.length (filter (fun '(_, c) => is_true (cat_enabled c)) (categories parsed)) in
  (mkConfig gd' (dryRun parsed) (discord parsed) (categories parsed)
     (discoveryComplete parsed) (webhookInfo parsed),
   warnings ++ deprecated
     ++ [(INFO, MConfigLoaded enabledCount (List.length (categories parsed)) gd'
                  (dryRun parsed))]).

Section Retention.

Variable config : Config.

Fixpoint getChannelOverride_entries (entries : list Entry) (channelName : string)
  : value :=
  match entries with
  | [] => VUndefined
  | EName _ :: rest => getChannelOverride_entries rest channelName
  | EMap name days more :: rest =>
      if defined (get (entry_object name days more) channelName)
      then get (entry_object name days more) channelName
      else getChannelOverride_entries rest channelName
  end.

Definition getChannelOverride (cat : Category) (channelName : string) : value :=
  match cat_channels cat with
  | None => VUndefined
  | Some entries => getChannelOverride_entries entries channelName
  end.

Definition isEnabled (categoryName : string) : bool :=
  match category_at (categories config) categoryName with
  | None => false
  | Some cat => is_true (cat_enabled cat)
  end.

Definition validateRetention (v : value) (context : string)
  : value * list logrec :=
  if invalid_retention v
  then (globalDefault config,
        [(WARN, MInvalidRetention v context (globalDefault config))])
  else (v, []).

Definition getRetention (categoryName channelName : string)
  : value * list logrec :=
  match category_at (categories config) categoryName with
  | None => (VNull, [])
  | Some cat =>
      let override := getChannelOverride cat channelName in
      if defined override
      then validateRetention override (categoryName ++ "/#" ++ channelName)%string
      else if defined (cat_default cat)
      then validateRetention (cat_default cat) (categoryName ++ "/default")%string
      else (globalDefault config, [])
  end.

Definition getRetentionSource (categoryName channelName : string) : string :=
  match category_at (categories config) categoryName with
  | None => "global"
  | Some cat =>
      if defined (getChannelOverride cat channelName) then "override"
      else if defined (cat_default cat) then "category"
      else "global"
  end.

(** The names listed in [_channels], in list order (the source collects
    them in a [Set]; only membership is ever asked). *)
Definition getConfiguredChannels (categoryName : string) : list string :=
  match category_at (categories config) categoryName with
  | None => []
  | Some cat =>
      match cat_channels cat with
      | None => []
      | Some entries => map entry_name entries
      end
  end.

End Retention.

(** ** The channel message store and the run state *)

Record Msg : Type := mkMsg {
  msg_id : nat;
  createdAt : Z;          (* milliseconds since the epoch *)
  pinned : bool
}.

(** A text channel of the guild whose parent resolves to a category
    ([tc_category = None] when [discordCategories.get(parentId)] finds
    nothing). *)
Record TextChannel : Type := mkTextChannel {
  tc_id : nat;
  tc_name : string;
  tc_category : option string
}.

(** What a run awaits, in order: the calls made to the platform, each with
    the answer it got (an error message when the call throws), the pauses,
    and the two webhook notifications.  The two single-message deletes of
    the source are kept apart: [batch[0].delete()] of the bulk phase and
    [msg.delete()] of the loop over old messages.  [CWebhook embeds] is
    [await sendWebhook(embeds)], with the categories the embeds are for. *)
Inductive Call : Type :=
| CFetch (chan : nat) (before : option nat) (limit : nat) (answer : string + list Msg)
| CDeleteSingle (m : Msg) (answer : option string)
| CBulkDelete (chan : nat) (batch : list Msg) (answer : string + nat)
| CDeleteOld (m : Msg) (answer : option string)
| CSleep (ms : nat)
| CChannelsFetch
| CNotifyDiscovery
| CWebhook (embeds : list string).

(** What the outside world answers.  Every [await] of a run is numbered
    (its tick); an answer may depend on the tick at which it is asked.
    [env_cancel t] tells whether [cancelCleanup()] is called while the
    await numbered [t] is pending. *)
Record Env : Type := mkEnv {
  env_now : nat -> Z;
  env_fetch : nat -> nat -> option nat -> nat -> string + list Msg;
  env_delete : nat -> Msg -> option string;
  env_bulkDelete : nat -> nat -> list Msg -> string + nat;
  env_cancel : nat -> bool
}.

(** The variables a run mutates. *)
Record RunState : Type := mkRunState {
  tick : nat;
  cleanupCancelled : bool;
  out : list logrec;
  calls : list Call;
  totalProcessed : nat;
  totalPurged : nat;
  totalSkipped : nat;
  totalErrors : nat
}.

Inductive outcome (A : Type) : Type :=
| Ok (a : A)
| Throw (err : string).
Arguments Ok {A} a.
Arguments Throw {A} err.

(** One entry of [channelResults]. *)
Inductive ChannelResult : Type :=
| CRSkipped (name : string)
| CRDone (name : string) (retention : value) (source : string) (purged : nat)
| CRError (name : string) (retention : value) (source : string) (err : string).

(** [ch.purged || 0] *)
Definition cr_purged (r : ChannelResult) : nat :=
  match r with
  | CRDone _ _ _ n => n
  | _ => O
  end.

(** [ch.error] is truthy: present and not the empty string. *)
Definition cr_has_error (r : ChannelResult) : bool :=
  match r with
  | CRError _ _ _ err => negb (String.eqb err "")
  | _ => false
  end.

Definition cr_name (r : ChannelResult) : string :=
  match r with
  | CRSkipped n | CRDone n _ _ _ | CRError n _ _ _ => n
  end.

Section RunSteps.

Variable env : Env.

Definition log (l : level) (m : message) (st : RunState) : RunState :=
  mkRunState (tick st) (cleanupCancelled st) (out st ++ [(l, m)]) (calls st)
    (totalProcessed st) (totalPurged st) (totalSkipped st) (totalErrors st).

Definition logs (ls : list logrec) (st : RunState) : RunState :=
  mkRunState (tick st) (cleanupCancelled st) (out st ++ ls) (calls st)
    (totalProcessed st) (totalPurged st) (totalSkipped st) (totalErrors st).

(** An awaited call: it is recorded, the tick advances, and a cancellation
    requested meanwhile sets [cleanupCancelled]. *)
Definition await (c : Call) (st : RunState) : RunState :=
  mkRunState (S (tick st))
    (cleanupCancelled st || env_cancel env (tick st))
    (out st) (calls st ++ [c])
    (totalProcessed st) (totalPurged st) (totalSkipped st) (totalErrors st).

Definition add_processed (st : RunState) : RunState :=
  mkRunState (tick st) (cleanupCancelled st) (out st) (calls st)
    (S (totalProcessed st)) (totalPurged st) (totalSkipped st) (totalErrors st).

Definition add_purged (n : nat) (st : RunState) : RunState :=
  mkRunState (tick st) (cleanupCancelled st) (out st) (calls st)
    (totalProcessed st) (totalPurged st + n) (totalSkipped st) (totalErrors st).

Definition add_skipped (n : nat) (st : RunState) : RunState :=
  mkRunState (tick st) (cleanupCancelled st) (out st) (calls st)
    (totalProcessed st) (totalPurged st) (totalSkipped st + n) (totalErrors st).

Definition add_error (st : RunState) : RunState :=
  mkRunState (tick st) (cleanupCancelled st) (out st) (calls st)
    (totalProcessed st) (totalPurged st) (totalSkipped st) (S (totalErrors st)).

(** *** Scanning a channel *)

Definition day_ms : Z := 24 * 60 * 60 * 1000.

(** [new Date(now.getTime() - retention * 24 * 60 * 60 * 1000)].  A
    retention that is not an integer leaves no usable cutoff; resolution
    returns an integer whenever [globalDefault] is one. *)
Definition cutoff_of (now : Z) (retention : value) : option Z :=
  match retention with
  | VInt days => Some (now - days * day_ms)
  | _ => None
  end.

Definition bulkDeleteLimit_of (now : Z) : Z := now - 14 * day_ms.

(** [msg.createdAt < cutoff] *)
Definition before_cutoff (m : Msg) (cutoff : option Z) : bool :=
  match cutoff with
  | Some c => createdAt m <? c
  | None => false
  end.

(** Body of the loop over a fetched page. *)
Definition classify (skip deleteOld : bool) (cutoff : option Z) (bulkDeleteLimit : Z)
    (acc : list Msg * list Msg) (msg : Msg) : list Msg * list Msg :=
  let '(bulkDeletable, oldDeletable) := acc in
  if pinned msg && skip then acc
  else if before_cutoff msg cutoff then
    if createdAt msg >? bulkDeleteLimit then (bulkDeletable ++ [msg], oldDeletable)
    else if deleteOld then (bulkDeletable, oldDeletable ++ [msg])
    else acc
  else acc.

(** The [while (fetched < maxMessages)] loop.  Each round that goes on
    fetches at least one message, so [maxMessages] rounds are enough. *)
Fixpoint fetchLoop (fuel : nat) (chan maxMessages : nat) (skip deleteOld : bool)
    (cutoff : option Z) (bulkDeleteLimit : Z)
    (fetched : nat) (lastId : option nat) (acc : list Msg * list Msg)
    (st : RunState) : outcome (list Msg * list Msg * nat) * RunState :=
  match fuel with
  | O => (Ok (acc, fetched), st)
  | S fuel' =>
      if (fetched <? maxMessages)%nat then
        let batchSize := Nat.min 100 (maxMessages - fetched) in
        let answer := env_fetch env (tick st) chan lastId batchSize in
        let st1 := await (CFetch chan lastId batchSize answer) st in
        match answer with
        | inl err => (Throw err, st1)
        | inr [] => (Ok (acc, fetched), st1)
        | inr (m :: ms) =>
            fetchLoop fuel' chan maxMessages skip deleteOld cutoff bulkDeleteLimit
              (fetched + List.length (m :: ms))%nat
              (Some (msg_id (last ms m)))
              (fold_left (classify skip deleteOld cutoff bulkDeleteLimit) (m :: ms) acc)
              st1
        end
      else (Ok (acc, fetched), st)
  end.

(** *** Deleting *)

(** The loop [for (i = 0; i < bulkDeletable.length; i += 100)]. *)
Fixpoint bulkPhase (fuel : nat) (chan : nat) (rest : list Msg) (deleted : nat)
    (st : RunState) : outcome nat * RunState :=
  match fuel with
  | O => (Ok deleted, st)
  | S fuel' =>
      match firstn 100 rest with
      | [] => (Ok deleted, st)
      | [m] =>
          let answer := env_delete env (tick st) m in
          let st1 := await (CDeleteSingle m answer) st in
          match answer with
          | Some err => (Throw err, st1)
          | None => bulkPhase fuel' chan (skipn 100 rest) (S deleted) st1
          end
      | batch =>
          let answer := env_bulkDelete env (tick st) chan batch in
          let st1 := await (CBulkDelete chan batch answer) st in
          match answer with
          | inl err => (Throw err, st1)
          | inr size => bulkPhase fuel' chan (skipn 100 rest) (deleted + size)%nat st1
          end
      end
  end.

(** The loop [for (const msg of oldToDelete)]. *)
Fixpoint oldPhase (catName chanName : string) (oldToDelete : list Msg) (deleted : nat)
    (st : RunState) : nat * RunState :=
  match oldToDelete with
  | [] => (deleted, st)
  | msg :: rest =>
      if cleanupCancelled st then (deleted, st)
      else
        let answer := env_delete env (tick st) msg in
        let st1 := await (CDeleteOld msg answer) st in
        let '(deleted', st2) :=
          match answer with
          | None => (S deleted, st1)
          | Some err =>
              (deleted, log WARN (MDeleteFailed catName chanName (msg_id msg) err) st1)
          end in
        oldPhase catName chanName rest deleted' (await (CSleep 1200) st2)
  end.

End RunSteps.

(** ** Cleaning one channel, one category, the whole guild *)

Definition has_name (names : list string) (name : string) : bool :=
  existsb (String.eqb name) names.

(** [filter && name !== filter] for the optional category and channel
    filters (an empty string is falsy). *)
Definition filtered_out (filter : option string) (name : string) : bool :=
  match filter with
  | None => false
  | Some f => negb (String.eqb f "") && negb (String.eqb name f)
  end.

Definition is_error (r : ChannelResult) : bool :=
  match r with
  | CRError _ _ _ _ => true
  | _ => false
  end.

(** [categoryStats[catName]] *)
Record CategoryStats : Type := mkCategoryStats {
  cs_processed : nat;
  cs_purged : nat;
  cs_errors : nat;
  cs_channels : list ChannelResult
}.

(** [obj[k] = v] on an object kept as its list of own properties. *)
Fixpoint obj_set {A : Type} (o : list (string * A)) (k : string) (v : A)
  : list (string * A) :=
  match o with
  | [] => [(k, v)]
  | (k', v') :: rest =>
      if String.eqb k' k then (k', v) :: rest else (k', v') :: obj_set rest k v
  end.

(** [delete obj[k]] *)
Fixpoint obj_delete {A : Type} (o : list (string * A)) (k : string)
  : list (string * A) :=
  match o with
  | [] => []
  | (k', v') :: rest =>
      if String.eqb k' k then obj_delete rest k else (k', v') :: obj_delete rest k
  end.

(** [obj[k]] *)
Fixpoint obj_get {A : Type} (o : list (string * A)) (k : string) : option A :=
  match o with
  | [] => None
  | (k', v') :: rest => if String.eqb k' k then Some v' else obj_get rest k
  end.

(** The [Map] from category name to the values pushed under it, in
    insertion order, as both [runCleanup] and [syncConfig] build it. *)
Fixpoint map_push {A : Type} (m : list (string * list A)) (k : string) (v : A)
  : list (string * list A) :=
  match m with
  | [] => [(k, [v])]
  | (k', vs) :: rest =>
      if String.eqb k' k then (k', vs ++ [v]) :: rest
      else (k', vs) :: map_push rest k v
  end.

Definition categoryChannelMap_of (textChannels : list TextChannel)
  : list (string * list TextChannel) :=
  fold_left
    (fun m channel =>
       match tc_category channel with
       | None => m
       | Some category => map_push m category channel
       end)
    textChannels [].

Definition discoveredMap_of (textChannels : list TextChannel)
  : list (string * list string) :=
  fold_left
    (fun m channel =>
       match tc_category channel with
       | None => m
       | Some category => map_push m category (tc_name channel)
       end)
    textChannels [].

Section Orchestrator.

Variable env : Env.
Variable config : Config.
Variable effectiveDryRun : bool.
Variable categoryFilter channelFilter : option string.

(** The [catch (err)] of the per-channel [try]. *)
Definition channelFailed (catName : string) (channel : TextChannel)
    (retention : value) (retentionSource : string) (err : string)
    (st : RunState) : ChannelResult * RunState :=
  (CRError (tc_name channel) retention retentionSource err,
   add_error (log ERROR (MChannelError catName (tc_name channel) err) st)).

(** The two cutoffs and the fetch loop of one channel: the bulk-deletable
    and the old messages found, and the number of messages fetched. *)
Definition scanChannel (deleteOld : bool) (channel : TextChannel)
    (retention : value) (st : RunState)
  : outcome (list Msg * list Msg * nat) * RunState :=
  let now := env_now env (tick st) in
  let cutoff := cutoff_of now retention in
  let bulkDeleteLimit := bulkDeleteLimit_of now in
  let maxMessages := maxMessagesPerChannel (discord config) in
  fetchLoop env maxMessages (tc_id channel) maxMessages
    (skipPinned (discord config)) deleteOld cutoff bulkDeleteLimit
    O None ([], []) st.

(** The per-channel [try] block with its [catch]: fetch, split, delete or
    count, and produce the entry pushed on [channelResults]. *)
Definition processChannel (catName : string) (deleteOld : bool)
    (channel : TextChannel) (retention : value) (retentionSource : string)
    (st : RunState) : ChannelResult * RunState :=
  let chanName := tc_name channel in
  let maxOld := maxOldDeletesPerChannel (discord config) in
  match scanChannel deleteOld channel retention st with
  | (Throw err, st1) => channelFailed catName channel retention retentionSource err st1
  | (Ok (bulkDeletable, oldDeletable, fetched), st1) =>
      let nbulk := List.length bulkDeletable in
      let nold := List.length oldDeletable in
      let cappedTotal := (nbulk + Nat.min nold maxOld)%nat in
      if (nbulk + nold =? 0)%nat then
        (CRDone chanName retention retentionSource
           (if effectiveDryRun then cappedTotal else O),
         log INFO (MNothingToDelete catName chanName fetched) st1)
      else if effectiveDryRun then
        let cappedOld := List.length (firstn maxOld oldDeletable) in
        let wouldDelete := (nbulk + cappedOld)%nat in
        let remaining :=
          if (maxOld <? nold)%nat then Some (nold - maxOld)%nat else None in
        (CRDone chanName retention retentionSource cappedTotal,
         add_purged wouldDelete
           (log INFO (MDryRun catName chanName wouldDelete nbulk cappedOld
                        remaining (negb deleteOld)) st1))
      else
        match bulkPhase env nbulk (tc_id channel) bulkDeletable O st1 with
        | (Throw err, st2) =>
            channelFailed catName channel retention retentionSource err st2
        | (Ok deleted1, st2) =>
            let '(deleted, st3) :=
              oldPhase env catName chanName (firstn maxOld oldDeletable) deleted1 st2 in
            let st4 :=
              if (maxOld <? nold)%nat
              then log WARN (MOldRemain catName chanName (nold - maxOld) maxOld) st3
              else st3 in
            (CRDone chanName retention retentionSource deleted,
             add_purged deleted (log INFO (MDeleted catName chanName deleted) st4))
        end
  end.

(** [retention === -1] *)
Definition is_never (retention : value) : bool :=
  match retention with
  | VInt z => z =? -1
  | _ => false
  end.

(** The loop [for (const channel of channels)] of one category. *)
Fixpoint channelLoop (catName : string) (deleteOld : bool)
    (allowedChannels : list string) (allowedCount : nat)
    (channels : list TextChannel)
    (channelResults : list ChannelResult) (catErrors : bool) (channelIndex : nat)
    (st : RunState) : list ChannelResult * bool * RunState :=
  match channels with
  | [] => (channelResults, catErrors, st)
  | channel :: rest =>
      let chanName := tc_name channel in
      if cleanupCancelled st then (channelResults, catErrors, st)
      else if negb (has_name allowedChannels chanName) then
        channelLoop catName deleteOld allowedChannels allowedCount rest
          channelResults catErrors channelIndex (add_skipped 1 st)
      else if filtered_out channelFilter chanName then
        channelLoop catName deleteOld allowedChannels allowedCount rest
          channelResults catErrors channelIndex st
      else
        let st1 :=
          log INFO (MScanning catName chanName (S channelIndex) allowedCount)
            (add_processed st) in
        let '(retention, warnings) := getRetention config catName chanName in
        let st2 := logs warnings st1 in
        let retentionSource := getRetentionSource config catName chanName in
        if is_never retention then
          channelLoop catName deleteOld allowedChannels allowedCount rest
            (channelResults ++ [CRSkipped chanName]) catErrors (S channelIndex) st2
        else
          let '(result, st3) :=
            processChannel catName deleteOld channel retention retentionSource st2 in
          let st4 := await env (CSleep (delayBetweenChannels (discord config))) st3 in
          channelLoop catName deleteOld allowedChannels allowedCount rest
            (channelResults ++ [result]) (catErrors || is_error result)
            (S channelIndex) st4
  end.

Definition sum_purged (rs : list ChannelResult) : nat :=
  fold_left (fun sum ch => (sum + cr_purged ch)%nat) rs O.

(** The loop [for (const [catName, channels] of categoryChannelMap)]. The
    second component lists the categories for which an embed is built. *)
Fixpoint categoryLoop (cats : list (string * list TextChannel))
    (categoryStats : list (string * CategoryStats)) (embeds : list string)
    (st : RunState)
  : list (string * CategoryStats) * list string * RunState :=
  match cats with
  | [] => (categoryStats, embeds, st)
  | (catName, channels) :: rest =>
      if cleanupCancelled st then
        (categoryStats, embeds, log INFO MCancelled st)
      else if negb (isEnabled config catName) then
        categoryLoop rest categoryStats embeds
          (add_skipped (List.length channels) st)
      else if filtered_out categoryFilter catName then
        categoryLoop rest categoryStats embeds st
      else
        let allowedChannels := getConfiguredChannels config catName in
        (* [isEnabled] holds here, so [catName] is an own key *)
        let deleteOld :=
          match lookup_category (categories config) catName with
          | Some cat => not_false (cat_deleteOld cat)
          | None => true
          end in
        let allowedCount :=
          List.length (filter (fun c => has_name allowedChannels (tc_name c)) channels) in
        let st1 := log INFO (MProcessing catName allowedCount) st in
        let '(channelResults, catErrors, st2) :=
          channelLoop catName deleteOld allowedChannels allowedCount channels
            [] false O st1 in
        let stats :=
          mkCategoryStats (List.length channelResults) (sum_purged channelResults)
            (List.length (filter cr_has_error channelResults)) channelResults in
        let hasPurged := existsb (fun ch => (0 <? cr_purged ch)%nat) channelResults in
        categoryLoop rest (obj_set categoryStats catName stats)
          (if hasPurged || catErrors then embeds ++ [catName] else embeds)
          st2
  end.

End Orchestrator.

(** ** Sorting

    [Array.prototype.sort] is stable; with a comparator that is a strict
    weak order its result is the one of a stable insertion sort.
    [precedes y x] says that [y] must come strictly before [x]. *)

Fixpoint insert_by {A : Type} (precedes : A -> A -> bool) (x : A) (l : list A)
  : list A :=
  match l with
  | [] => [x]
  | y :: l' => if precedes y x then y :: insert_by precedes x l' else x :: y :: l'
  end.

Definition sort_by {A : Type} (precedes : A -> A -> bool) (l : list A) : list A :=
  fold_right (insert_by precedes) [] l.

(** [[...channels].sort()]: ascending by UTF-16 code units.  The strings of
    the model are sequences of 8-bit characters; on names made of ASCII
    characters one character is one code unit and [String.ltb] is that
    order.  Outside ASCII the two orders can differ, and what is stated on
    the order of a synced list is stated for ASCII names. *)
Definition sort_names (names : list string) : list string :=
  sort_by String.ltb names.

(** ** Statistics *)

Record RunStats : Type := mkRunStats {
  run_timestamp : Z;
  run_error : option string;
  run_totalProcessed : nat;
  run_totalPurged : nat;
  run_totalErrors : nat;
  run_dryRun : bool;
  run_duration : Z;
  run_trigger : string;
  run_cancelled : bool;
  run_categories : list (string * CategoryStats)
}.

Record HistoryEntry : Type := mkHistoryEntry {
  h_timestamp : Z;
  h_purged : nat;
  h_errors : nat;
  h_dryRun : bool;
  h_duration : Z;
  h_trigger : string;
  h_categories : list (string * (nat * nat))
}.

Record Lifetime : Type := mkLifetime {
  lt_totalRuns : nat;
  lt_totalPurged : nat;
  lt_totalErrors : nat;
  lt_firstRun : Z
}.

(** The content of [stats.json]. *)
Record StatsData : Type := mkStatsData {
  lastRun : option RunStats;
  lastLiveRun : option RunStats;
  history : list HistoryEntry;
  lifetime : option Lifetime;
  channelTotals : option (list (string * nat));
  categoryTotals : option (list (string * nat))
}.

(** [obj[k] = (obj[k] || 0) + n] *)
Definition bump (o : list (string * nat)) (k : string) (n : nat) : list (string * nat) :=
  obj_set o k (match obj_get o k with Some c => c | None => O end + n)%nat.

(** Keep the [cap] highest counts when there are more than [cap] entries. *)
Definition prune (cap : nat) (o : list (string * nat)) : list (string * nat) :=
  if (cap <? List.length o)%nat
  then firstn cap (sort_by (fun a b => (snd b <? snd a)%nat) o)
  else o.

(** [persistStats(lastRun)], given the content of the stats file ([None]
    when it does not exist); the result is the content written back. *)
Definition persistStats (run : RunStats) (file : option StatsData) : StatsData :=
  let data :=
    match file with
    | Some d => d
    | None => mkStatsData None None [] None None None
    end in
  let live := negb (run_dryRun run) in
  let categorySummary :=
    map (fun '(catName, cs) => (catName, (cs_purged cs, cs_errors cs)))
      (run_categories run) in
  let entry :=
    mkHistoryEntry (run_timestamp run) (run_totalPurged run) (run_totalErrors run)
      (run_dryRun run) (run_duration run)
      (if String.eqb (run_trigger run) "" then "schedule" else run_trigger run)
      categorySummary in
  let history' := firstn 90 (entry :: history data) in
  if live then
    let lt :=
      match lifetime data with
      | Some l => l
      | None => mkLifetime 0 0 0 (run_timestamp run)
      end in
    let lt' :=
      mkLifetime (S (lt_totalRuns lt)) (lt_totalPurged lt + run_totalPurged run)
        (lt_totalErrors lt + run_totalErrors run) (lt_firstRun lt) in
    let chT := match channelTotals data with Some o => o | None => [] end in
    let catT := match categoryTotals data with Some o => o | None => [] end in
    let catT' :=
      fold_left (fun o '(catName, cs) => bump o catName (cs_purged cs))
        (run_categories run) catT in
    let chT' :=
      fold_left
        (fun o '(catName, cs) =>
           fold_left
             (fun o ch =>
                if (0 <? cr_purged ch)%nat
                then bump o (catName ++ "/" ++ cr_name ch)%string (cr_purged ch)
                else o)
             (cs_channels cs) o)
        (run_categories run) chT in
    mkStatsData (Some run) (Some run) history' (Some lt')
      (Some (prune 200 chT')) (Some (prune 100 catT'))
  else
    mkStatsData (Some run) (lastLiveRun data) history' (lifetime data)
      (channelTotals data) (categoryTotals data).

(** ** Incremental discovery *)

Definition channels_or_empty (cat : Category) : list Entry :=
  match cat_channels cat with
  | Some entries => entries
  | None => []
  end.

Definition set_channels (cat : Category) (entries : list Entry) : Category :=
  mkCategory (cat_enabled cat) (cat_default cat) (cat_deleteOld cat)
    (cat_overrides cat) (Some entries).

(** The category written for a newly discovered one:
    [{ enabled: false, default: config.globalDefault, _channels: sortedChannels }]. *)
Definition discovered_category (gd : value) (sortedChannels : list string) : Category :=
  mkCategory (VBool false) gd VUndefined None (Some (map EName sortedChannels)).

Section Discovery.

(** [nameA.localeCompare(nameB) < 0] *)
Variable locale_lt : string -> string -> bool.

Definition sort_entries (entries : list Entry) : list Entry :=
  sort_by (fun a b => locale_lt (entry_name a) (entry_name b)) entries.

(** The inner loop over [sortedChannels] for a category already in the
    configuration; [existingNames] is computed once, before the loop. *)
Definition discover_channels (gd : value) (catName : string)
    (existingNames : list string) (sortedChannels : list string)
    (cat : Category) : Category * nat * list logrec :=
  fold_left
    (fun '(cat, changes, out) chanName =>
       if has_name existingNames chanName then (cat, changes, out)
       else
         let cat' :=
           set_channels cat (sort_entries (channels_or_empty cat ++ [EName chanName])) in
         let effectiveRetention := nullish (cat_default cat) gd in
         let source := if defined (cat_default cat) then "category" else "global" in
         (cat', S changes,
          out ++ [(INFO, MAutoChannel chanName catName effectiveRetention source)]))
    sortedChannels (cat, O, []).

(** [autoDiscoverChannels(guild)]: the new configuration, the number of
    changes, the number of discoveries to notify, the lines logged and
    whether the configuration file is written. *)
Definition autoDiscoverChannels (textChannels : list TextChannel) (config : Config)
  : Config * nat * list logrec * bool :=
  let isFirstDiscovery := negb (discoveryComplete config) in
  let '(cats, changes, out) :=
    fold_left
      (fun '(cats, changes, out) '(catName, channels) =>
         let sortedChannels := sort_names channels in
         match lookup_category cats catName with
         | None =>
             (obj_set cats catName
                (discovered_category (globalDefault config) sortedChannels),
              S changes,
              out ++ [(INFO, MAutoCategory catName (List.length channels))])
         | Some cat =>
             let existingNames := map entry_name (channels_or_empty cat) in
             let '(cat', n, lines) :=
               discover_channels (globalDefault config) catName existingNames
                 sortedChannels cat in
             (if (0 <? n)%nat then obj_set cats catName cat' else cats,
              (changes + n)%nat, out ++ lines)
         end)
      (discoveredMap_of textChannels) (categories config, O, []) in
  if (0 <? changes)%nat || isFirstDiscovery then
    (mkConfig (globalDefault config) (dryRun config) (discord config) cats true
       (webhookInfo config),
     changes,
     out ++ (if (0 <? changes)%nat then [(INFO, MAutoSummary changes)] else []),
     true)
  else
    (mkConfig (globalDefault config) (dryRun config) (discord config) cats
       (discoveryComplete config) (webhookInfo config),
     changes, out, false).

End Discovery.

(** ** A whole cleanup run *)

Record Options : Type := mkOptions {
  forceDryRun : bool;
  forceLive : bool;
  categoryFilter : option string;
  channelFilter : option string;
  trigger : string
}.

(** The process-wide state a run reads and writes. *)
Record Process : Type := mkProcess {
  p_config : Config;
  p_cleanupRunning : bool;
  p_statsFile : option StatsData;          (* content of stats.json *)
  p_configWrites : nat;                    (* writes of config.yaml so far *)
  p_emitted : list RunStats;               (* 'cleanup-complete' events *)
  p_log : list logrec;
  p_calls : list Call                      (* what the runs awaited so far *)
}.

(** What a run finds outside the process: the configuration file as parsed
    ([None]: reading or parsing fails), the guild in the client cache, the
    failure of [guild.channels.fetch()] if any, and the store. *)
Record Outside : Type := mkOutside {
  o_disk : option Config;
  o_guild : option (list TextChannel);
  o_channelsFetch : option string;
  o_env : Env;
  o_locale_lt : string -> string -> bool
}.

(** How the promise returned by [runCleanup] settles.  The first three all
    resolve to [undefined] in the source; they are told apart here. *)
Inductive RunOutcome : Type :=
| RunSkipped                       (* 'Cleanup already running, skipping' *)
| RunGuildNotFound
| RunRejected (err : string)
| RunCompleted (stats : RunStats).

Definition initialRunState : RunState :=
  mkRunState O false [] [] O O O O.

Definition runCleanup (options : Options) (w : Outside) (p : Process)
  : RunOutcome * Process :=
  if p_cleanupRunning p then
    (RunSkipped,
     mkProcess (p_config p) true (p_statsFile p) (p_configWrites p) (p_emitted p)
       (p_log p ++ [(WARN, MAlreadyRunning)]) (p_calls p))
  else
    (* cleanupRunning = true; cleanupCancelled = false; the [finally] clears
       [cleanupRunning] on every path below *)
    let env := o_env w in
    let startTime := env_now env O in
    let '(config, lines) :=
      match o_disk w with
      | Some parsed => loadConfig parsed
      | None => (p_config p, [(ERROR, MReloadFailed)])
      end in
    let effectiveDryRun :=
      if forceLive options then false else dryRun config || forceDryRun options in
    let lines1 :=
      lines ++ [(INFO, MStarting effectiveDryRun (categoryFilter options)
                         (channelFilter options))] in
    match o_guild w with
    | None =>
        let failed :=
          mkRunStats startTime (Some "Guild not found") 0 0 1 effectiveDryRun
            (env_now env O - startTime) (trigger options) false [] in
        (RunGuildNotFound,
         mkProcess config false (p_statsFile p) (p_configWrites p)
           (p_emitted p ++ [failed])
           (p_log p ++ lines1 ++ [(ERROR, MGuildNotFound)])
           (p_calls p))
    | Some textChannels =>
        let st0 := await env CChannelsFetch initialRunState in
        match o_channelsFetch w with
        | Some err =>
            (RunRejected err,
             mkProcess config false (p_statsFile p) (p_configWrites p) (p_emitted p)
               (p_log p ++ lines1) (p_calls p ++ calls st0))
        | None =>
            let '(config1, changes, lines2, written) :=
              autoDiscoverChannels (o_locale_lt w) textChannels config in
            let notify :=
              written && discoveryComplete config && (0 <? changes)%nat
              && webhookInfo config1 in
            let st1 := if notify then await env CNotifyDiscovery st0 else st0 in
            let '(categoryStats, embeds, st2) :=
              categoryLoop env config1 effectiveDryRun (categoryFilter options)
                (channelFilter options) (categoryChannelMap_of textChannels) [] [] st1 in
            let cancelled := cleanupCancelled st2 in
            let st3 :=
              log INFO (MSummary cancelled (totalProcessed st2) (totalPurged st2)
                          (totalSkipped st2) (totalErrors st2)) st2 in
            (* [if (embeds.length > 0) await sendWebhook(embeds)], after
               [cancelled] has been read *)
            let st4 :=
              match embeds with
              | [] => st3
              | _ :: _ => await env (CWebhook embeds) st3
              end in
            let now := env_now env (tick st4) in
            let runStats :=
              mkRunStats now None (totalProcessed st3) (totalPurged st3)
                (totalErrors st3) effectiveDryRun (now - startTime)
                (trigger options) cancelled categoryStats in
            (RunCompleted runStats,
             mkProcess config1 false
               (Some (persistStats runStats (p_statsFile p)))
               (if written then S (p_configWrites p) else p_configWrites p)
               (p_emitted p ++ [runStats])
               (p_log p ++ lines1 ++ lines2 ++ out st3)
               (p_calls p ++ calls st4))
        end
    end.

(** ** Full sync *)

(** What [JSON.stringify] shows of a value: [NaN] and the infinities print
    as [null]. *)
Definition json_value (v : value) : value :=
  match v with
  | VNonInt NaN | VNonInt PosInfinity | VNonInt NegInfinity => VNull
  | _ => v
  end.

(** What [JSON.stringify] shows of a [_channels] entry: a string, or the
    own properties whose value is not [undefined].  Two lists of entries
    have the same JSON text exactly when they show the same. *)
Inductive JEntry : Type :=
| JString (s : string)
| JObject (props : list (string * value)).

Definition json_props (o : object) : list (string * value) :=
  map (fun '(k, v) => (k, json_value v)) (filter (fun '(_, v) => defined v) o).

Definition json_entry (e : Entry) : JEntry :=
  match e with
  | EName s => JString s
  | EMap name days more => JObject (json_props (entry_object name days more))
  end.

Definition nonint_eq_dec (a b : nonint) : {a = b} + {a <> b}.
Proof. decide equality; [apply Pos.eq_dec | apply Z.eq_dec]. Defined.

Definition value_eq_dec (a b : value) : {a = b} + {a <> b}.
Proof.
  decide equality;
    [apply Bool.bool_dec | apply Z.eq_dec | apply nonint_eq_dec | apply string_dec].
Defined.

Definition jentry_eq_dec (a b : JEntry) : {a = b} + {a <> b}.
Proof.
  decide equality; [apply string_dec |].
  apply list_eq_dec. intros [k1 v1] [k2 v2].
  destruct (string_dec k1 k2); [| right; congruence].
  destruct (value_eq_dec v1 v2); [left | right]; congruence.
Defined.

(** [JSON.stringify(a) !== JSON.stringify(b)] on two lists of entries. *)
Definition json_differs (a b : list Entry) : bool :=
  if list_eq_dec jentry_eq_dec (map json_entry a) (map json_entry b)
  then false else true.

(** One element of [changeDetails]. *)
Record ChangeDetail : Type := mkChangeDetail {
  cd_type : string;
  cd_scope : string;
  cd_category : string;
  cd_channels : list string
}.

(** A [Set] of names, in insertion order. *)
Definition set_of (names : list string) : list string :=
  fold_left (fun s x => if has_name s x then s else s ++ [x]) names [].

(** [existingOverrides.set(name, entry[name])] for a mapping entry. *)
Definition inline_step (m : list (string * value)) (e : Entry)
  : list (string * value) :=
  match e with
  | EName _ => m
  | EMap name days more => obj_set m name (get (entry_object name days more) name)
  end.

(** The [Map] of inline overrides of a category: for every mapping entry,
    its first key and the value under it. *)
Definition inline_overrides (entries : list Entry) : list (string * value) :=
  fold_left inline_step entries [].

(** The deprecated [overrides:] section merged into the map; keys starting
    with an underscore are left out. *)
Definition migrate_overrides (m : list (string * value)) (section : object)
  : list (string * value) :=
  fold_left
    (fun m '(chanName, v) =>
       if String.prefix "_" chanName then m else obj_set m chanName v)
    section m.

Definition has_key {A : Type} (m : list (string * A)) (k : string) : bool :=
  match obj_get m k with
  | Some _ => true
  | None => false
  end.

(** The [else] branch of the loop of [syncConfig]: a discovered category
    that the configuration already has. *)
Definition syncCategory (gd : value) (catName : string) (channels : list string)
    (cat : Category) : Category * nat * list ChangeDetail * list logrec :=
  let sortedChannels := sort_names channels in
  let inline := inline_overrides (channels_or_empty cat) in
  let '(existingOverrides, migrated) :=
    match cat_overrides cat with
    | Some section => (migrate_overrides inline section, true)
    | None => (inline, false)
    end in
  let existingNames := set_of (map entry_name (channels_or_empty cat)) in
  let newList :=
    map (fun name =>
           match obj_get existingOverrides name with
           | Some v => EMap name v []
           | None => EName name
           end)
      sortedChannels in
  let addedChannels :=
    filter (fun name => negb (has_name existingNames name)) sortedChannels in
  let removedChannels :=
    filter (fun name => negb (has_name sortedChannels name)) existingNames in
  let droppedOverrides :=
    filter (fun name => negb (has_name sortedChannels name)) (map fst existingOverrides) in
  let listChanged := json_differs (channels_or_empty cat) newList in
  let cat' :=
    mkCategory (cat_enabled cat) (cat_default cat) (cat_deleteOld cat) None
      (if listChanged then Some newList else cat_channels cat) in
  let changes :=
    ((if migrated then 1 else 0) + List.length droppedOverrides
     + (if listChanged then 1 else 0))%nat in
  let details :=
    (if migrated then [mkChangeDetail "migrated" "overrides" catName []] else [])
    ++ (match addedChannels with
        | [] => []
        | _ => [mkChangeDetail "added" "channel" catName addedChannels]
        end)
    ++ (match removedChannels with
        | [] => []
        | _ => [mkChangeDetail "removed" "channel" catName removedChannels]
        end) in
  let lines :=
    (if migrated then [(INFO, MSyncMigrated catName)] else [])
    ++ map (fun name => (WARN, MSyncOverrideRemoved catName name)) droppedOverrides
    ++ [(INFO, MSyncCategory catName (truthy (cat_enabled cat))
                 (nullish (cat_default cat) gd) (List.length channels))] in
  (cat', changes, details, lines).

(** What the two loops of [syncConfig] carry along: the categories of the
    configuration, [changes], [changeDetails] and the lines logged. *)
Definition SyncAcc : Type :=
  (list (string * Category) * nat * list ChangeDetail * list logrec)%type.

(** Body of the loop over the discovered map: a new category is added,
    disabled; a known one is reconciled. *)
Definition visitDiscovered (gd : value) (a : SyncAcc) (d : string * list string)
  : SyncAcc :=
  let '(cats, changes, details, lines) := a in
  let '(catName, channels) := d in
  match lookup_category cats catName with
  | None =>
      let sortedChannels := sort_names channels in
      (obj_set cats catName (discovered_category gd sortedChannels),
       S changes,
       details ++ [mkChangeDetail "added" "category" catName sortedChannels],
       lines ++ [(INFO, MSyncNewCategory catName gd channels)])
  | Some cat =>
      let '(cat', n, ds, ls) := syncCategory gd catName channels cat in
      (obj_set cats catName cat', (changes + n)%nat, details ++ ds, lines ++ ls)
  end.

(** Body of the loop over [Object.keys(config.categories)]: a category that
    is no longer on the platform is removed. *)
Definition pruneMissing (discoveredMap : list (string * list string))
    (a : SyncAcc) (catName : string) : SyncAcc :=
  let '(cats, changes, details, lines) := a in
  if has_key discoveredMap catName then (cats, changes, details, lines)
  else
    let removedChannels :=
      match lookup_category cats catName with
      | Some cat => map entry_name (channels_or_empty cat)
      | None => []
      end in
    (obj_delete cats catName, S changes,
     details ++ [mkChangeDetail "removed" "category" catName removedChannels],
     lines ++ [(WARN, MSyncCategoryRemoved catName)]).

(** The two loops of [syncConfig], one after the other. *)
Definition syncCategories (gd : value) (discoveredMap : list (string * list string))
    (cats : list (string * Category)) : SyncAcc :=
  let visited := fold_left (visitDiscovered gd) discoveredMap (cats, O, [], []) in
  fold_left (pruneMissing discoveredMap) (map fst (fst (fst (fst visited)))) visited.

(** The object returned by [syncConfig]. *)
Record SyncReport : Type := mkSyncReport {
  sr_categories : nat;
  sr_channels : nat;
  sr_changes : nat;
  sr_details : list ChangeDetail
}.

Inductive SyncOutcome : Type :=
| SyncExit                         (* process.exit(1) *)
| SyncThrows (err : string)
| SyncDone (report : SyncReport).

Definition syncConfig (exitOnError : bool) (w : Outside) (p : Process)
  : SyncOutcome * Process :=
  let logged lines :=
    mkProcess (p_config p) (p_cleanupRunning p) (p_statsFile p) (p_configWrites p)
      (p_emitted p) (p_log p ++ lines) (p_calls p) in
  match o_guild w with
  | None =>
      (if exitOnError then SyncExit else SyncThrows "Guild not found",
       logged [(INFO, MSyncStart); (ERROR, MGuildNotFound)])
  | Some textChannels =>
      match o_channelsFetch w with
      | Some err =>
          (SyncThrows err,
           mkProcess (p_config p) (p_cleanupRunning p) (p_statsFile p)
             (p_configWrites p) (p_emitted p) (p_log p ++ [(INFO, MSyncStart)])
             (p_calls p ++ [CChannelsFetch]))
      | None =>
          let config := p_config p in
          let discoveredMap := discoveredMap_of textChannels in
          let '(cats, changes, details, lines) :=
            syncCategories (globalDefault config) discoveredMap (categories config) in
          let written := (0 <? changes)%nat in
          (SyncDone (mkSyncReport (List.length discoveredMap)
                       (List.length textChannels) changes details),
           mkProcess
             (mkConfig (globalDefault config) (dryRun config) (discord config) cats
                (discoveryComplete config) (webhookInfo config))
             (p_cleanupRunning p) (p_statsFile p)
             (if written then S (p_configWrites p) else p_configWrites p)
             (p_emitted p)
             (p_log p ++ [(INFO, MSyncStart)] ++ lines
                ++ [(INFO, if written then MSyncWritten changes else MSyncNoChanges);
                    (INFO, MSyncComplete (List.length discoveredMap)
                             (List.length textChannels))])
             (p_calls p ++ [CChannelsFetch]))
      end
  end.

(** ** The run guards, one operation start or end at a time

    [runCleanup] and the [/sync] route are asynchronous: between their first
    [await] and their [finally] other requests are served.  The module
    follows the two flags ([cleanupRunning] of [bot.js], [syncRunning] of
    the cleanup routes) across an arbitrary interleaving of requests, cron
    ticks and completions, and keeps the list of operations in flight. *)

Module SingleFlight.

Inductive operation : Type := OpCleanup | OpSync.

Record State : Type := mkState {
  cleanupRunning : bool;
  syncRunning : bool;
  inFlight : list operation
}.

Definition init : State := mkState false false [].

Inductive event : Type :=
| PostRun (ready : bool)        (* POST /api/cleanup/run *)
| PostDryrun (ready : bool)     (* POST /api/cleanup/dryrun *)
| PostSync (ready : bool)       (* POST /api/cleanup/sync *)
| CronTick                      (* the scheduled job calls runCleanup() *)
| CleanupSettles                (* a runCleanup in flight reaches its finally *)
| SyncSettles.                  (* the /sync handler reaches its finally *)

Inductive response : Type :=
| NotConnected                  (* 503 *)
| AlreadyRunning                (* 409 'Cleanup or sync already running' *)
| Started                       (* the operation is now in flight *)
| Skipped                       (* WARN 'Cleanup already running, skipping' *)
| Settled
| Nothing.

Fixpoint remove_first (o : operation) (l : list operation) : list operation :=
  match l with
  | [] => []
  | x :: rest =>
      match o, x with
      | OpCleanup, OpCleanup | OpSync, OpSync => rest
      | _, _ => x :: remove_first o rest
      end
  end.

(** Entry of [runCleanup]: the guard on [cleanupRunning], then the flag is
    taken. *)
Definition runCleanup_begin (s : State) : response * State :=
  if cleanupRunning s then (Skipped, s)
  else (Started, mkState true (syncRunning s) (inFlight s ++ [OpCleanup])).

(** The guard shared by the three routes:
    [bot.isCleanupRunning() || syncRunning]. *)
Definition route_busy (s : State) : bool := cleanupRunning s || syncRunning s.

Definition post_cleanup (ready : bool) (s : State) : response * State :=
  if negb ready then (NotConnected, s)
  else if route_busy s then (AlreadyRunning, s)
  else runCleanup_begin s.

Definition post_sync (ready : bool) (s : State) : response * State :=
  if negb ready then (NotConnected, s)
  else if route_busy s then (AlreadyRunning, s)
  else (Started, mkState (cleanupRunning s) true (inFlight s ++ [OpSync])).

Definition same_op (o x : operation) : bool :=
  match o, x with
  | OpCleanup, OpCleanup | OpSync, OpSync => true
  | _, _ => false
  end.

Definition has_op (o : operation) (l : list operation) : bool :=
  existsb (same_op o) l.

(** How many operations of a kind are in flight. *)
Definition count_op (o : operation) (l : list operation) : nat :=
  List.length (filter (same_op o) l).

Definition step (e : event) (s : State) : response * State :=
  match e with
  | PostRun ready | PostDryrun ready => post_cleanup ready s
  | PostSync ready => post_sync ready s
  | CronTick => runCleanup_begin s
  | CleanupSettles =>
      if has_op OpCleanup (inFlight s)
      then (Settled, mkState false (syncRunning s) (remove_first OpCleanup (inFlight s)))
      else (Nothing, s)
  | SyncSettles =>
      if has_op OpSync (inFlight s)
      then (Settled, mkState (cleanupRunning s) false (remove_first OpSync (inFlight s)))
      else (Nothing, s)
  end.

(** The state after a sequence of events, with the responses given. *)
Fixpoint run (events : list event) (s : State) : list response * State :=
  match events with
  | [] => ([], s)
  | e :: rest =>
      let '(r, s1) := step e s in
      let '(rs, s2) := run rest s1 in
      (r :: rs, s2)
  end.

(** A request that asks for an operation to start. *)
Definition is_trigger (e : event) : bool :=
  match e with
  | PostRun true | PostDryrun true | PostSync true | CronTick => true
  | _ => false
  end.

End SingleFlight.

(** ** Log rotation *)

(** [f.endsWith(suffix)] *)
Definition ends_with (suffix s : string) : bool :=
  (String.length suffix <=? String.length s)%nat
  && String.eqb
       (String.substring (String.length s - String.length suffix)
          (String.length suffix) s)
       suffix.

(** [f.startsWith('purgebot-') && f.endsWith('.log')] *)
Definition is_log_file (f : string) : bool :=
  String.prefix "purgebot-" f && ends_with ".log" f.

(** The loop [while (files.length > maxDays)] of [rotateLogs], with the
    names removed so far.  [unlink_fails] tells for which names
    [fs.unlinkSync] throws; the [catch] around the whole function then ends
    the rotation, as it does when [files.shift()] finds nothing. *)
Fixpoint rotate_loop (unlink_fails : string -> bool) (maxDays : Z)
    (files : list string) (removed : list string) : list string :=
  match files with
  | [] => removed
  | old :: rest =>
      if Z.of_nat (List.length files) >? maxDays then
        if unlink_fails old then removed
        else rotate_loop unlink_fails maxDays rest (removed ++ [old])
      else removed
  end.

(** [rotateLogs(maxDays)] for an integer [maxDays], given the names in the
    log directory ([None] when reading it throws): the names removed. *)
Definition rotateLogs (unlink_fails : string -> bool) (maxDays : Z)
    (dir : option (list string)) : list string :=
  match dir with
  | None => []
  | Some names =>
      rotate_loop unlink_fails maxDays (sort_names (filter is_log_file names)) []
  end.

(** ** The cleanup webhook *)

Module Webhook.

(** How the POST of one batch ends. *)
Inductive answer : Type :=
| Accepted                                  (* [res.ok] *)
| Refused (status : nat) (body : string)    (* [!res.ok] *)
| Failed (err : string).                    (* [fetch] throws *)

Inductive call (E : Type) : Type :=
| Post (batch : list E) (a : answer)
| Sleep (ms : nat).
Arguments Post {E} batch a.
Arguments Sleep {E} ms.

Inductive line : Type :=
| Response (status : nat) (body : string)   (* WARN 'Webhook response: ...' *)
| Failure (err : string).                   (* ERROR 'Webhook failed: ...' *)

(** What is logged for a POST, and whether the wait between batches is
    reached: a POST that throws skips it. *)
Definition logged (a : answer) : list line :=
  match a with
  | Accepted => []
  | Refused status body => [Response status body]
  | Failed err => [Failure err]
  end.

Definition reaches_sleep (a : answer) : bool :=
  match a with
  | Failed _ => false
  | _ => true
  end.

(** The loop [for (i = 0; i < embeds.length; i += 10)]; [respond] answers
    the POST made after a given number of awaits. *)
Fixpoint sendLoop {E : Type} (fuel : nat) (respond : nat -> list E -> answer)
    (rest : list E) (trace : list (call E)) (out : list line)
  : list (call E) * list line :=
  match fuel with
  | O => (trace, out)
  | S fuel' =>
      match firstn 10 rest with
      | [] => (trace, out)
      | batch =>
          let a := respond (List.length trace) batch in
          let more := negb (List.length (skipn 10 rest) =? 0)%nat in
          sendLoop fuel' respond (skipn 10 rest)
            (trace ++ [Post batch a]
               ++ (if reaches_sleep a && more then [Sleep 1000] else []))
            (out ++ logged a)
      end
  end.

(** [sendWebhook(embeds)]; [url] tells whether [config.webhooks.cleanup] is
    truthy. *)
Definition sendWebhook {E : Type} (url : bool) (respond : nat -> list E -> answer)
    (embeds : list E) : list (call E) * list line :=
  if url then sendLoop (List.length embeds) respond embeds [] [] else ([], []).

(** The batches posted. *)
Definition batches {E : Type} (trace : list (call E)) : list (list E) :=
  flat_map (fun c => match c with
                     | Post batch _ => [batch]
                     | Sleep _ => []
                     end) trace.

(** The lines that the POSTs of a trace leave in the log. *)
Definition lines_of {E : Type} (trace : list (call E)) : list line :=
  flat_map (fun c => match c with
                     | Post _ a => logged a
                     | Sleep _ => []
                     end) trace.

End Webhook.

(** ** Vocabulary of the properties *)

(** A retention value: an integer no smaller than -1. *)
Definition is_retention (v : value) : Prop :=
  exists z : Z, v = VInt z /\ -1 <= z.

(** The inline override listed for a channel, read off the channel list the
    way the configuration documents it: the first mapping entry that has
    the channel as a key of its own, with a value. *)
Definition gives_value (channelName : string) (e : Entry) : bool :=
  match e with
  | EName _ => false
  | EMap name days more =>
      match own (entry_object name days more) channelName with
      | Some v => defined v
      | None => false
      end
  end.

Definition listed_override (cat : Category) (channelName : string) : option value :=
  match find (gives_value channelName) (channels_or_empty cat) with
  | Some (EMap name days more) => own (entry_object name days more) channelName
  | _ => None
  end.

(** The category-level default, when the category has one. *)
Definition category_default (cat : Category) : option value :=
  if defined (cat_default cat) then Some (cat_default cat) else None.

(** The precedence rule read literally: the value of the first tier that is
    present is what resolution returns. *)
Definition picks_first_present (config : Config) (cat : Category)
    (categoryName channelName : string) : Prop :=
  let days := fst (getRetention config categoryName channelName) in
  let source := getRetentionSource config categoryName channelName in
  match listed_override cat channelName with
  | Some o => days = o /\ source = "override"
  | None =>
      match category_default cat with
      | Some d => days = d /\ source = "category"
      | None => days = globalDefault config /\ source = "global"
      end
  end.

(** What validation makes of the value of a tier. *)
Definition validated (config : Config) (v : value) : value :=
  if invalid_retention v then globalDefault config else v.


(** The four combinations of flags and operations in flight that the
    guards let the process reach. *)
Definition flight_shape (s : SingleFlight.State) : Prop :=
  s = SingleFlight.mkState false false []
  \/ s = SingleFlight.mkState true false [SingleFlight.OpCleanup]
  \/ s = SingleFlight.mkState false true [SingleFlight.OpSync]
  \/ s = SingleFlight.mkState true true [SingleFlight.OpSync; SingleFlight.OpCleanup].

Definition is_cron (e : SingleFlight.event) : bool :=
  match e with
  | SingleFlight.CronTick => true
  | _ => false
  end.

(** The messages the store handed out in a sequence of calls. *)
Definition fetched_in (cs : list Call) : list Msg :=
  flat_map (fun c => match c with
                     | CFetch _ _ _ (inr page) => page
                     | _ => []
                     end) cs.

Definition is_fetch (c : Call) : bool :=
  match c with
  | CFetch _ _ _ _ => true
  | _ => false
  end.

(** Calls of the bulk phase. *)
Definition is_bulk_call (c : Call) : bool :=
  match c with
  | CDeleteSingle _ _ | CBulkDelete _ _ _ => true
  | _ => false
  end.

(** Calls of the loop over old messages. *)
Definition is_old_call (c : Call) : bool :=
  match c with
  | CDeleteOld _ _ | CSleep _ => true
  | _ => false
  end.

Definition is_old_delete (c : Call) : bool :=
  match c with
  | CDeleteOld _ _ => true
  | _ => false
  end.

Definition is_delete (c : Call) : bool :=
  match c with
  | CDeleteSingle _ _ | CBulkDelete _ _ _ | CDeleteOld _ _ => true
  | _ => false
  end.

(** Individual deletions of old messages among the calls. *)
Definition old_deletes (cs : list Call) : nat :=
  List.length (filter is_old_delete cs).

(** A fetch that throws, or a delete of the bulk phase that throws. *)
Definition fetch_or_bulk_failure (c : Call) : bool :=
  match c with
  | CFetch _ _ _ (inl _) | CDeleteSingle _ (Some _) | CBulkDelete _ _ (inl _) => true
  | _ => false
  end.

(** An individual delete of an old message that throws. *)
Definition old_delete_failure (c : Call) : bool :=
  match c with
  | CDeleteOld _ (Some _) => true
  | _ => false
  end.

(** Any call to the store that throws. *)
Definition call_failed (c : Call) : bool :=
  fetch_or_bulk_failure c || old_delete_failure c.

(** [st'] is [st] after the calls [new] and the log lines [lines]; the
    counters of the run are as they were. *)
Definition evolves (env : Env) (st st' : RunState) (new : list Call)
    (lines : list logrec) : Prop :=
  calls st' = calls st ++ new
  /\ out st' = out st ++ lines
  /\ tick st' = (tick st + List.length new)%nat
  /\ totalProcessed st' = totalProcessed st
  /\ totalPurged st' = totalPurged st
  /\ totalSkipped st' = totalSkipped st
  /\ totalErrors st' = totalErrors st
  /\ ((forall t, env_cancel env t = false) ->
      cleanupCancelled st' = cleanupCancelled st).

(** The part of [evolves] that also holds across a change of counters. *)
Definition extends (env : Env) (st st' : RunState) (new : list Call)
    (lines : list logrec) : Prop :=
  calls st' = calls st ++ new
  /\ out st' = out st ++ lines
  /\ tick st' = (tick st + List.length new)%nat
  /\ ((forall t, env_cancel env t = false) ->
      cleanupCancelled st' = cleanupCancelled st).

(** The line logged when an individual delete throws. *)
Definition is_delete_warning (line : logrec) : bool :=
  match line with
  | (WARN, MDeleteFailed _ _ _ _) => true
  | _ => false
  end.

(** [bulk + min(old, cap)]: what a run may delete in a channel. *)
Definition cappedTotal (config : Config) (bulk old : list Msg) : nat :=
  (List.length bulk
   + Nat.min (List.length old) (maxOldDeletesPerChannel (discord config)))%nat.

Definition is_error_line (line : logrec) : bool :=
  match line with
  | (ERROR, _) => true
  | _ => false
  end.

(** A store on which no call fails, a batch call deletes its whole batch,
    and no cancellation is requested. *)
Definition cooperative (env : Env) : Prop :=
  (forall t m, env_delete env t m = None)
  /\ (forall t c batch, env_bulkDelete env t c batch = inr (List.length batch))
  /\ (forall t, env_cancel env t = false).

(** Age of a message at time [now], in milliseconds. *)
Definition age (now : Z) (m : Msg) : Z := now - createdAt m.

(** A fetched message is eligible for deletion: not held back as pinned,
    and older than the retention cutoff. *)
Definition eligible (skip : bool) (cutoff : option Z) (m : Msg) : bool :=
  negb (pinned m && skip) && before_cutoff m cutoff.

(** The split read literally: every eligible fetched message lands in
    exactly one of the two sets. *)
Definition splits_every_eligible (skip : bool) (cutoff : option Z)
    (fetched bulk old : list Msg) : Prop :=
  forall m, In m fetched -> eligible skip cutoff m = true ->
    (In m bulk /\ ~ In m old) \/ (In m old /\ ~ In m bulk).

(** Failure isolation read literally: whenever a call to the store threw
    while the channel was processed, the channel's entry carries an error
    and the error counter of the run went up by one. *)
Definition records_every_failure (st st' : RunState) (r : ChannelResult) : Prop :=
  forall new, calls st' = calls st ++ new -> existsb call_failed new = true ->
    is_error r = true /\ totalErrors st' = S (totalErrors st).


(** Channels of a category that the loop processes: on the allow-list and
    not excluded by the channel filter. *)
Definition processed_channel (allowed : list string) (channelFilter : option string)
    (c : TextChannel) : bool :=
  has_name allowed (tc_name c) && negb (filtered_out channelFilter (tc_name c)).

(** No value of the channel list or of the deprecated overrides section is
    [undefined], as in any document read from YAML or JSON. *)
Definition entry_defined (e : Entry) : bool :=
  match e with
  | EName _ => true
  | EMap _ days more => defined days && forallb (fun '(_, v) => defined v) more
  end.

Definition category_defined (cat : Category) : bool :=
  forallb entry_defined (channels_or_empty cat)
  && match cat_overrides cat with
     | Some section => forallb (fun '(_, v) => defined v) section
     | None => true
     end.

Definition config_defined (config : Config) : bool :=
  forallb (fun '(_, cat) => category_defined cat) (categories config).

(** A mapping entry with one property, whose value is defined. *)
Definition simple_entry (e : Entry) : Prop :=
  match e with
  | EName _ => True
  | EMap _ days more => defined days = true /\ more = []
  end.

(** A channel list in the form a sync leaves it for the channel names
    [names]: one simple entry per name, in order, and entries of the same
    name show the same JSON. *)
Definition canonical (entries : list Entry) (names : list string) : Prop :=
  map entry_name entries = names
  /\ (forall e, In e entries -> simple_entry e)
  /\ (forall e1 e2, In e1 entries -> In e2 entries ->
        entry_name e1 = entry_name e2 -> json_entry e1 = json_entry e2).

(** A category on which a sync with the channels [channels] changes
    nothing. *)
Definition settled (gd : value) (catName : string) (channels : list string)
    (cat : Category) : Prop :=
  exists lines, syncCategory gd catName channels cat = (cat, O, [], lines).

(** The entry the rebuilt list has for a channel name. *)
Definition rebuilt_entry (overrides : list (string * value)) (name : string) : Entry :=
  match obj_get overrides name with
  | Some v => EMap name v []
  | None => EName name
  end.

(** ** Further vocabulary: what a trace shows *)

(** The messages handed to a delete call, single or batch. *)
Definition deleted_in (cs : list Call) : list Msg :=
  flat_map (fun c => match c with
                     | CDeleteSingle m _ | CDeleteOld m _ => [m]
                     | CBulkDelete _ batch _ => batch
                     | _ => []
                     end) cs.

(** The channels fetched from, and the page sizes asked for. *)
Definition fetched_channels (cs : list Call) : list nat :=
  flat_map (fun c => match c with
                     | CFetch chan _ _ _ => [chan]
                     | _ => []
                     end) cs.

Definition fetch_limits (cs : list Call) : list nat :=
  flat_map (fun c => match c with
                     | CFetch _ _ limit _ => [limit]
                     | _ => []
                     end) cs.

(** The sizes of the batches handed to [bulkDelete]. *)
Definition batch_sizes (cs : list Call) : list nat :=
  flat_map (fun c => match c with
                     | CBulkDelete _ batch _ => [List.length batch]
                     | _ => []
                     end) cs.

(** The store never answers a fetch with more messages than asked for. *)
Definition respects_limit (env : Env) : Prop :=
  forall t chan before limit page,
    env_fetch env t chan before limit = inr page ->
    (List.length page <= limit)%nat.

(** A channel that a run may touch, for a configuration and the two
    filters: its category is enabled and passes the category filter, the
    channel is on the allow-list, passes the channel filter, and its
    retention is not -1. *)
Definition cleanable (config : Config) (categoryFilter channelFilter : option string)
    (catName : string) (c : TextChannel) : Prop :=
  isEnabled config catName = true
  /\ filtered_out categoryFilter catName = false
  /\ has_name (getConfiguredChannels config catName) (tc_name c) = true
  /\ filtered_out channelFilter (tc_name c) = false
  /\ is_never (fst (getRetention config catName (tc_name c))) = false.

(** The sum of one counter over the per-category statistics of a run. *)
Definition total_of (f : CategoryStats -> nat) (stats : list (string * CategoryStats))
  : nat :=
  list_sum (map (fun entry => f (snd entry)) stats).

(** The entries of a category's [channels] that carry an [error] property. *)
Definition failed_channels (cs : CategoryStats) : nat :=
  List.length (filter is_error (cs_channels cs)).

(** The three counters of a category's statistics are those of its list
    of channel entries. *)
Definition counts_its_channels (cs : CategoryStats) : Prop :=
  cs_processed cs = List.length (cs_channels cs)
  /\ cs_purged cs = list_sum (map cr_purged (cs_channels cs))
  /\ cs_errors cs = List.length (filter cr_has_error (cs_channels cs)).

(** [obj[k] || 0] on a leaderboard. *)
Definition count_of (o : list (string * nat)) (k : string) : nat :=
  match obj_get o k with
  | Some c => c
  | None => O
  end.

(** What a run purged in the category [k]. *)
Definition category_purged (run : RunStats) (k : string) : nat :=
  list_sum (map (fun entry => if String.eqb (fst entry) k
                              then cs_purged (snd entry) else O)
              (run_categories run)).

(** The content of a stats file that does not exist yet. *)
Definition no_stats : StatsData := mkStatsData None None [] None None None.

(** The counters of [stats.json] that only live runs touch. *)
Definition live_counters (d : StatsData)
  : option RunStats * option Lifetime * option (list (string * nat))
    * option (list (string * nat)) :=
  (lastLiveRun d, lifetime d, channelTotals d, categoryTotals d).

(** The channel names a category lists in [_channels]. *)
Definition listed (cat : Category) : list string :=
  map entry_name (channels_or_empty cat).

(** [b] is [a] with the same settings and no entry of [_channels] lost. *)
Definition same_settings (a b : Category) : Prop :=
  cat_enabled b = cat_enabled a
  /\ cat_default b = cat_default a
  /\ cat_deleteOld b = cat_deleteOld a
  /\ cat_overrides b = cat_overrides a.

Definition grows_from (a b : Category) : Prop :=
  same_settings a b /\ incl (channels_or_empty a) (channels_or_empty b).

(** Every category of [cats] is still in [cats'], grown. *)
Definition cats_grow (cats cats' : list (string * Category)) : Prop :=
  forall k cat, lookup_category cats k = Some cat ->
    exists cat', lookup_category cats' k = Some cat' /\ grows_from cat cat'.

(** A category of [cats'] is one of [cats] with its settings, or is
    disabled with the default [gd]. *)
Definition known_or_disabled (gd : value) (cats cats' : list (string * Category))
  : Prop :=
  forall k cat', lookup_category cats' k = Some cat' ->
    (exists cat, lookup_category cats k = Some cat /\ same_settings cat cat')
    \/ (lookup_category cats k = None
        /\ cat_enabled cat' = VBool false /\ cat_default cat' = gd).

(** The bodies of the two loops of [autoDiscoverChannels], by name. *)
Definition discover_channel_step (locale_lt : string -> string -> bool) (gd : value)
    (catName : string) (existingNames : list string)
    (acc : Category * nat * list logrec) (chanName : string)
  : Category * nat * list logrec :=
  let '(cat, changes, out) := acc in
  if has_name existingNames chanName then (cat, changes, out)
  else
    (set_channels cat (sort_entries locale_lt (channels_or_empty cat ++ [EName chanName])),
     S changes,
     out ++ [(INFO, MAutoChannel chanName catName (nullish (cat_default cat) gd)
                      (if defined (cat_default cat) then "category" else "global"))]).

Definition discover_category_step (locale_lt : string -> string -> bool)
    (config : Config)
    (acc : list (string * Category) * nat * list logrec) (d : string * list string)
  : list (string * Category) * nat * list logrec :=
  let '(cats, changes, out) := acc in
  let '(catName, channels) := d in
  match lookup_category cats catName with
  | None =>
      (obj_set cats catName
         (discovered_category (globalDefault config) (sort_names channels)),
       S changes,
       out ++ [(INFO, MAutoCategory catName (List.length channels))])
  | Some cat =>
      let '(cat', n, lines) :=
        discover_channels locale_lt (globalDefault config) catName
          (map entry_name (channels_or_empty cat)) (sort_names channels) cat in
      (if (0 <? n)%nat then obj_set cats catName cat' else cats,
       (changes + n)%nat, out ++ lines)
  end.

(** What a full sync makes of a category whose channels on the platform
    are [names]: the list is the sorted names, the deprecated section is
    gone, and the settings are those it had ([before]), or those of a new,
    disabled category. *)
Definition reconciled (gd : value) (before : option Category) (names : list string)
    (cat' : Category) : Prop :=
  listed cat' = sort_names names
  /\ cat_overrides cat' = None
  /\ match before with
     | Some cat =>
         cat_enabled cat' = cat_enabled cat
         /\ cat_default cat' = cat_default cat
         /\ cat_deleteOld cat' = cat_deleteOld cat
     | None =>
         cat_enabled cat' = VBool false
         /\ cat_default cat' = gd
         /\ cat_deleteOld cat' = VUndefined
     end.

(** Calls that start new work: the fetch of the first page of a channel
    (no [before]), and the individual delete of an old message. *)
Definition starts_work (c : Call) : bool :=
  match c with
  | CFetch _ None _ _ | CDeleteOld _ _ => true
  | _ => false
  end.

(** No cancellation is requested during the [count] awaits from [from]. *)
Definition quiet (env : Env) (from count : nat) : Prop :=
  forall t, (from <= t < from + count)%nat -> env_cancel env t = false.

(** [st'] is [st] after the calls [new]; the cancellation flag is set
    exactly when it was set or a cancellation was requested meanwhile, and
    every call that starts work was made with the flag down and no
    cancellation requested before it. *)
Definition follows (env : Env) (st st' : RunState) (new : list Call) : Prop :=
  calls st' = calls st ++ new
  /\ tick st' = (tick st + List.length new)%nat
  /\ (cleanupCancelled st' = false
      <-> cleanupCancelled st = false /\ quiet env (tick st) (List.length new))
  /\ (forall pre c post, new = pre ++ c :: post -> starts_work c = true ->
        cleanupCancelled st = false /\ quiet env (tick st) (List.length pre)).

(** ** Further vocabulary: caps and continuation *)

(** A delete of one message alone, in either phase. *)
Definition is_single_delete (c : Call) : bool :=
  match c with
  | CDeleteSingle _ _ | CDeleteOld _ _ => true
  | _ => false
  end.

(** Individual (non-bulk) deletions among the calls. *)
Definition individual_deletes (cs : list Call) : nat :=
  List.length (filter is_single_delete cs).

(** The line that reports the old messages left for a later run. *)
Definition is_remaining_line (line : logrec) : bool :=
  match line with
  | (_, MOldRemain _ _ _ _) => true
  | _ => false
  end.

(** The cap read literally, for a channel in which the old messages [old]
    were found: no more than [maxOld] individual deletions, and a line that
    reports the rest when there are more old messages than that. *)
Definition caps_individual_deletes (maxOld : nat) (old : list Msg)
    (st st' : RunState) : Prop :=
  forall new lines,
    calls st' = calls st ++ new -> out st' = out st ++ lines ->
    (individual_deletes new <= maxOld)%nat
    /\ ((maxOld < List.length old)%nat -> existsb is_remaining_line lines = true).

(** A category of the statistics with the names of its channel entries. *)
Definition visited (entry : string * CategoryStats) : string * list string :=
  (fst entry, map cr_name (cs_channels (snd entry))).

(** The categories a run has to go through, each with the channels it has
    to process: the enabled categories that pass the category filter, and
    in each the channels on the allow-list that pass the channel filter. *)
Definition due (config : Config) (categoryFilter channelFilter : option string)
    (cats : list (string * list TextChannel)) : list (string * list string) :=
  map (fun cat =>
         (fst cat,
          map tc_name
            (filter (processed_channel (getConfiguredChannels config (fst cat))
                       channelFilter) (snd cat))))
    (filter (fun cat => isEnabled config (fst cat)
                        && negb (filtered_out categoryFilter (fst cat))) cats).

(** A name made of ASCII characters only.  On such names a character of
    the model is one code unit of the source's string, and [String.ltb] is
    the order of the default [Array.prototype.sort]. *)
Definition is_ascii (name : string) : bool :=
  forallb (fun c => (Ascii.nat_of_ascii c <? 128)%nat) (list_ascii_of_string name).

(** ** Sample data *)

Module Samples.

Definition settings : Discord := mkDiscord 500 20 2000 true.

Definition logs_category : Category :=
  mkCategory (VBool true) (VInt 14) VUndefined None
    (Some [EName "general"; EMap "archive" (VInt (-1)) []; EName "noise"]).

Definition media_category : Category :=
  mkCategory (VBool true) VUndefined VUndefined None
    (Some [EName "requests"; EMap "errors" (VInt 3) []]).

Definition config_ok : Config :=
  mkConfig (VInt 7) false settings
    [("logs", logs_category); ("media", media_category)] false false.

(** A category whose default is below -1. *)
Definition broken_category : Category :=
  mkCategory (VBool true) (VInt (-5)) VUndefined None (Some [EName "general"]).

Definition config_broken_default : Config :=
  mkConfig (VInt 7) false settings [("logs", broken_category)] false false.


(** *** A store *)

Definition day : Z := 86400000.
Definition now0 : Z := 20000 * day.

(** The messages that follow the one with id [before]. *)
Fixpoint following (before : nat) (msgs : list Msg) : list Msg :=
  match msgs with
  | [] => []
  | m :: rest => if Nat.eqb (msg_id m) before then rest else following before rest
  end.

(** A store holding [msgs] (newest first) in every channel, which refuses
    to delete the messages whose id is in [refused]. *)
Definition store (msgs : list Msg) (refused : list nat) : Env :=
  mkEnv (fun _ => now0)
    (fun _ _ before limit =>
       inr (firstn limit (match before with
                          | None => msgs
                          | Some id => following id msgs
                          end)))
    (fun _ m =>
       if existsb (Nat.eqb (msg_id m)) refused
       then Some "Missing Permissions" else None)
    (fun _ _ batch => inr (List.length batch))
    (fun _ => false).

Definition general : TextChannel := mkTextChannel 1 "general" (Some "logs").

(** Messages written 20 days, exactly 14 days and 10 days before [now0]. *)
Definition old_message : Msg := mkMsg 5 (now0 - 20 * day) false.
Definition boundary_message : Msg := mkMsg 6 (now0 - 14 * day) false.
Definition recent_message : Msg := mkMsg 7 (now0 - 10 * day) false.

Definition three : list Msg := [recent_message; boundary_message; old_message].

(** [count] messages with ids from [first] on, one minute apart, the
    newest [offset] milliseconds old. *)
Fixpoint messages (count first : nat) (offset : Z) : list Msg :=
  match count with
  | O => []
  | S n => mkMsg first (now0 - offset) false
             :: messages n (S first) (offset + 60000)
  end.

(** 90 messages between 8 and 9 days old, then 30 messages 20 days old
    and more. *)
Definition mix : list Msg :=
  messages 90 1000 (8 * day) ++ messages 30 2000 (20 * day).

(** *** Runs *)

Definition idle : Process :=
  mkProcess config_ok false None 0 [] [] [].


Definition scheduled : Options := mkOptions false false None None "schedule".

(** *** A guild for the sync *)

(** The configuration knows two categories; the guild has only "logs"
    left, with the three channels the configuration lists. *)
Definition sorted_logs : Category :=
  mkCategory (VBool true) (VInt 14) VUndefined None
    (Some [EMap "archive" (VInt (-1)) []; EName "general"; EName "noise"]).

Definition config_two : Config :=
  mkConfig (VInt 7) false settings
    [("logs", sorted_logs); ("media", media_category)] false false.

Definition logs_only : list TextChannel :=
  [mkTextChannel 1 "general" (Some "logs");
   mkTextChannel 2 "archive" (Some "logs");
   mkTextChannel 3 "noise" (Some "logs")].

Definition guild_logs_only : Outside :=
  mkOutside (Some config_two) (Some logs_only) None (store [] []) String.ltb.

Definition idle_two : Process :=
  mkProcess config_two false None 0 [] [] [].

(** The same process once the first discovery has been made. *)
Definition idle_discovered : Process :=
  mkProcess
    (mkConfig (VInt 7) false settings
       [("logs", sorted_logs); ("media", media_category)] true false)
    false None 0 [] [] [].

(** *** A guild for a cleanup run *)

(** One channel, "requests" of "media", which resolves to the global
    default of 7 days and holds the 120 messages of [mix]. *)
Definition requests : TextChannel := mkTextChannel 9 "requests" (Some "media").

Definition guild_requests : Outside :=
  mkOutside (Some config_ok) (Some [requests]) None (store mix []) String.ltb.

Definition forced_dry : Options := mkOptions true false None None "api".

(** *** Stores that fail *)

(** 101 messages between 8 and 9 days old, then 30 messages 20 days old
    and more. *)
Definition crowded : list Msg :=
  messages 101 1000 (8 * day) ++ messages 30 2000 (20 * day).

(** A store like [store msgs []] whose [bulkDelete] throws. *)
Definition bulk_refusing (msgs : list Msg) : Env :=
  mkEnv (env_now (store msgs [])) (env_fetch (store msgs []))
    (env_delete (store msgs []))
    (fun _ _ _ => inl "Missing Access")
    (env_cancel (store msgs [])).

(** A store like [store msgs refused] in which the channel with id
    [closed] cannot be read. *)
Definition unreadable (msgs : list Msg) (refused : list nat) (closed : nat) : Env :=
  mkEnv (env_now (store msgs refused))
    (fun t chan before limit =>
       if Nat.eqb chan closed then inl "Missing Access"
       else env_fetch (store msgs refused) t chan before limit)
    (env_delete (store msgs refused))
    (env_bulkDelete (store msgs refused))
    (env_cancel (store msgs refused)).

(** The guild of [guild_logs_only] on a store in which "general" cannot be
    read; every other channel holds the messages of [three]. *)
Definition guild_unreadable : Outside :=
  mkOutside (Some config_two) (Some logs_only) None (unreadable three [] 1)
    String.ltb.

(** Two old messages, the first of which the store refuses to delete. *)
Definition older_message : Msg := mkMsg 4 (now0 - 21 * day) false.
Definition two_old : list Msg := [old_message; older_message].

End Samples.

(** * Properties *)

(** ** Retention resolution *)

Lemma lookup_category_none (cats : list (string * Category)) (name : string) :
  ~ In name (map fst cats) -> lookup_category cats name = None.
Proof.
  induction cats as [| [n c] rest IH]; simpl; intros Hnot; [reflexivity |].
  destruct (String.eqb_spec n name) as [-> | Hne].
  - exfalso. apply Hnot. now left.
  - apply IH. intros Hin. apply Hnot. now right.
Qed.

Lemma category_at_own (cats : list (string * Category)) (name : string)
    (cat : Category) :
  lookup_category cats name = Some cat -> category_at cats name = Some cat.
Proof. intros H. unfold category_at. now rewrite H. Qed.

Lemma get_own (o : object) (k : string) :
  get o k = match own o k with
            | Some v => v
            | None => if inherited k then VOther else VUndefined
            end.
Proof.
  induction o as [| [k' v] rest IH]; cbn [get own]; [reflexivity |].
  now destruct (String.eqb k' k).
Qed.

Lemma getChannelOverride_listed (config : Config) (cat : Category) (channelName : string) :
  inherited channelName = false ->
  getChannelOverride cat channelName =
  match listed_override cat channelName with
  | Some o => o
  | None => VUndefined
  end
  /\ (forall o, listed_override cat channelName = Some o -> defined o = true).
Proof.
  intros Hplain.
  unfold getChannelOverride, listed_override, channels_or_empty.
  destruct (cat_channels cat) as [entries |]; [| split; [reflexivity | discriminate]].
  induction entries as [| e rest IH].
  - split; [reflexivity | discriminate].
  - destruct e as [s | name days more];
      cbn [getChannelOverride_entries find gives_value].
    + exact IH.
    + rewrite get_own, Hplain.
      destruct (own (entry_object name days more) channelName) as [v |] eqn:Hown.
      * destruct (defined v) eqn:Hd.
        -- rewrite Hown. split; [reflexivity |].
           intros o Ho. inversion Ho; subst. exact Hd.
        -- exact IH.
      * cbn [defined]. exact IH.
Qed.

Lemma validateRetention_fst (config : Config) (v : value) (context : string) :
  fst (validateRetention config v context) = validated config v.
Proof.
  unfold validateRetention, validated. now destruct (invalid_retention v).
Qed.


(** C2, as amended.  For a category present in the configuration and a
    channel name that is not the name of a member every object inherits,
    resolution takes the first tier that is present (inline override of
    the channel list, then category default, then global default) and tags
    the result 'override', 'category' or 'global' accordingly; the value
    returned is the value of that tier when it is an integer no smaller
    than -1, and the global default otherwise. *)
Theorem retention_precedence (config : Config) (categoryName channelName : string)
    (cat : Category) :
  lookup_category (categories config) categoryName = Some cat ->
  inherited channelName = false ->
  let days := fst (getRetention config categoryName channelName) in
  let source := getRetentionSource config categoryName channelName in
  match listed_override cat channelName with
  | Some o => days = validated config o /\ source = "override"
  | None =>
      match category_default cat with
      | Some d => days = validated config d /\ source = "category"
      | None => days = globalDefault config /\ source = "global"
      end
  end.
Proof.
  intros Hcat Hplain. unfold getRetention, getRetentionSource.
  rewrite (category_at_own _ _ _ Hcat).
  destruct (getChannelOverride_listed config cat channelName Hplain) as [Hov Hdef].
  rewrite Hov. unfold category_default.
  destruct (listed_override cat channelName) as [o |].
  - rewrite (Hdef o eq_refl). rewrite validateRetention_fst. now split.
  - simpl. destruct (defined (cat_default cat)).
    + rewrite validateRetention_fst. now split.
    + now split.
Qed.

Lemma retention_precedence_witness :
  fst (getRetention Samples.config_ok "logs" "archive") = VInt (-1)
  /\ getRetentionSource Samples.config_ok "logs" "archive" = "override".
Proof.
  exact (retention_precedence Samples.config_ok "logs" "archive"
           Samples.logs_category eq_refl eq_refl).
Defined.

(** What the amended statement leaves out: a channel whose name is that of
    an inherited member finds that member in the first mapping entry that
    has no key of that name, so that resolution warns and falls back to
    the global default, tagged 'override'. *)
Lemma inherited_channel_override (config : Config) (categoryName channelName : string)
    (cat : Category) (name : string) (days : value) (more : object)
    (rest : list Entry) :
  lookup_category (categories config) categoryName = Some cat ->
  cat_channels cat = Some (EMap name days more :: rest) ->
  inherited channelName = true ->
  own (entry_object name days more) channelName = None ->
  getRetention config categoryName channelName
  = (globalDefault config,
     [(WARN, MInvalidRetention VOther (categoryName ++ "/#" ++ channelName)%string
               (globalDefault config))])
  /\ getRetentionSource config categoryName channelName = "override".
Proof.
  intros Hcat Hlist Hin Hown. unfold getRetention, getRetentionSource.
  rewrite (category_at_own _ _ _ Hcat). unfold getChannelOverride. rewrite Hlist.
  cbn [getChannelOverride_entries]. rewrite get_own, Hown, Hin. cbn. tauto.
Qed.

(** C2, as stated, fails: a category default of -5 is present and no
    override is listed, yet resolution returns the global default 7. *)
Lemma retention_precedence_counterexample :
  lookup_category (categories Samples.config_broken_default) "logs"
    = Some Samples.broken_category
  /\ ~ picks_first_present Samples.config_broken_default Samples.broken_category
         "logs" "general".
Proof.
  split; [reflexivity |].
  unfold picks_first_present. simpl. intros [H _]. discriminate H.
Qed.

Lemma lookup_category_some (cats : list (string * Category)) (name : string) :
  In name (map fst cats) -> exists cat, lookup_category cats name = Some cat.
Proof.
  induction cats as [| [n c] rest IH]; simpl; intros Hin; [contradiction |].
  destruct (String.eqb_spec n name) as [-> | Hne].
  - now exists c.
  - destruct Hin as [Heq | Hin]; [contradiction | now apply IH].
Qed.


Lemma loadConfig_categories (parsed : Config) :
  categories (fst (loadConfig parsed)) = categories parsed.
Proof.
  unfold loadConfig.
  now destruct (invalid_retention (nullish (globalDefault parsed) (VInt 7))).
Qed.







(** An unknown category: a name that is neither a key of the category map
    nor the name of an inherited member resolves to [null], with nothing
    logged, and to the source 'global'. *)
Lemma unknown_category_resolution (config : Config)
    (categoryName channelName : string) :
  ~ In categoryName (map fst (categories config)) ->
  inherited categoryName = false ->
  getRetention config categoryName channelName = (VNull, [])
  /\ getRetentionSource config categoryName channelName = "global"
  /\ ~ is_retention (fst (getRetention config categoryName channelName)).
Proof.
  intros Hnot Hplain. apply lookup_category_none in Hnot.
  unfold getRetention, getRetentionSource, category_at. rewrite Hnot, Hplain.
  repeat split. intros [z [H _]]. discriminate H.
Qed.

(** C10, the failing input.  A category name that is not a key of the
    category map but is the name of a member every object inherits
    ('constructor', 'toString', ...) is not resolved to [null]:
    [config.categories[name]] finds the inherited member, the test for an
    unknown category does not fire, and [getRetention] returns the global
    default, with nothing logged; [getRetentionSource] returns 'global'. *)
Theorem inherited_category_resolution (config : Config)
    (categoryName channelName : string) :
  ~ In categoryName (map fst (categories config)) ->
  inherited categoryName = true ->
  getRetention config categoryName channelName = (globalDefault config, [])
  /\ getRetentionSource config categoryName channelName = "global"
  /\ (is_retention (globalDefault config) ->
      getRetention config categoryName channelName <> (VNull, [])).
Proof.
  intros Hnot Hin. apply lookup_category_none in Hnot.
  unfold getRetention, getRetentionSource, category_at. rewrite Hnot, Hin.
  cbn. split; [reflexivity |]. split; [reflexivity |].
  intros [z [Hz _]] Heq. rewrite Hz in Heq. discriminate Heq.
Qed.

Lemma constructor_not_listed :
  ~ In "constructor" (map fst (categories Samples.config_ok)).
Proof.
  simpl. intros [H | [H | H]]; [discriminate H | discriminate H | exact H].
Defined.

Lemma inherited_category_resolution_witness :
  getRetention Samples.config_ok "constructor" "general" = (VInt 7, [])
  /\ getRetentionSource Samples.config_ok "constructor" "general" = "global".
Proof.
  destruct (inherited_category_resolution Samples.config_ok "constructor" "general"
              constructor_not_listed eq_refl) as [H1 [H2 _]].
  split; [exact H1 | exact H2].
Defined.

(** ** The run guards *)

Lemma step_keeps_shape (e : SingleFlight.event) (s : SingleFlight.State) :
  flight_shape s -> flight_shape (snd (SingleFlight.step e s)).
Proof.
  unfold flight_shape.
  intros [-> | [-> | [-> | ->]]]; destruct e as [[|] | [|] | [|] | | |]; cbn; auto.
Qed.

Lemma run_keeps_shape (events : list SingleFlight.event) (s : SingleFlight.State) :
  flight_shape s -> flight_shape (snd (SingleFlight.run events s)).
Proof.
  revert s. induction events as [| e rest IH]; intros s Hs; [exact Hs |].
  cbn [SingleFlight.run].
  pose proof (step_keeps_shape e s Hs) as Hstep.
  destruct (SingleFlight.step e s) as [r s1]. cbn [snd] in Hstep.
  specialize (IH s1 Hstep).
  destruct (SingleFlight.run rest s1) as [rs s2]. exact IH.
Qed.

(** Never two cleanups nor two syncs at once, whatever the interleaving. *)
Lemma at_most_one_of_each (events : list SingleFlight.event) :
  let s := snd (SingleFlight.run events SingleFlight.init) in
  (SingleFlight.count_op SingleFlight.OpCleanup (SingleFlight.inFlight s) <= 1)%nat
  /\ (SingleFlight.count_op SingleFlight.OpSync (SingleFlight.inFlight s) <= 1)%nat.
Proof.
  cbn zeta.
  assert (H : flight_shape (snd (SingleFlight.run events SingleFlight.init))).
  { apply run_keeps_shape. now left. }
  destruct H as [-> | [-> | [-> | ->]]]; cbn; lia.
Qed.

(** The routes refuse a request while anything is in flight. *)
Lemma routes_reject_when_busy (events : list SingleFlight.event) (e : SingleFlight.event) :
  let s := snd (SingleFlight.run events SingleFlight.init) in
  SingleFlight.inFlight s <> [] ->
  SingleFlight.is_trigger e = true -> is_cron e = false ->
  SingleFlight.step e s = (SingleFlight.AlreadyRunning, s).
Proof.
  cbn zeta.
  assert (H : flight_shape (snd (SingleFlight.run events SingleFlight.init))).
  { apply run_keeps_shape. now left. }
  destruct H as [-> | [-> | [-> | ->]]]; intros Hbusy Htrig Hcron;
    try (now contradiction Hbusy);
    destruct e as [[|] | [|] | [|] | | |]; try discriminate; reflexivity.
Qed.

(** The scheduled job does not look at [syncRunning]: whenever no cleanup
    is running, its call of [runCleanup] starts one, sync or no sync. *)
Lemma cron_tick_ignores_sync (s : SingleFlight.State) :
  SingleFlight.cleanupRunning s = false ->
  SingleFlight.step SingleFlight.CronTick s
  = (SingleFlight.Started,
     SingleFlight.mkState true (SingleFlight.syncRunning s)
       (SingleFlight.inFlight s ++ [SingleFlight.OpCleanup])).
Proof.
  intros Hidle. cbn [SingleFlight.step]. unfold SingleFlight.runCleanup_begin.
  now rewrite Hidle.
Qed.

(** C1, the failing interleaving: a sync started through the API is in
    flight when the scheduled job fires; [runCleanup] looks at
    [cleanupRunning] only, so the cleanup starts and both operations are in
    flight together, and the tick is not answered 'already running'. *)
Theorem cron_tick_during_sync :
  SingleFlight.run [SingleFlight.PostSync true; SingleFlight.CronTick] SingleFlight.init
  = ([SingleFlight.Started; SingleFlight.Started],
     SingleFlight.mkState true true [SingleFlight.OpSync; SingleFlight.OpCleanup]).
Proof. reflexivity. Qed.

(** ** How a run extends its trace *)

Section Traces.

Variable env : Env.

Lemma evolves_refl (st : RunState) : evolves env st st [] [].
Proof.
  unfold evolves. rewrite !app_nil_r. simpl. rewrite Nat.add_0_r.
  repeat split; reflexivity.
Qed.

Lemma evolves_trans (st1 st2 st3 : RunState) (n1 n2 : list Call)
    (l1 l2 : list logrec) :
  evolves env st1 st2 n1 l1 -> evolves env st2 st3 n2 l2 ->
  evolves env st1 st3 (n1 ++ n2) (l1 ++ l2).
Proof.
  unfold evolves.
  intros (Hc1 & Ho1 & Ht1 & Hp1 & Hu1 & Hs1 & He1 & Hk1)
         (Hc2 & Ho2 & Ht2 & Hp2 & Hu2 & Hs2 & He2 & Hk2).
  rewrite Hc2, Hc1, Ho2, Ho1, Ht2, Ht1, Hp2, Hp1, Hu2, Hu1, Hs2, Hs1, He2, He1.
  rewrite !app_assoc, length_app.
  repeat split; try reflexivity; try lia.
  intros Hno. rewrite (Hk2 Hno). exact (Hk1 Hno).
Qed.

Lemma evolves_await (c : Call) (st : RunState) :
  evolves env st (await env c st) [c] [].
Proof.
  unfold evolves, await. simpl. rewrite app_nil_r.
  repeat split; try reflexivity; try lia.
  intros Hno. rewrite Hno. apply orb_false_r.
Qed.

Lemma evolves_log (l : level) (m : message) (st : RunState) :
  evolves env st (log l m st) [] [(l, m)].
Proof.
  unfold evolves, log. simpl. rewrite app_nil_r, Nat.add_0_r.
  repeat split; reflexivity.
Qed.

Lemma evolves_logs (ls : list logrec) (st : RunState) :
  evolves env st (logs ls st) [] ls.
Proof.
  unfold evolves, logs. simpl. rewrite app_nil_r, Nat.add_0_r.
  repeat split; reflexivity.
Qed.

Lemma fetched_in_app (a b : list Call) :
  fetched_in (a ++ b) = fetched_in a ++ fetched_in b.
Proof. unfold fetched_in. apply flat_map_app. Qed.

Lemma old_deletes_app (a b : list Call) :
  old_deletes (a ++ b) = (old_deletes a + old_deletes b)%nat.
Proof. unfold old_deletes. now rewrite filter_app, length_app. Qed.

(** *** The fetch loop *)

Lemma fetchLoop_trace (chan maxMessages : nat) (skip deleteOld : bool)
    (cutoff : option Z) (limit : Z) (fuel : nat) :
  forall (fetched : nat) (lastId : option nat) (acc : list Msg * list Msg)
         (st st' : RunState) (r : outcome (list Msg * list Msg * nat)),
    fetchLoop env fuel chan maxMessages skip deleteOld cutoff limit
      fetched lastId acc st = (r, st') ->
    exists new,
      evolves env st st' new []
      /\ forallb is_fetch new = true
      /\ match r with
         | Ok (acc', _) =>
             acc' = fold_left (classify skip deleteOld cutoff limit)
                      (fetched_in new) acc
             /\ existsb fetch_or_bulk_failure new = false
         | Throw _ => existsb fetch_or_bulk_failure new = true
         end.
Proof.
  induction fuel as [| fuel IH]; intros fetched lastId acc st st' r Hrun.
  - simpl in Hrun. inversion Hrun; subst.
    exists []. split; [apply evolves_refl |]. now repeat split.
  - cbn [fetchLoop] in Hrun.
    destruct (fetched <? maxMessages)%nat.
    2:{ inversion Hrun; subst.
        exists []. split; [apply evolves_refl |]. now repeat split. }
    set (batchSize := Nat.min 100 (maxMessages - fetched)) in *.
    set (answer := env_fetch env (tick st) chan lastId batchSize) in *.
    pose proof (evolves_await (CFetch chan lastId batchSize answer) st) as Hstep.
    destruct answer as [err | [| m ms]] eqn:Hans.
    + inversion Hrun; subst.
      eexists. split; [exact Hstep |]. now repeat split.
    + inversion Hrun; subst.
      eexists. split; [exact Hstep |]. now repeat split.
    + apply IH in Hrun. destruct Hrun as (new & Hev & Hall & Hres).
      exists (CFetch chan lastId batchSize (inr (m :: ms)) :: new).
      split; [exact (evolves_trans _ _ _ _ _ _ _ Hstep Hev) |].
      split; [exact Hall |].
      destruct r as [[acc' n] | err].
      * destruct Hres as [Hacc Hok]. split; [| exact Hok].
        rewrite Hacc. cbn [fetched_in flat_map].
        now rewrite fold_left_app.
      * exact Hres.
Qed.

End Traces.

Section Phases.

Variable env : Env.

(** *** The split of a page *)

Lemma classify_one (skip deleteOld : bool) (cutoff : option Z) (limit : Z)
    (bulk old : list Msg) (m : Msg) :
  classify skip deleteOld cutoff limit (bulk, old) m
  = (bulk ++ filter (fun m => eligible skip cutoff m && (createdAt m >? limit)) [m],
     old ++ filter (fun m => eligible skip cutoff m
                             && negb (createdAt m >? limit) && deleteOld) [m]).
Proof.
  unfold classify, eligible. cbn [filter].
  destruct (pinned m && skip), (before_cutoff m cutoff), (createdAt m >? limit),
    deleteOld; cbn; now rewrite ?app_nil_r.
Qed.

Lemma classify_fold (skip deleteOld : bool) (cutoff : option Z) (limit : Z)
    (msgs : list Msg) :
  forall bulk old,
    fold_left (classify skip deleteOld cutoff limit) msgs (bulk, old)
    = (bulk ++ filter (fun m => eligible skip cutoff m && (createdAt m >? limit)) msgs,
       old ++ filter (fun m => eligible skip cutoff m
                               && negb (createdAt m >? limit) && deleteOld) msgs).
Proof.
  induction msgs as [| m rest IH]; intros bulk old.
  - cbn. now rewrite !app_nil_r.
  - cbn [fold_left]. rewrite classify_one, IH.
    change (m :: rest) with ([m] ++ rest).
    now rewrite !filter_app, !app_assoc.
Qed.

(** *** Enough rounds *)

Lemma fetchLoop_fuel (chan maxMessages : nat) (skip deleteOld : bool)
    (cutoff : option Z) (limit : Z) (extra fuel : nat) :
  forall fetched lastId acc st,
    (maxMessages - fetched <= fuel)%nat ->
    fetchLoop env (fuel + extra) chan maxMessages skip deleteOld cutoff limit
      fetched lastId acc st
    = fetchLoop env fuel chan maxMessages skip deleteOld cutoff limit
        fetched lastId acc st.
Proof.
  induction fuel as [| fuel IH]; intros fetched lastId acc st Hle.
  - destruct extra as [| extra]; [reflexivity |].
    cbn [Nat.add fetchLoop].
    destruct (Nat.ltb_spec fetched maxMessages) as [Hlt | Hge]; [lia | reflexivity].
  - cbn [Nat.add fetchLoop].
    destruct (Nat.ltb_spec fetched maxMessages) as [Hlt | Hge]; [| reflexivity].
    destruct (env_fetch env (tick st) chan lastId
                (Nat.min 100 (maxMessages - fetched))) as [err | [| m ms]];
      try reflexivity.
    apply IH. cbn [List.length]. lia.
Qed.

Lemma firstn_nonempty {A : Type} (n : nat) (l : list A) (x : A) (xs : list A) :
  firstn n l = x :: xs -> (List.length (skipn n l) < List.length l)%nat.
Proof.
  intros H. destruct n as [| n]; [discriminate H |].
  destruct l as [| y l]; [discriminate H |].
  cbn [skipn List.length]. pose proof (length_skipn n l). lia.
Qed.

Lemma bulkPhase_fuel (chan : nat) (extra fuel : nat) :
  forall rest deleted st,
    (List.length rest <= fuel)%nat ->
    bulkPhase env (fuel + extra) chan rest deleted st
    = bulkPhase env fuel chan rest deleted st.
Proof.
  induction fuel as [| fuel IH]; intros rest deleted st Hle.
  - destruct rest; [| cbn in Hle; lia].
    destruct extra; reflexivity.
  - cbn [Nat.add bulkPhase].
    destruct (firstn 100 rest) as [| m [| m2 batch]] eqn:Hb; [reflexivity | |].
    + apply firstn_nonempty in Hb.
      destruct (env_delete env (tick st) m); [reflexivity |].
      apply IH. lia.
    + apply firstn_nonempty in Hb.
      destruct (env_bulkDelete env (tick st) chan (m :: m2 :: batch));
        [reflexivity |].
      apply IH. lia.
Qed.

(** *** The bulk phase *)

Lemma bulkPhase_trace (chan : nat) (fuel : nat) :
  forall (rest : list Msg) (deleted : nat) (st st' : RunState) (r : outcome nat),
    bulkPhase env fuel chan rest deleted st = (r, st') ->
    exists new,
      evolves env st st' new []
      /\ forallb is_bulk_call new = true
      /\ match r with
         | Ok _ => existsb fetch_or_bulk_failure new = false
         | Throw _ => existsb fetch_or_bulk_failure new = true
         end.
Proof.
  induction fuel as [| fuel IH]; intros rest deleted st st' r Hrun.
  - cbn [bulkPhase] in Hrun. inversion Hrun; subst.
    exists []. split; [apply evolves_refl |]. now split.
  - cbn [bulkPhase] in Hrun.
    destruct (firstn 100 rest) as [| m [| m2 batch]] eqn:Hb.
    + inversion Hrun; subst.
      exists []. split; [apply evolves_refl |]. now split.
    + set (answer := env_delete env (tick st) m) in *.
      pose proof (evolves_await env (CDeleteSingle m answer) st) as Hstep.
      destruct answer as [err |] eqn:Hans.
      * inversion Hrun; subst. eexists. split; [exact Hstep |]. now split.
      * apply IH in Hrun. destruct Hrun as (new & Hev & Hall & Hres).
        exists (CDeleteSingle m None :: new).
        split; [exact (evolves_trans _ _ _ _ _ _ _ _ Hstep Hev) |].
        split; [exact Hall | exact Hres].
    + set (answer := env_bulkDelete env (tick st) chan (m :: m2 :: batch)) in *.
      pose proof (evolves_await env (CBulkDelete chan (m :: m2 :: batch) answer) st)
        as Hstep.
      destruct answer as [err | size] eqn:Hans.
      * inversion Hrun; subst. eexists. split; [exact Hstep |]. now split.
      * apply IH in Hrun. destruct Hrun as (new & Hev & Hall & Hres).
        exists (CBulkDelete chan (m :: m2 :: batch) (inr size) :: new).
        split; [exact (evolves_trans _ _ _ _ _ _ _ _ Hstep Hev) |].
        split; [exact Hall | exact Hres].
Qed.

(** When every delete succeeds and a batch call deletes its whole batch,
    the bulk phase deletes every message it was given. *)
Lemma bulkPhase_all (chan : nat) (fuel : nat) :
  (forall t m, env_delete env t m = None) ->
  (forall t c batch, env_bulkDelete env t c batch = inr (List.length batch)) ->
  forall (rest : list Msg) (deleted : nat) (st : RunState),
    (List.length rest <= fuel)%nat ->
    fst (bulkPhase env fuel chan rest deleted st)
    = Ok (deleted + List.length rest)%nat.
Proof.
  intros Hdel Hbulk.
  induction fuel as [| fuel IH]; intros rest deleted st Hle.
  - destruct rest; [| cbn in Hle; lia]. cbn. now rewrite Nat.add_0_r.
  - cbn [bulkPhase].
    pose proof (firstn_skipn 100 rest) as Hsplit.
    destruct (firstn 100 rest) as [| m [| m2 batch]] eqn:Hb.
    + destruct rest as [| x rest]; [| discriminate Hb]. cbn. now rewrite Nat.add_0_r.
    + pose proof (firstn_nonempty _ _ _ _ Hb) as Hlt.
      rewrite Hdel. rewrite IH by lia.
      rewrite <- Hsplit at 2. rewrite length_app. cbn [List.length]. f_equal. lia.
    + pose proof (firstn_nonempty _ _ _ _ Hb) as Hlt.
      rewrite Hbulk. rewrite IH by lia.
      rewrite <- Hsplit at 2. rewrite length_app. f_equal. lia.
Qed.

(** *** The loop over old messages *)

Lemma oldPhase_trace (catName chanName : string) (oldToDelete : list Msg) :
  forall (deleted : nat) (st st' : RunState) (deleted' : nat),
    oldPhase env catName chanName oldToDelete deleted st = (deleted', st') ->
    exists new lines,
      evolves env st st' new lines
      /\ forallb is_old_call new = true
      /\ existsb fetch_or_bulk_failure new = false
      /\ (old_deletes new <= List.length oldToDelete)%nat
      /\ forallb is_delete_warning lines = true
      /\ List.length lines = List.length (filter old_delete_failure new)
      /\ (deleted' + List.length lines = deleted + old_deletes new)%nat.
Proof.
  induction oldToDelete as [| msg rest IH]; intros deleted st st' deleted' Hrun.
  - cbn [oldPhase] in Hrun. inversion Hrun; subst.
    exists [], []. split; [apply evolves_refl |]. cbn. repeat split; auto; lia.
  - cbn [oldPhase] in Hrun.
    destruct (cleanupCancelled st).
    + inversion Hrun; subst.
      exists [], []. split; [apply evolves_refl |]. cbn. repeat split; auto; lia.
    + set (answer := env_delete env (tick st) msg) in *.
      pose proof (evolves_await env (CDeleteOld msg answer) st) as Hstep.
      destruct answer as [err |] eqn:Hans.
      * pose proof (evolves_log env WARN
                      (MDeleteFailed catName chanName (msg_id msg) err)
                      (await env (CDeleteOld msg (Some err)) st)) as Hlog.
        pose proof (evolves_await env (CSleep 1200)
                      (log WARN (MDeleteFailed catName chanName (msg_id msg) err)
                         (await env (CDeleteOld msg (Some err)) st))) as Hsleep.
        apply IH in Hrun.
        destruct Hrun as (new & lines & Hev & Hall & Hfat & Hcount & Hwarn & Hlen & Hdel).
        pose proof (evolves_trans _ _ _ _ _ _ _ _
                      (evolves_trans _ _ _ _ _ _ _ _
                         (evolves_trans _ _ _ _ _ _ _ _ Hstep Hlog) Hsleep) Hev)
          as Hall_ev.
        eexists. eexists. split; [exact Hall_ev |].
        cbn [app forallb existsb is_old_call fetch_or_bulk_failure orb andb].
        split; [exact Hall |]. split; [exact Hfat |].
        unfold old_deletes in *.
        cbn [filter is_old_delete old_delete_failure List.length].
        split; [lia |]. split; [exact Hwarn |].
        split; lia.
      * pose proof (evolves_await env (CSleep 1200)
                      (await env (CDeleteOld msg None) st)) as Hsleep.
        apply IH in Hrun.
        destruct Hrun as (new & lines & Hev & Hall & Hfat & Hcount & Hwarn & Hlen & Hdel).
        pose proof (evolves_trans _ _ _ _ _ _ _ _
                      (evolves_trans _ _ _ _ _ _ _ _ Hstep Hsleep) Hev) as Hall_ev.
        eexists. eexists. split; [exact Hall_ev |].
        cbn [app forallb existsb is_old_call fetch_or_bulk_failure orb andb].
        split; [exact Hall |]. split; [exact Hfat |].
        unfold old_deletes in *.
        cbn [filter is_old_delete old_delete_failure List.length].
        split; [lia |]. split; [exact Hwarn |].
        split; lia.
Qed.

End Phases.

Section Channel.

Variable env : Env.
Variable config : Config.

Lemma extends_of_evolves (st st' : RunState) (new : list Call) (lines : list logrec) :
  evolves env st st' new lines -> extends env st st' new lines.
Proof.
  unfold evolves, extends. intros (Hc & Ho & Ht & _ & _ & _ & _ & Hk).
  now repeat split.
Qed.

Lemma extends_trans (st1 st2 st3 : RunState) (n1 n2 : list Call)
    (l1 l2 : list logrec) :
  extends env st1 st2 n1 l1 -> extends env st2 st3 n2 l2 ->
  extends env st1 st3 (n1 ++ n2) (l1 ++ l2).
Proof.
  unfold extends. intros (Hc1 & Ho1 & Ht1 & Hk1) (Hc2 & Ho2 & Ht2 & Hk2).
  rewrite Hc2, Hc1, Ho2, Ho1, Ht2, Ht1, !app_assoc, length_app.
  repeat split; try reflexivity; try lia.
  intros Hno. rewrite (Hk2 Hno). exact (Hk1 Hno).
Qed.

Lemma extends_add_purged (n : nat) (st : RunState) :
  extends env st (add_purged n st) [] [].
Proof.
  unfold extends, add_purged. simpl. rewrite !app_nil_r, Nat.add_0_r.
  now repeat split.
Qed.

Lemma extends_add_error (st : RunState) :
  extends env st (add_error st) [] [].
Proof.
  unfold extends, add_error. simpl. rewrite !app_nil_r, Nat.add_0_r.
  now repeat split.
Qed.

(** Without failures and without cancellation the loop over old messages
    deletes all it is given. *)
Lemma oldPhase_all (catName chanName : string) (oldToDelete : list Msg) :
  (forall t m, env_delete env t m = None) ->
  (forall t, env_cancel env t = false) ->
  forall (deleted : nat) (st : RunState),
    cleanupCancelled st = false ->
    fst (oldPhase env catName chanName oldToDelete deleted st)
    = (deleted + List.length oldToDelete)%nat.
Proof.
  intros Hdel Hno.
  induction oldToDelete as [| msg rest IH]; intros deleted st Hst.
  - cbn. now rewrite Nat.add_0_r.
  - cbn [oldPhase]. rewrite Hst, Hdel.
    rewrite IH.
    + cbn [List.length]. lia.
    + cbn. rewrite Hst, !Hno. reflexivity.
Qed.

Lemma scanChannel_trace (deleteOld : bool) (channel : TextChannel)
    (retention : value) (st st' : RunState)
    (r : outcome (list Msg * list Msg * nat)) :
  scanChannel env config deleteOld channel retention st = (r, st') ->
  exists new,
    evolves env st st' new []
    /\ forallb is_fetch new = true
    /\ match r with
       | Ok (acc', _) =>
           acc' = fold_left
                    (classify (skipPinned (discord config)) deleteOld
                       (cutoff_of (env_now env (tick st)) retention)
                       (bulkDeleteLimit_of (env_now env (tick st))))
                    (fetched_in new) ([], [])
           /\ existsb fetch_or_bulk_failure new = false
       | Throw _ => existsb fetch_or_bulk_failure new = true
       end.
Proof. unfold scanChannel. apply fetchLoop_trace. Qed.

Lemma filter_all {A : Type} (f : A -> bool) (l : list A) :
  forallb f l = true -> filter f l = l.
Proof.
  induction l as [| x l IH]; simpl; [reflexivity |].
  intros H. apply andb_true_iff in H. destruct H as [Hx Hl].
  now rewrite Hx, (IH Hl).
Qed.

Lemma delete_warnings_no_error (lines : list logrec) :
  forallb is_delete_warning lines = true -> existsb is_error_line lines = false.
Proof.
  induction lines as [| [l m] rest IH]; simpl; [reflexivity |].
  intros H. apply andb_true_iff in H. destruct H as [Hx Hl].
  rewrite (IH Hl). destruct l; try discriminate Hx; reflexivity.
Qed.

Lemma fetches_are_not_deletes (new : list Call) :
  forallb is_fetch new = true ->
  existsb is_delete new = false /\ old_deletes new = O
  /\ filter old_delete_failure new = [].
Proof.
  unfold old_deletes.
  induction new as [| c rest IH]; simpl; [auto |].
  destruct c; simpl; try discriminate; exact IH.
Qed.

Lemma bulk_calls_are_not_old (new : list Call) :
  forallb is_bulk_call new = true ->
  old_deletes new = O /\ filter old_delete_failure new = [].
Proof.
  unfold old_deletes.
  induction new as [| c rest IH]; simpl; [auto |].
  destruct c; simpl; try discriminate; exact IH.
Qed.

End Channel.

Section ChannelCases.

Variable env : Env.
Variable config : Config.

(** What processing a channel does to the state, by cases: the channel
    failed (a fetch or a bulk-phase delete threw), or it was done. *)
Lemma processChannel_cases (dry : bool) (catName : string) (deleteOld : bool)
    (channel : TextChannel) (retention : value) (source : string)
    (st st' : RunState) (r : ChannelResult) :
  let maxOld := maxOldDeletesPerChannel (discord config) in
  processChannel env config dry catName deleteOld channel retention source st
  = (r, st') ->
  exists new lines,
    extends env st st' new lines
    /\ totalProcessed st' = totalProcessed st
    /\ totalSkipped st' = totalSkipped st
    /\ (old_deletes new <= maxOld)%nat
    /\ List.length (filter is_delete_warning lines)
       = List.length (filter old_delete_failure new)
    /\ ((exists err,
            r = CRError (tc_name channel) retention source err
            /\ existsb fetch_or_bulk_failure new = true
            /\ totalErrors st' = S (totalErrors st)
            /\ totalPurged st' = totalPurged st
            /\ In (ERROR, MChannelError catName (tc_name channel) err) lines)
        \/ (exists bulk old fetched st1 purged,
              scanChannel env config deleteOld channel retention st
              = (Ok (bulk, old, fetched), st1)
              /\ r = CRDone (tc_name channel) retention source purged
              /\ existsb fetch_or_bulk_failure new = false
              /\ totalErrors st' = totalErrors st
              /\ totalPurged st' = (totalPurged st + purged)%nat
              /\ existsb is_error_line lines = false
              /\ (dry = true ->
                    purged = cappedTotal config bulk old
                    /\ existsb is_delete new = false)
              /\ (dry = false ->
                    ((maxOld < List.length old)%nat ->
                       In (WARN, MOldRemain catName (tc_name channel)
                                   (List.length old - maxOld) maxOld) lines)
                    /\ (cooperative env -> cleanupCancelled st = false ->
                          purged = cappedTotal config bulk old)))).
Proof.
  intros maxOld. unfold processChannel. fold maxOld.
  destruct (scanChannel env config deleteOld channel retention st)
    as [rs st1] eqn:Hscan.
  destruct (scanChannel_trace env config _ _ _ _ _ _ Hscan)
    as (newF & HevF & HallF & HresF).
  destruct (fetches_are_not_deletes newF HallF) as (HF1 & HF2 & HF3).
  pose proof (extends_of_evolves env _ _ _ _ HevF) as HexF.
  destruct HevF as (_ & _ & _ & Hp & Hu & Hs & He & Hk).
  destruct rs as [[[bulk old] fetched] | err].
  - destruct HresF as [_ Hok].
    destruct (List.length bulk + List.length old =? 0)%nat eqn:Hzero.
    + (* nothing to delete *)
      intros Heq. inversion Heq; subst r st'. clear Heq.
      apply Nat.eqb_eq in Hzero.
      exists newF, [(INFO, MNothingToDelete catName (tc_name channel) fetched)].
      split.
      { pose proof (extends_trans env _ _ _ _ _ _ _ HexF
                      (extends_of_evolves env _ _ _ _
                         (evolves_log env INFO
                            (MNothingToDelete catName (tc_name channel) fetched) st1)))
          as H.
        now rewrite app_nil_r in H. }
      cbn [log totalProcessed totalSkipped totalErrors totalPurged].
      split; [exact Hp |]. split; [exact Hs |]. split; [lia |].
      split; [now rewrite HF3 |].
      right. exists bulk, old, fetched, st1.
      exists (if dry then (List.length bulk + Nat.min (List.length old) maxOld)%nat else O).
      split; [reflexivity |]. split; [reflexivity |]. split; [exact Hok |].
      split; [exact He |].
      assert (Hmin : (List.length bulk + Nat.min (List.length old) maxOld = 0)%nat) by lia.
      split; [destruct dry; lia |]. split; [reflexivity |].
      split.
      * intros ->. split; [reflexivity | exact HF1].
      * intros ->. split; [lia |]. intros _ _. unfold cappedTotal. fold maxOld. lia.
    + destruct dry.
      * (* dry run *)
        intros Heq. inversion Heq; subst r st'. clear Heq.
        match goal with
        | |- context [log INFO ?m st1] => set (line := m)
        end.
        match goal with
        | |- context [add_purged ?n _] => set (k := n)
        end.
        exists newF, [(INFO, line)].
        split.
        { pose proof (extends_trans env _ _ _ _ _ _ _
                        (extends_trans env _ _ _ _ _ _ _ HexF
                           (extends_of_evolves env _ _ _ _
                              (evolves_log env INFO line st1)))
                        (extends_add_purged env k (log INFO line st1))) as H.
          rewrite !app_nil_r in H. exact H. }
        subst k.
        cbn [log add_purged totalProcessed totalSkipped totalErrors totalPurged].
        split; [exact Hp |]. split; [exact Hs |]. split; [lia |].
        split; [now rewrite HF3 |].
        right. exists bulk, old, fetched, st1.
        exists (List.length bulk + Nat.min (List.length old) maxOld)%nat.
        split; [reflexivity |]. split; [reflexivity |]. split; [exact Hok |].
        split; [exact He |].
        split; [rewrite length_firstn; lia |]. split; [reflexivity |].
        split; [intros _; split; [reflexivity | exact HF1] | discriminate].
      * (* live run *)
        destruct (bulkPhase env (List.length bulk) (tc_id channel) bulk 0 st1)
          as [rb st2] eqn:Hbulk.
        destruct (bulkPhase_trace env _ _ _ _ _ _ _ Hbulk)
          as (newB & HevB & HallB & HresB).
        destruct (bulk_calls_are_not_old newB HallB) as (HB1 & HB2).
        pose proof (extends_of_evolves env _ _ _ _ HevB) as HexB.
        destruct HevB as (_ & _ & _ & Hp2 & Hu2 & Hs2 & He2 & Hk2).
        destruct rb as [deleted1 | err].
        -- destruct (oldPhase env catName (tc_name channel) (firstn maxOld old)
                       deleted1 st2) as [deleted st3] eqn:Hold.
           destruct (oldPhase_trace env _ _ _ _ _ _ _ Hold)
             as (newO & linesO & HevO & HallO & HfatO & HcountO & HwarnO & HlenO & HdelO).
           pose proof (extends_of_evolves env _ _ _ _ HevO) as HexO.
           destruct HevO as (_ & _ & _ & Hp3 & Hu3 & Hs3 & He3 & Hk3).
           intros Heq. inversion Heq; subst r st'. clear Heq.
           set (remain := (if (maxOld <? List.length old)%nat
                           then [(WARN, MOldRemain catName (tc_name channel)
                                          (List.length old - maxOld) maxOld)]
                           else []) : list logrec).
           set (st4 := if (maxOld <? List.length old)%nat
                       then log WARN (MOldRemain catName (tc_name channel)
                                        (List.length old - maxOld) maxOld) st3
                       else st3).
           assert (Hex4 : evolves env st3 st4 [] remain).
           { subst st4 remain. destruct (maxOld <? List.length old)%nat;
               [apply evolves_log | apply evolves_refl]. }
           pose proof (extends_of_evolves env _ _ _ _ Hex4) as HexR.
           destruct Hex4 as (_ & _ & _ & Hp4 & Hu4 & Hs4 & He4 & Hk4).
           assert (Hrem1 : filter is_delete_warning remain = [])
             by (subst remain; now destruct (maxOld <? List.length old)%nat).
           assert (Hrem2 : existsb is_error_line remain = false)
             by (subst remain; now destruct (maxOld <? List.length old)%nat).
           assert (Hrem3 : (maxOld < List.length old)%nat ->
                           In (WARN, MOldRemain catName (tc_name channel)
                                       (List.length old - maxOld) maxOld) remain).
           { intros Hmore. subst remain. apply Nat.ltb_lt in Hmore.
             rewrite Hmore. now left. }
           clearbody remain st4.
           exists (newF ++ newB ++ newO),
             (linesO ++ remain ++ [(INFO, MDeleted catName (tc_name channel) deleted)]).
           split.
           { pose proof (extends_trans env _ _ _ _ _ _ _ HexF
                           (extends_trans env _ _ _ _ _ _ _ HexB
                              (extends_trans env _ _ _ _ _ _ _ HexO
                                 (extends_trans env _ _ _ _ _ _ _ HexR
                                    (extends_trans env _ _ _ _ _ _ _
                                       (extends_of_evolves env _ _ _ _
                                          (evolves_log env INFO
                                             (MDeleted catName (tc_name channel) deleted)
                                             st4))
                                       (extends_add_purged env deleted _)))))) as H.
             rewrite !app_nil_r in H. cbn [app] in H. exact H. }
           cbn [log add_purged totalProcessed totalSkipped totalErrors totalPurged].
           split; [congruence |]. split; [congruence |].
           split.
           { rewrite !old_deletes_app, HF2, HB1. rewrite length_firstn in HcountO. lia. }
           split.
           { rewrite !filter_app, !length_app, HF3, HB2. rewrite Hrem1.
             rewrite (filter_all _ _ HwarnO), <- HlenO.
             cbn [List.length filter is_delete_warning]. lia. }
           right. exists bulk, old, fetched, st1, deleted.
           split; [reflexivity |]. split; [reflexivity |].
           split.
           { rewrite !existsb_app, Hok, HresB, HfatO. reflexivity. }
           split; [congruence |]. split; [congruence |].
           split.
           { rewrite !existsb_app, Hrem2, (delete_warnings_no_error _ HwarnO).
             reflexivity. }
           split; [discriminate |].
           intros _. split.
           ++ intros Hmore. apply in_or_app. right. apply in_or_app. left.
              exact (Hrem3 Hmore).
           ++ intros (Hdel & Hbd & Hno) Hst.
              pose proof (bulkPhase_all env (tc_id channel) (List.length bulk)
                            Hdel Hbd bulk 0%nat st1 (Nat.le_refl _)) as Hb.
              rewrite Hbulk in Hb. cbn [fst] in Hb. rewrite Nat.add_0_l in Hb.
              inversion Hb; subst deleted1.
              pose proof (oldPhase_all env catName (tc_name channel)
                            (firstn maxOld old) Hdel Hno (List.length bulk) st2)
                as Ho.
              rewrite Hold in Ho. cbn [fst] in Ho.
              rewrite Ho.
              ** unfold cappedTotal. fold maxOld. rewrite length_firstn. lia.
              ** rewrite (Hk2 Hno), (Hk Hno). exact Hst.
        -- (* a delete of the bulk phase threw *)
           intros Heq. unfold channelFailed in Heq. inversion Heq; subst r st'. clear Heq.
           exists (newF ++ newB), [(ERROR, MChannelError catName (tc_name channel) err)].
           split.
           { pose proof (extends_trans env _ _ _ _ _ _ _ HexF
                           (extends_trans env _ _ _ _ _ _ _ HexB
                              (extends_trans env _ _ _ _ _ _ _
                                 (extends_of_evolves env _ _ _ _
                                    (evolves_log env ERROR
                                       (MChannelError catName (tc_name channel) err) st2))
                                 (extends_add_error env _)))) as H.
             rewrite !app_nil_r in H. cbn [app] in H. exact H. }
           cbn [log add_error totalProcessed totalSkipped totalErrors totalPurged].
           split; [congruence |]. split; [congruence |].
           split; [rewrite old_deletes_app, HF2, HB1; lia |].
           split; [rewrite filter_app, HF3, HB2; reflexivity |].
           left. exists err. split; [reflexivity |].
           split; [rewrite existsb_app, HresB; apply orb_true_r |].
           split; [congruence |]. split; [congruence |]. now left.
  - (* a fetch threw *)
    intros Heq. unfold channelFailed in Heq. inversion Heq; subst r st'. clear Heq.
    exists newF, [(ERROR, MChannelError catName (tc_name channel) err)].
    split.
    { pose proof (extends_trans env _ _ _ _ _ _ _ HexF
                    (extends_trans env _ _ _ _ _ _ _
                       (extends_of_evolves env _ _ _ _
                          (evolves_log env ERROR
                             (MChannelError catName (tc_name channel) err) st1))
                       (extends_add_error env _))) as H.
      rewrite !app_nil_r in H. cbn [app] in H. exact H. }
    cbn [log add_error totalProcessed totalSkipped totalErrors totalPurged].
    split; [exact Hp |]. split; [exact Hs |].
    split; [lia |]. split; [now rewrite HF3 |].
    left. exists err. split; [reflexivity |]. split; [exact HresF |].
    split; [congruence |]. split; [exact Hu |]. now left.
Qed.

End ChannelCases.

(** ** The split at 14 days *)

Section Split.

Variable env : Env.
Variable config : Config.

Lemma bulk_side (now : Z) (m : Msg) :
  (createdAt m >? bulkDeleteLimit_of now) = true <-> age now m < 14 * day_ms.
Proof.
  unfold bulkDeleteLimit_of, age. rewrite Z.gtb_ltb, Z.ltb_lt. lia.
Qed.

(** C4, as amended.  Among the messages fetched from a channel, an
    eligible one (not held back as pinned, older than the retention
    cutoff) is put in the bulk set, and not in the other, exactly when it
    is less than 14 days old.  One that is 14 days old or more, the
    boundary included, is never in the bulk set; it is in the individual
    set when the category's [deleteOld] is not false, and in neither set
    when it is false.  Both sets hold eligible fetched messages only, and
    with [deleteOld] on they hold as many messages as there are eligible
    ones. *)
Theorem bulk_old_split (deleteOld : bool) (channel : TextChannel)
    (retention : value) (st st1 : RunState) (bulk old : list Msg) (fetched : nat) :
  scanChannel env config deleteOld channel retention st
  = (Ok (bulk, old, fetched), st1) ->
  let now := env_now env (tick st) in
  let cutoff := cutoff_of now retention in
  let skip := skipPinned (discord config) in
  exists new,
    calls st1 = calls st ++ new
    /\ (forall m, In m (fetched_in new) -> eligible skip cutoff m = true ->
          (age now m < 14 * day_ms -> In m bulk /\ ~ In m old)
          /\ (14 * day_ms <= age now m ->
                ~ In m bulk
                /\ (deleteOld = true -> In m old)
                /\ (deleteOld = false -> ~ In m old)))
    /\ (forall m, In m bulk \/ In m old ->
          In m (fetched_in new) /\ eligible skip cutoff m = true)
    /\ (deleteOld = true ->
          (List.length bulk + List.length old)%nat
          = List.length (filter (eligible skip cutoff) (fetched_in new))).
Proof.
  intros Hscan now cutoff skip.
  destruct (scanChannel_trace env config _ _ _ _ _ _ Hscan)
    as (new & Hev & _ & Hacc & _).
  fold now cutoff skip in Hacc.
  rewrite classify_fold in Hacc. cbn [app] in Hacc.
  inversion Hacc as [[Hbulk Hold]]. clear Hacc.
  exists new. split; [apply Hev |].
  split; [| split].
  - intros m Hin Hel. split.
    + intros Hage. apply bulk_side in Hage. split.
      * apply filter_In. split; [exact Hin |]. now rewrite Hel, Hage.
      * intros Hm. apply filter_In in Hm. destruct Hm as [_ Hm].
        rewrite Hage in Hm. rewrite andb_false_r in Hm. discriminate Hm.
    + intros Hage.
      assert (Hside : (createdAt m >? bulkDeleteLimit_of now) = false).
      { destruct (createdAt m >? bulkDeleteLimit_of now) eqn:Hgt; [| reflexivity].
        apply bulk_side in Hgt. lia. }
      split; [| split].
      * intros Hm. apply filter_In in Hm. destruct Hm as [_ Hm].
        rewrite Hside, andb_false_r in Hm. discriminate Hm.
      * intros ->. apply filter_In. split; [exact Hin |].
        now rewrite Hel, Hside.
      * intros -> Hm. apply filter_In in Hm. destruct Hm as [_ Hm].
        rewrite andb_false_r in Hm. discriminate Hm.
  - intros m [Hm | Hm]; apply filter_In in Hm; destruct Hm as [Hin Hm];
      (split; [exact Hin |]).
    + apply andb_true_iff in Hm. apply Hm.
    + apply andb_true_iff in Hm. destruct Hm as [Hm _].
      apply andb_true_iff in Hm. apply Hm.
  - intros ->. subst bulk old. clear Hscan Hev.
    induction (fetched_in new) as [| m rest IH]; [reflexivity |].
    cbn [filter].
    destruct (eligible skip cutoff m); cbn [andb]; [| exact IH].
    destruct (createdAt m >? bulkDeleteLimit_of now); cbn [negb andb List.length];
      lia.
Qed.

End Split.

Lemma bulk_old_split_witness :
  In Samples.boundary_message [Samples.boundary_message; Samples.old_message]
  /\ ~ In Samples.boundary_message [Samples.recent_message].
Proof.
  destruct (bulk_old_split (Samples.store Samples.three []) Samples.config_ok true
              Samples.general (VInt 7) initialRunState
              (snd (scanChannel (Samples.store Samples.three []) Samples.config_ok true
                      Samples.general (VInt 7) initialRunState))
              [Samples.recent_message]
              [Samples.boundary_message; Samples.old_message] 3%nat eq_refl)
    as (new & Hcalls & Hsplit & _).
  cbn [calls initialRunState app] in Hcalls. subst new.
  assert (Hin : In Samples.boundary_message
                  (fetched_in
                     (calls (snd (scanChannel (Samples.store Samples.three [])
                                    Samples.config_ok true Samples.general (VInt 7)
                                    initialRunState))))).
  { vm_compute. right. left. reflexivity. }
  destruct (Hsplit Samples.boundary_message Hin eq_refl) as [_ Hold].
  assert (Hage : 14 * day_ms <= age (env_now (Samples.store Samples.three [])
                                      (tick initialRunState))
                                  Samples.boundary_message).
  { vm_compute. discriminate. }
  destruct (Hold Hage) as (Hnot & Hyes & _).
  split; [exact (Hyes eq_refl) | exact Hnot].
Defined.

(** C4, as stated, fails: with [deleteOld: false] on the category, a message
    20 days old is fetched and eligible under a retention of 7 days, and
    lands in neither set. *)
Lemma bulk_old_split_counterexample :
  fst (scanChannel (Samples.store [Samples.old_message] []) Samples.config_ok false
         Samples.general (VInt 7) initialRunState)
  = Ok ([], [], 1%nat)
  /\ fetched_in
       (calls (snd (scanChannel (Samples.store [Samples.old_message] [])
                      Samples.config_ok false Samples.general (VInt 7)
                      initialRunState)))
     = [Samples.old_message]
  /\ ~ splits_every_eligible true (cutoff_of Samples.now0 (VInt 7))
        [Samples.old_message] [] [].
Proof.
  split; [reflexivity |]. split; [reflexivity |].
  intros H.
  destruct (H Samples.old_message (or_introl eq_refl) eq_refl) as [[Hin _] | [Hin _]];
    exact Hin.
Qed.

(** ** The cap on individual deletes, dry runs and failures *)

Section Caps.

Variable env : Env.
Variable config : Config.

(** C5, as amended.  Whatever the store answers, processing a channel
    performs at most [maxOldDeletesPerChannel] individual deletes of old
    messages (those of 14 days or more, deleted one by one after the bulk
    phase; the single delete that stands for a batch of one message in the
    bulk phase is not one of them).  In a live run in which the channel did
    not fail, when more old messages were found than the cap allows, the
    excess is logged as remaining, with its exact count. *)
Theorem old_deletes_capped (dry : bool) (catName : string) (deleteOld : bool)
    (channel : TextChannel) (retention : value) (source : string) (st : RunState) :
  let result := processChannel env config dry catName deleteOld channel
                  retention source st in
  let maxOld := maxOldDeletesPerChannel (discord config) in
  exists new lines,
    calls (snd result) = calls st ++ new
    /\ out (snd result) = out st ++ lines
    /\ (old_deletes new <= maxOld)%nat
    /\ (dry = false -> is_error (fst result) = false ->
        forall bulk old fetched st1,
          scanChannel env config deleteOld channel retention st
          = (Ok (bulk, old, fetched), st1) ->
          (maxOld < List.length old)%nat ->
          In (WARN, MOldRemain catName (tc_name channel)
                      (List.length old - maxOld) maxOld) lines).
Proof.
  intros result maxOld.
  destruct result as [r st'] eqn:Hres. subst result.
  destruct (processChannel_cases env config _ _ _ _ _ _ _ _ _ Hres)
    as (new & lines & Hext & _ & _ & Hcap & _ & Hcases).
  exists new, lines. cbn [fst snd].
  split; [apply Hext |]. split; [apply Hext |]. split; [exact Hcap |].
  intros Hlive Hok bulk old fetched st1 Hscan Hmore.
  destruct Hcases as [(err & -> & _) | (bulk' & old' & fetched' & st1' & purged
                                        & Hscan' & _ & _ & _ & _ & _ & _ & Hl)].
  - discriminate Hok.
  - rewrite Hscan in Hscan'. inversion Hscan'; subst bulk' old' fetched' st1'.
    destruct (Hl Hlive) as [Hremain _]. exact (Hremain Hmore).
Qed.

(** What a dry run and a live run over the same mix report. *)
Lemma dry_and_live_reports (env_live : Env) (catName : string) (deleteOld : bool)
    (channel : TextChannel) (retention : value) (source : string)
    (st_dry st_live s1 s2 : RunState) (bulk old : list Msg) (n1 n2 : nat) :
  scanChannel env config deleteOld channel retention st_dry
  = (Ok (bulk, old, n1), s1) ->
  scanChannel env_live config deleteOld channel retention st_live
  = (Ok (bulk, old, n2), s2) ->
  cooperative env_live -> cleanupCancelled st_live = false ->
  let dry := processChannel env config true catName deleteOld channel
               retention source st_dry in
  let live := processChannel env_live config false catName deleteOld channel
                retention source st_live in
  let maxOld := maxOldDeletesPerChannel (discord config) in
  let count := (List.length bulk + Nat.min (List.length old) maxOld)%nat in
  fst dry = CRDone (tc_name channel) retention source count
  /\ totalPurged (snd dry) = (totalPurged st_dry + count)%nat
  /\ (exists new, calls (snd dry) = calls st_dry ++ new
                  /\ existsb is_delete new = false)
  /\ ((0 < List.length bulk + List.length old)%nat ->
      exists remaining,
        In (INFO, MDryRun catName (tc_name channel) count (List.length bulk)
                    (Nat.min (List.length old) maxOld) remaining (negb deleteOld))
          (out (snd dry)))
  /\ fst live = CRDone (tc_name channel) retention source count
  /\ totalPurged (snd live) = (totalPurged st_live + count)%nat.
Proof.
  intros Hdry Hlive Hcoop Hst dry live maxOld count.
  destruct dry as [rd sd] eqn:Hd. subst dry.
  destruct live as [rl sl] eqn:Hl. subst live.
  cbn [fst snd].
  destruct (processChannel_cases env config _ _ _ _ _ _ _ _ _ Hd)
    as (newd & linesd & Hextd & _ & _ & _ & _ & Hcd).
  destruct (processChannel_cases env_live config _ _ _ _ _ _ _ _ _ Hl)
    as (newl & linesl & Hextl & _ & _ & _ & _ & Hcl).
  destruct Hcd as [(err & Hrd & _) | (b & o & f & t & purged & Hscan & Hr & Hnofail
                                      & _ & Hpur & _ & Hdry' & _)].
  { exfalso.
    unfold processChannel in Hd. rewrite Hdry in Hd.
    destruct (List.length bulk + List.length old =? 0)%nat;
      injection Hd as Hr1 _; rewrite Hrd in Hr1; discriminate Hr1. }
  rewrite Hdry in Hscan. inversion Hscan; subst b o f t. clear Hscan.
  destruct (Hdry' eq_refl) as [Hp Hnodel]. unfold cappedTotal in Hp.
  fold maxOld in Hp. fold count in Hp. subst purged.
  split; [exact Hr |]. split; [exact Hpur |].
  split; [exists newd; split; [apply Hextd | exact Hnodel] |].
  split.
  { intros Hsome.
    unfold processChannel in Hd. rewrite Hdry in Hd.
    destruct (Nat.eqb_spec (List.length bulk + List.length old) 0) as [Hz | Hnz];
      [lia |].
    inversion Hd; subst rd sd. eexists.
    cbn [add_purged log out]. apply in_or_app. right. left.
    fold maxOld. rewrite length_firstn.
    unfold count. rewrite (Nat.min_comm maxOld). reflexivity. }
  destruct Hcl as [(err & Hr' & Hfail & _) | (b & o & f & t & purged & Hscan & Hr' & _
                                             & _ & Hpur' & _ & _ & Hlive')].
  { exfalso.
    destruct Hcoop as (Hdel & Hbd & Hno).
    unfold processChannel in Hl. rewrite Hlive in Hl.
    destruct (List.length bulk + List.length old =? 0)%nat;
      [injection Hl as Hr1 _; rewrite Hr' in Hr1; discriminate Hr1 |].
    pose proof (bulkPhase_all env_live (tc_id channel) (List.length bulk)
                  Hdel Hbd bulk 0%nat s2 (Nat.le_refl _)) as Hb.
    destruct (bulkPhase env_live (List.length bulk) (tc_id channel) bulk 0 s2)
      as [[d | e] s3]; [| discriminate Hb].
    destruct (oldPhase env_live catName (tc_name channel)
                (firstn (maxOldDeletesPerChannel (discord config)) old) d s3).
    injection Hl as Hr1 _. rewrite Hr' in Hr1. discriminate Hr1. }
  rewrite Hlive in Hscan. inversion Hscan; subst b o f t. clear Hscan.
  destruct (Hlive' eq_refl) as [_ Hall].
  specialize (Hall Hcoop Hst). unfold cappedTotal in Hall.
  fold maxOld in Hall. fold count in Hall. subst purged.
  split; [exact Hr' | exact Hpur'].
Qed.

End Caps.

Lemma old_deletes_capped_witness :
  (old_deletes
     (calls (snd (processChannel (Samples.store Samples.mix []) Samples.config_ok false
                    "logs" true Samples.general (VInt 7) "category" initialRunState)))
   <= 20)%nat
  /\ In (WARN, MOldRemain "logs" "general" 10 20)
       (out (snd (processChannel (Samples.store Samples.mix []) Samples.config_ok false
                    "logs" true Samples.general (VInt 7) "category" initialRunState))).
Proof.
  destruct (old_deletes_capped (Samples.store Samples.mix []) Samples.config_ok false
              "logs" true Samples.general (VInt 7) "category" initialRunState)
    as (new & lines & Hcalls & Hout & Hcap & Hremain).
  rewrite Hcalls, Hout. cbn [calls out initialRunState app].
  split; [exact Hcap |].
  assert (Hscan :
            scanChannel (Samples.store Samples.mix []) Samples.config_ok true
              Samples.general (VInt 7) initialRunState
            = (Ok (Samples.messages 90 1000 (8 * Samples.day),
                   Samples.messages 30 2000 (20 * Samples.day), 120%nat),
               snd (scanChannel (Samples.store Samples.mix []) Samples.config_ok true
                      Samples.general (VInt 7) initialRunState))).
  { vm_compute. reflexivity. }
  assert (Hmore : (maxOldDeletesPerChannel (discord Samples.config_ok)
                   < List.length (Samples.messages 30 2000 (20 * Samples.day)))%nat).
  { apply Nat.ltb_lt. vm_compute. reflexivity. }
  assert (Hok : is_error
                  (fst (processChannel (Samples.store Samples.mix []) Samples.config_ok
                          false "logs" true Samples.general (VInt 7) "category"
                          initialRunState)) = false).
  { vm_compute. reflexivity. }
  exact (Hremain eq_refl Hok _ _ _ _ Hscan Hmore).
Defined.

Lemma cooperative_store (msgs : list Msg) : cooperative (Samples.store msgs []).
Proof. repeat split. Defined.

(** ** Failures in one channel *)

Section Isolation.

Variable env : Env.
Variable config : Config.
Variable effectiveDryRun : bool.
Variable channelFilter : option string.

Lemma processChannel_name (catName : string) (deleteOld : bool)
    (channel : TextChannel) (retention : value) (source : string) (st : RunState) :
  cr_name (fst (processChannel env config effectiveDryRun catName deleteOld channel
                  retention source st)) = tc_name channel.
Proof.
  destruct (processChannel env config effectiveDryRun catName deleteOld channel
              retention source st) as [r st'] eqn:Hres.
  destruct (processChannel_cases env config _ _ _ _ _ _ _ _ _ Hres)
    as (_ & _ & _ & _ & _ & _ & _ & [(err & -> & _) | (b & o & f & t & n & _ & -> & _)]);
    reflexivity.
Qed.

Lemma processChannel_not_cancelled (catName : string) (deleteOld : bool)
    (channel : TextChannel) (retention : value) (source : string) (st : RunState) :
  (forall t, env_cancel env t = false) ->
  cleanupCancelled (snd (processChannel env config effectiveDryRun catName deleteOld
                           channel retention source st))
  = cleanupCancelled st.
Proof.
  intros Hno.
  destruct (processChannel env config effectiveDryRun catName deleteOld channel
              retention source st) as [r st'] eqn:Hres.
  destruct (processChannel_cases env config _ _ _ _ _ _ _ _ _ Hres)
    as (new & lines & Hext & _).
  destruct Hext as (_ & _ & _ & Hk). exact (Hk Hno).
Qed.

(** While no cancellation is requested, the loop over the channels of a
    category gives every channel that is on the allow-list and passes the
    filter one entry in [channelResults], in order, whatever happened to
    the channels before it. *)
Lemma channelLoop_visits_all (catName : string) (deleteOld : bool)
    (allowed : list string) (allowedCount : nat) (channels : list TextChannel) :
  (forall t, env_cancel env t = false) ->
  forall (results : list ChannelResult) (catErrors : bool) (index : nat)
         (st : RunState),
    cleanupCancelled st = false ->
    map cr_name
      (fst (fst (channelLoop env config effectiveDryRun channelFilter catName
                   deleteOld allowed allowedCount channels results catErrors
                   index st)))
    = map cr_name results
      ++ map tc_name (filter (processed_channel allowed channelFilter) channels).
Proof.
  intros Hno.
  induction channels as [| channel rest IH]; intros results catErrors index st Hst.
  - cbn. now rewrite app_nil_r.
  - cbn [channelLoop filter]. rewrite Hst. unfold processed_channel at 1.
    destruct (has_name allowed (tc_name channel)); cbn [negb andb].
    2:{ apply IH. exact Hst. }
    destruct (filtered_out channelFilter (tc_name channel)); cbn [negb].
    { apply IH. exact Hst. }
    destruct (getRetention config catName (tc_name channel)) as [retention warnings].
    destruct (is_never retention).
    + rewrite IH by exact Hst.
      rewrite map_app. cbn [map cr_name]. now rewrite <- app_assoc.
    + pose proof (processChannel_name catName deleteOld channel retention
                    (getRetentionSource config catName (tc_name channel))
                    (logs warnings
                       (log INFO (MScanning catName (tc_name channel) (S index)
                                    allowedCount) (add_processed st)))) as Hname.
      pose proof (processChannel_not_cancelled catName deleteOld channel retention
                    (getRetentionSource config catName (tc_name channel))
                    (logs warnings
                       (log INFO (MScanning catName (tc_name channel) (S index)
                                    allowedCount) (add_processed st))) Hno) as Hkeep.
      destruct (processChannel env config effectiveDryRun catName deleteOld channel
                  retention (getRetentionSource config catName (tc_name channel))
                  (logs warnings
                     (log INFO (MScanning catName (tc_name channel) (S index)
                                  allowedCount) (add_processed st))))
        as [result st3].
      cbn [fst snd] in Hname, Hkeep.
      rewrite IH.
      * rewrite map_app. cbn [map]. rewrite Hname. now rewrite <- app_assoc.
      * cbn [await cleanupCancelled]. rewrite Hkeep, Hno, orb_false_r.
        exact Hst.
Qed.

End Isolation.

(** How a failure shows in the entry of a channel, and the entries of one
    category. *)
Lemma channel_failure_recorded (env : Env) (config : Config) (dry : bool)
    (channelFilter : option string) (catName : string) (deleteOld : bool)
    (channel : TextChannel) (retention : value) (source : string) (st : RunState)
    (allowed : list string) (allowedCount : nat) (channels : list TextChannel)
    (results : list ChannelResult) (catErrors : bool) (index : nat) :
  let result := processChannel env config dry catName deleteOld channel
                  retention source st in
  (exists new lines,
     calls (snd result) = calls st ++ new
     /\ out (snd result) = out st ++ lines
     /\ (existsb fetch_or_bulk_failure new = true ->
           (exists err,
              fst result = CRError (tc_name channel) retention source err
              /\ In (ERROR, MChannelError catName (tc_name channel) err) lines)
           /\ totalErrors (snd result) = S (totalErrors st))
     /\ (existsb fetch_or_bulk_failure new = false ->
           is_error (fst result) = false
           /\ totalErrors (snd result) = totalErrors st
           /\ existsb is_error_line lines = false
           /\ List.length (filter is_delete_warning lines)
              = List.length (filter old_delete_failure new)))
  /\ ((forall t, env_cancel env t = false) -> cleanupCancelled st = false ->
      map cr_name
        (fst (fst (channelLoop env config dry channelFilter catName deleteOld
                     allowed allowedCount channels results catErrors index st)))
      = map cr_name results
        ++ map tc_name (filter (processed_channel allowed channelFilter) channels)).
Proof.
  intros result. split.
  - destruct result as [r st'] eqn:Hres. subst result.
    destruct (processChannel_cases env config _ _ _ _ _ _ _ _ _ Hres)
      as (new & lines & Hext & _ & _ & _ & Hwarn & Hcases).
    exists new, lines. cbn [fst snd].
    split; [apply Hext |]. split; [apply Hext |].
    destruct Hcases as [(err & Hr & Hfail & Herr & _ & Hline)
                       | (b & o & f & t & n & _ & Hr & Hnone & Herr & _ & Hlines & _)].
    + split.
      * intros _. split; [| exact Herr]. exists err. now split.
      * intros Hnone. rewrite Hfail in Hnone. discriminate Hnone.
    + split.
      * intros Hfail. rewrite Hnone in Hfail. discriminate Hfail.
      * intros _. subst r. repeat split; assumption.
  - intros Hno Hst. now apply channelLoop_visits_all.
Qed.

(** C7, as stated, fails: the store refuses the individual delete of the one
    old message of the channel; the call threw, yet the channel's entry
    carries no error and the error counter of the run is still 0. *)
Lemma channel_failure_isolated_counterexample :
  processChannel (Samples.store [Samples.old_message] [5%nat]) Samples.config_ok false
    "logs" true Samples.general (VInt 7) "category" initialRunState
  = (CRDone "general" (VInt 7) "category" 0,
     snd (processChannel (Samples.store [Samples.old_message] [5%nat])
            Samples.config_ok false "logs" true Samples.general (VInt 7) "category"
            initialRunState))
  /\ ~ records_every_failure initialRunState
         (snd (processChannel (Samples.store [Samples.old_message] [5%nat])
                 Samples.config_ok false "logs" true Samples.general (VInt 7)
                 "category" initialRunState))
         (CRDone "general" (VInt 7) "category" 0).
Proof.
  split; [vm_compute; reflexivity |].
  intros H.
  destruct (H _ eq_refl) as [Herr _].
  - vm_compute. reflexivity.
  - discriminate Herr.
Qed.

(** ** The guild is not reachable *)




(** ** A run from end to end *)

(** The scenario of 120 eligible messages, 90 of them less than 14 days old,
    with a cap of 20: a live run purges 110 and warns that 10 old messages
    remain; a dry run reports the same 110, calls no delete, and does not
    touch the lifetime counters. *)
Example scheduled_run_scenario :
  let live := runCleanup Samples.scheduled Samples.guild_requests Samples.idle in
  let dry := runCleanup Samples.forced_dry Samples.guild_requests Samples.idle in
  map run_totalPurged (p_emitted (snd live)) = [110%nat]
  /\ map run_totalErrors (p_emitted (snd live)) = [0%nat]
  /\ In (WARN, MOldRemain "media" "requests" 10 20) (p_log (snd live))
  /\ old_deletes (p_calls (snd live)) = 20%nat
  /\ p_cleanupRunning (snd live) = false
  /\ map run_totalPurged (p_emitted (snd dry)) = [110%nat]
  /\ existsb is_delete (p_calls (snd dry)) = false
  /\ match p_statsFile (snd live), p_statsFile (snd dry) with
     | Some a, Some b =>
         List.length (history a) = 1%nat /\ List.length (history b) = 1%nat
         /\ option_map lt_totalPurged (lifetime a) = Some 110%nat
         /\ lifetime b = None
     | _, _ => False
     end.
Proof.
  vm_compute. repeat split.
  repeat first [left; reflexivity | right].
Qed.

(** ** Full sync *)

Section Objects.

Context {A : Type}.

Lemma obj_get_set (m : list (string * A)) (k s : string) (v : A) :
  obj_get (obj_set m k v) s = if String.eqb k s then Some v else obj_get m s.
Proof.
  induction m as [| [k' v'] rest IH]; cbn [obj_set obj_get].
  - reflexivity.
  - destruct (String.eqb_spec k' k) as [-> | Hne]; cbn [obj_get].
    + destruct (String.eqb k s); reflexivity.
    + rewrite IH. destruct (String.eqb_spec k' s) as [-> | Hne'].
      * destruct (String.eqb_spec k s) as [-> | _]; [contradiction | reflexivity].
      * reflexivity.
Qed.

Lemma obj_set_same (m : list (string * A)) (k : string) (v : A) :
  obj_get m k = Some v -> obj_set m k v = m.
Proof.
  induction m as [| [k' v'] rest IH]; cbn [obj_set obj_get]; [discriminate |].
  destruct (String.eqb k' k).
  - intros H. now inversion H.
  - intros H. now rewrite (IH H).
Qed.

Lemma obj_get_delete (m : list (string * A)) (k s : string) :
  obj_get (obj_delete m k) s = if String.eqb k s then None else obj_get m s.
Proof.
  induction m as [| [k' v'] rest IH]; cbn [obj_delete obj_get].
  - now destruct (String.eqb k s).
  - destruct (String.eqb_spec k' k) as [-> | Hne].
    + rewrite IH. now destruct (String.eqb k s).
    + cbn [obj_get]. rewrite IH.
      destruct (String.eqb_spec k' s) as [-> | Hne'].
      * destruct (String.eqb_spec k s) as [-> | _]; [contradiction | reflexivity].
      * reflexivity.
Qed.

Lemma obj_get_in_keys (m : list (string * A)) (s : string) :
  In s (map fst m) <-> obj_get m s <> None.
Proof.
  induction m as [| [k v] rest IH]; cbn [map fst In obj_get].
  - split; [contradiction | congruence].
  - destruct (String.eqb_spec k s) as [-> | Hne].
    + split; [discriminate | now left].
    + rewrite <- IH. split; [intros [H | H]; [contradiction | exact H] | now right].
Qed.

Lemma obj_get_some_in (m : list (string * A)) (s : string) (v : A) :
  obj_get m s = Some v -> In (s, v) m.
Proof.
  induction m as [| [k v'] rest IH]; cbn [obj_get]; [discriminate |].
  destruct (String.eqb_spec k s) as [-> | Hne].
  - intros H. inversion H. now left.
  - intros H. right. now apply IH.
Qed.

End Objects.

Lemma lookup_category_obj_get (cats : list (string * Category)) (name : string) :
  lookup_category cats name = obj_get cats name.
Proof.
  induction cats as [| [n c] rest IH]; cbn; [reflexivity |].
  now rewrite IH.
Qed.

Lemma has_name_in (names : list string) (name : string) :
  has_name names name = true <-> In name names.
Proof.
  unfold has_name. rewrite existsb_exists. split.
  - intros (x & Hin & Heq). apply String.eqb_eq in Heq. now subst.
  - intros Hin. exists name. split; [exact Hin | apply String.eqb_refl].
Qed.

Lemma has_name_cons (x : string) (rest : list string) (name : string) :
  has_name (x :: rest) name = String.eqb name x || has_name rest name.
Proof. reflexivity. Qed.

Lemma has_name_app (a b : list string) (name : string) :
  has_name (a ++ b) name = has_name a name || has_name b name.
Proof. unfold has_name. apply existsb_app. Qed.

Lemma has_name_set_of (names : list string) (name : string) :
  has_name (set_of names) name = has_name names name.
Proof.
  unfold set_of.
  assert (Hgen : forall acc,
             has_name (fold_left (fun s x => if has_name s x then s else s ++ [x])
                         names acc) name
             = has_name acc name || has_name names name).
  { induction names as [| x rest IH]; intros acc; cbn [fold_left].
    - cbn. now rewrite orb_false_r.
    - rewrite IH, has_name_cons. destruct (has_name acc x) eqn:Hx.
      + destruct (String.eqb_spec name x) as [-> | Hne]; [| reflexivity].
        now rewrite Hx.
      + rewrite has_name_app, has_name_cons. cbn [has_name existsb].
        now rewrite orb_false_r, orb_assoc. }
  rewrite Hgen. reflexivity.
Qed.

Lemma set_of_subset (names : list string) (name : string) :
  In name (set_of names) -> In name names.
Proof.
  intros H. apply has_name_in. rewrite <- has_name_set_of. now apply has_name_in.
Qed.

Lemma filter_nothing {A : Type} (f : A -> bool) (l : list A) :
  (forall x, In x l -> f x = false) -> filter f l = [].
Proof.
  induction l as [| x l IH]; intros H; cbn; [reflexivity |].
  rewrite (H x (or_introl eq_refl)). apply IH. intros y Hy. apply H. now right.
Qed.

Section Overrides.

Lemma get_first (name : string) (days : value) (more : object) :
  get (entry_object name days more) name = days.
Proof. unfold entry_object. cbn [get]. now rewrite String.eqb_refl. Qed.

Lemma inline_fold_some (entries : list Entry) (s : string) (v : value) :
  forall m,
    obj_get (fold_left inline_step entries m) s = Some v ->
    (exists more, In (EMap s v more) entries) \/ obj_get m s = Some v.
Proof.
  induction entries as [| e rest IH]; intros m H; cbn [fold_left] in H.
  - now right.
  - destruct (IH _ H) as [[more Hin] | Hm].
    + left. exists more. now right.
    + destruct e as [n | n d more]; cbn [inline_step] in Hm; [now right |].
      rewrite obj_get_set, get_first in Hm.
      destruct (String.eqb_spec n s) as [-> | Hne]; [| now right].
      inversion Hm; subst. left. exists more. now left.
Qed.

Lemma inline_fold_keeps (entries : list Entry) (s : string) :
  forall m,
    obj_get m s <> None \/ (exists d more, In (EMap s d more) entries) ->
    obj_get (fold_left inline_step entries m) s <> None.
Proof.
  induction entries as [| e rest IH]; intros m H; cbn [fold_left].
  - destruct H as [H | (d & more & [])]. exact H.
  - apply IH.
    destruct H as [H | (d & more & [-> | Hin])].
    + left. destruct e as [n | n d more]; cbn [inline_step]; [exact H |].
      rewrite obj_get_set. now destruct (String.eqb n s).
    + left. cbn [inline_step]. rewrite obj_get_set, String.eqb_refl. discriminate.
    + right. now exists d, more.
Qed.

Lemma inline_overrides_some (entries : list Entry) (s : string) (v : value) :
  obj_get (inline_overrides entries) s = Some v ->
  exists more, In (EMap s v more) entries.
Proof.
  intros H. destruct (inline_fold_some entries s v [] H) as [Hin | Hm];
    [exact Hin | discriminate Hm].
Qed.

Lemma inline_overrides_none (entries : list Entry) (s : string) (d : value)
    (more : object) :
  In (EMap s d more) entries -> obj_get (inline_overrides entries) s <> None.
Proof.
  intros Hin. apply (inline_fold_keeps entries s []). right. now exists d, more.
Qed.

Lemma migrate_overrides_some (section : object) (s : string) (v : value) :
  forall m,
    obj_get (migrate_overrides m section) s = Some v ->
    obj_get m s = Some v \/ In (s, v) section.
Proof.
  unfold migrate_overrides.
  induction section as [| [k x] rest IH]; intros m H; cbn [fold_left] in H.
  - now left.
  - destruct (IH _ H) as [Hm | Hin]; [| right; now right].
    destruct (String.prefix "_" k); [now left |].
    rewrite obj_get_set in Hm.
    destruct (String.eqb_spec k s) as [-> | Hne]; [| now left].
    inversion Hm; subst. right. now left.
Qed.

End Overrides.

Lemma rebuilt_entry_name (overrides : list (string * value)) (name : string) :
  entry_name (rebuilt_entry overrides name) = name.
Proof. unfold rebuilt_entry. now destruct (obj_get overrides name). Qed.

(** A category whose channel list is canonical for the discovered channels,
    and which has no deprecated section, is left alone by a sync. *)
Lemma canonical_settled (gd : value) (catName : string) (channels : list string)
    (cat : Category) :
  cat_overrides cat = None ->
  canonical (channels_or_empty cat) (sort_names channels) ->
  settled gd catName channels cat.
Proof.
  intros Hov (Hnames & Hsimple & Hsame).
  set (l := channels_or_empty cat) in *.
  set (S := sort_names channels) in *.
  assert (Hkeys : forall x v, obj_get (inline_overrides l) x = Some v ->
                              exists e, In e l /\ e = EMap x v []).
  { intros x v Hx. destruct (inline_overrides_some l x v Hx) as [more Hin].
    exists (EMap x v more). split; [exact Hin |].
    destruct (Hsimple _ Hin) as [_ ->]. reflexivity. }
  assert (Hjson : map json_entry l
                  = map json_entry (map (rebuilt_entry (inline_overrides l)) S)).
  { rewrite <- Hnames, !map_map. apply map_ext_in. intros e He.
    unfold rebuilt_entry.
    destruct (obj_get (inline_overrides l) (entry_name e)) as [v |] eqn:Hget.
    - destruct (Hkeys _ _ Hget) as (e' & Hin' & ->).
      symmetry. apply Hsame; [exact Hin' | exact He | reflexivity].
    - destruct e as [n | n d more]; [reflexivity |].
      exfalso. exact (inline_overrides_none l n d more He Hget). }
  assert (Hdropped : filter (fun name => negb (has_name S name))
                       (map fst (inline_overrides l)) = []).
  { apply filter_nothing. intros x Hx.
    apply obj_get_in_keys in Hx.
    destruct (obj_get (inline_overrides l) x) as [v |] eqn:Hget; [| contradiction].
    destruct (Hkeys _ _ Hget) as (e' & Hin' & ->).
    assert (Hin : In x S).
    { rewrite <- Hnames. change x with (entry_name (EMap x v [])).
      now apply in_map. }
    apply has_name_in in Hin. now rewrite Hin. }
  assert (Hadded : filter (fun name => negb (has_name (set_of (map entry_name l)) name))
                     S = []).
  { apply filter_nothing. intros x Hx.
    rewrite has_name_set_of, Hnames.
    apply has_name_in in Hx. now rewrite Hx. }
  assert (Hremoved : filter (fun name => negb (has_name S name))
                       (set_of (map entry_name l)) = []).
  { apply filter_nothing. intros x Hx.
    apply set_of_subset in Hx. rewrite Hnames in Hx.
    apply has_name_in in Hx. now rewrite Hx. }
  unfold settled, syncCategory. rewrite Hov. cbv zeta.
  fold l S.
  change (fun name : string =>
            match obj_get (inline_overrides l) name with
            | Some v => EMap name v []
            | None => EName name
            end) with (rebuilt_entry (inline_overrides l)).
  rewrite Hdropped, Hadded, Hremoved.
  unfold json_differs.
  destruct (list_eq_dec jentry_eq_dec (map json_entry l)
              (map json_entry (map (rebuilt_entry (inline_overrides l)) S)))
    as [_ | Hne]; [| contradiction].
  eexists. cbn [List.length Nat.add app].
  destruct cat as [en df dl ov ch]. cbn in Hov. subst ov. reflexivity.
Qed.

Lemma json_props_defined (o : object) :
  forallb (fun '(_, v) => defined v) o = true ->
  json_props o = [] -> o = [].
Proof.
  unfold json_props. destruct o as [| [k v] rest]; [reflexivity |].
  cbn [forallb filter]. intros H. apply andb_true_iff in H. destruct H as [Hv _].
  rewrite Hv. discriminate.
Qed.

Lemma json_entry_shape (e n : Entry) :
  entry_defined e = true -> simple_entry n ->
  json_entry e = json_entry n ->
  entry_name e = entry_name n /\ simple_entry e.
Proof.
  destruct e as [s | k d more], n as [s' | k' d' more']; cbn [json_entry entry_name];
    intros Hdef Hsimple Hjson; try discriminate Hjson.
  - inversion Hjson. now split.
  - cbn [entry_defined] in Hdef. apply andb_true_iff in Hdef.
    destruct Hdef as [Hd Hmore]. destruct Hsimple as [Hd' ->].
    unfold entry_object, json_props in Hjson. cbn [filter map] in Hjson.
    rewrite Hd, Hd' in Hjson. cbn [map] in Hjson.
    inversion Hjson as [[Hk Hv Hrest]].
    split; [reflexivity |]. split; [exact Hd |].
    apply json_props_defined; [exact Hmore | exact Hrest].
Qed.

Lemma json_map_in (old new : list Entry) :
  map json_entry old = map json_entry new ->
  forall e, In e old -> exists n, In n new /\ json_entry e = json_entry n.
Proof.
  revert new. induction old as [| x old IH]; intros [| y new] Hmap e Hin;
    try discriminate Hmap; [contradiction |].
  cbn [map] in Hmap. inversion Hmap as [[Hxy Hrest]].
  destruct Hin as [-> | Hin].
  - exists y. split; [now left | exact Hxy].
  - destruct (IH new Hrest e Hin) as (n & Hn & Hj). exists n. split; [now right | exact Hj].
Qed.

Lemma json_map_names (old new : list Entry) :
  map json_entry old = map json_entry new ->
  forallb entry_defined old = true ->
  (forall n, In n new -> simple_entry n) ->
  map entry_name old = map entry_name new.
Proof.
  revert new. induction old as [| x old IH]; intros [| y new] Hmap Hdef Hsimple;
    try discriminate Hmap; [reflexivity |].
  cbn [map] in *. inversion Hmap as [[Hxy Hrest]].
  cbn [forallb] in Hdef. apply andb_true_iff in Hdef. destruct Hdef as [Hx Hold].
  destruct (json_entry_shape x y Hx (Hsimple y (or_introl eq_refl)) Hxy) as [-> _].
  f_equal. apply IH; [exact Hrest | exact Hold |].
  intros n Hn. apply Hsimple. now right.
Qed.

Lemma canonical_by_json (old new : list Entry) (names : list string) :
  map json_entry old = map json_entry new ->
  forallb entry_defined old = true ->
  canonical new names -> canonical old names.
Proof.
  intros Hmap Hdef (Hnames & Hsimple & Hsame).
  assert (Hshape : forall e, In e old ->
            exists n, In n new /\ json_entry e = json_entry n
                      /\ entry_name e = entry_name n /\ simple_entry e).
  { intros e He. destruct (json_map_in old new Hmap e He) as (n & Hn & Hj).
    exists n. split; [exact Hn |]. split; [exact Hj |].
    apply json_entry_shape; [| now apply Hsimple | exact Hj].
    rewrite forallb_forall in Hdef. now apply Hdef. }
  split; [| split].
  - rewrite <- Hnames. now apply json_map_names.
  - intros e He. destruct (Hshape e He) as (n & _ & _ & _ & Hs). exact Hs.
  - intros e1 e2 H1 H2 Hname.
    destruct (Hshape e1 H1) as (n1 & Hn1 & Hj1 & Hm1 & _).
    destruct (Hshape e2 H2) as (n2 & Hn2 & Hj2 & Hm2 & _).
    rewrite Hj1, Hj2. apply Hsame; [exact Hn1 | exact Hn2 | congruence].
Qed.

Lemma rebuilt_canonical (overrides : list (string * value)) (names : list string) :
  (forall s v, obj_get overrides s = Some v -> defined v = true) ->
  canonical (map (rebuilt_entry overrides) names) names.
Proof.
  intros Hdef. split; [| split].
  - rewrite map_map. rewrite <- (map_id names) at 2.
    apply map_ext. intros x. apply rebuilt_entry_name.
  - intros e He. apply in_map_iff in He. destruct He as (x & <- & _).
    unfold rebuilt_entry. destruct (obj_get overrides x) as [v |] eqn:Hget; cbn.
    + split; [exact (Hdef _ _ Hget) | reflexivity].
    + exact I.
  - intros e1 e2 H1 H2 Hname.
    apply in_map_iff in H1. destruct H1 as (x1 & <- & _).
    apply in_map_iff in H2. destruct H2 as (x2 & <- & _).
    rewrite !rebuilt_entry_name in Hname. now subst.
Qed.

(** One sync of a category, whatever it changes, leaves the category in a
    state that a further sync with the same channels does not change. *)
Lemma syncCategory_settles (gd : value) (catName : string) (channels : list string)
    (cat cat' : Category) (n : nat) (ds : list ChangeDetail) (ls : list logrec) :
  category_defined cat = true ->
  syncCategory gd catName channels cat = (cat', n, ds, ls) ->
  settled gd catName channels cat'.
Proof.
  intros Hdef Hsync.
  unfold category_defined in Hdef. apply andb_true_iff in Hdef.
  destruct Hdef as [Hentries Hsection].
  unfold syncCategory in Hsync.
  set (l := channels_or_empty cat) in *.
  set (S := sort_names channels) in *.
  set (EO := match cat_overrides cat with
             | Some section => migrate_overrides (inline_overrides l) section
             | None => inline_overrides l
             end).
  assert (HEO : forall s v, obj_get EO s = Some v -> defined v = true).
  { assert (Hinline : forall s v, obj_get (inline_overrides l) s = Some v ->
                                  defined v = true).
    { intros s v Hget. destruct (inline_overrides_some l s v Hget) as [more Hin].
      rewrite forallb_forall in Hentries. specialize (Hentries _ Hin).
      cbn [entry_defined] in Hentries. apply andb_true_iff in Hentries.
      apply Hentries. }
    subst EO. destruct (cat_overrides cat) as [section |]; [| exact Hinline].
    intros s v Hget. destruct (migrate_overrides_some section s v _ Hget) as [H | H].
    - exact (Hinline _ _ H).
    - rewrite forallb_forall in Hsection. exact (Hsection _ H). }
  pose proof (rebuilt_canonical EO S HEO) as Hcanon.
  assert (Hcat' : cat_overrides cat' = None
                  /\ (channels_or_empty cat' = map (rebuilt_entry EO) S
                      \/ (channels_or_empty cat' = l
                          /\ map json_entry l
                             = map json_entry (map (rebuilt_entry EO) S)))).
  { subst EO. destruct (cat_overrides cat) as [section |]; cbv zeta in Hsync;
      unfold json_differs in Hsync;
      match type of Hsync with
      | context [list_eq_dec jentry_eq_dec ?a ?b] =>
          destruct (list_eq_dec jentry_eq_dec a b) as [Heq | Hne]
      end;
      inversion Hsync; subst cat'; cbn [cat_overrides channels_or_empty cat_channels];
        (split; [reflexivity |]);
        first [ left; reflexivity | right; split; [reflexivity | exact Heq] ]. }
  destruct Hcat' as [Hov [Hnew | [Hold Hjson]]].
  - apply canonical_settled; [exact Hov |]. rewrite Hnew. exact Hcanon.
  - apply canonical_settled; [exact Hov |]. rewrite Hold.
    exact (canonical_by_json l _ S Hjson Hentries Hcanon).
Qed.

Lemma discovered_settled (gd : value) (catName : string) (channels : list string) :
  settled gd catName channels (discovered_category gd (sort_names channels)).
Proof.
  apply canonical_settled; [reflexivity |].
  cbn [discovered_category channels_or_empty cat_channels].
  split; [| split].
  - rewrite map_map. cbn [entry_name]. apply map_id.
  - intros e He. apply in_map_iff in He. destruct He as (x & <- & _). exact I.
  - intros e1 e2 H1 H2 Hname.
    apply in_map_iff in H1. destruct H1 as (x1 & <- & _).
    apply in_map_iff in H2. destruct H2 as (x2 & <- & _).
    cbn in Hname. now subst.
Qed.

Lemma syncCategory_no_change (gd : value) (catName : string) (channels : list string)
    (cat cat' : Category) (ds : list ChangeDetail) (ls : list logrec) :
  syncCategory gd catName channels cat = (cat', O, ds, ls) -> cat' = cat.
Proof.
  unfold syncCategory.
  destruct (cat_overrides cat) as [section |] eqn:Hov; cbv zeta;
    match goal with
    | |- context [json_differs ?a ?b] => destruct (json_differs a b)
    end;
    intros H; inversion H as [[Hcat Hn Hds Hls]]; try lia.
  destruct cat as [en df dl ov ch]. cbn in *. now subst ov.
Qed.

Lemma has_key_in {A : Type} (m : list (string * A)) (k : string) (v : A) :
  In (k, v) m -> has_key m k = true.
Proof.
  intros Hin. unfold has_key.
  destruct (obj_get m k) eqn:Hget; [reflexivity |].
  exfalso. apply (proj1 (obj_get_in_keys m k)); [| exact Hget].
  change k with (fst (k, v)). now apply in_map.
Qed.

Section SyncLoops.

Variable gd : value.
Variable discoveredMap : list (string * list string).

(** *** Counting: a pass that counts no change changed nothing *)

Lemma visit_counts (d : list (string * list string)) :
  forall cats changes details lines cats' changes' details' lines',
    fold_left (visitDiscovered gd) d (cats, changes, details, lines)
    = (cats', changes', details', lines') ->
    (changes <= changes')%nat /\ (changes' = changes -> cats' = cats).
Proof.
  induction d as [| [k chans] rest IH];
    intros cats changes details lines cats' changes' details' lines' H.
  - cbn in H. inversion H; subst. split; [lia | reflexivity].
  - cbn [fold_left] in H. cbn [visitDiscovered] in H.
    destruct (lookup_category cats k) as [cat |] eqn:Hget.
    + destruct (syncCategory gd k chans cat) as [[[cat1 n] ds] ls] eqn:Hsync.
      apply IH in H. destruct H as [Hle Heq]. split; [lia |].
      intros ->. assert (n = 0)%nat by lia. subst n.
      rewrite Heq by lia.
      apply syncCategory_no_change in Hsync. subst cat1.
      apply obj_set_same. now rewrite <- lookup_category_obj_get.
    + apply IH in H. destruct H as [Hle Heq]. split; lia.
Qed.

Lemma prune_counts (ks : list string) :
  forall cats changes details lines cats' changes' details' lines',
    fold_left (pruneMissing discoveredMap) ks (cats, changes, details, lines)
    = (cats', changes', details', lines') ->
    (changes <= changes')%nat /\ (changes' = changes -> cats' = cats).
Proof.
  induction ks as [| k rest IH];
    intros cats changes details lines cats' changes' details' lines' H.
  - cbn in H. inversion H; subst. split; [lia | reflexivity].
  - cbn [fold_left] in H. cbn [pruneMissing] in H.
    destruct (has_key discoveredMap k).
    + now apply IH in H.
    + apply IH in H. destruct H as [Hle Heq]. split; lia.
Qed.

(** *** The second pass finds nothing to do *)

Lemma visit_settled (d : list (string * list string)) (cats : list (string * Category)) :
  (forall k chans, In (k, chans) d ->
     exists c, obj_get cats k = Some c /\ settled gd k chans c) ->
  forall lines, exists lines',
    fold_left (visitDiscovered gd) d (cats, O, [], lines) = (cats, O, [], lines').
Proof.
  induction d as [| [k chans] rest IH]; intros Hall lines.
  - exists lines. reflexivity.
  - cbn [fold_left]. cbn [visitDiscovered].
    destruct (Hall k chans (or_introl eq_refl)) as (c & Hget & (ls & Hsync)).
    rewrite lookup_category_obj_get, Hget, Hsync.
    rewrite (obj_set_same _ _ _ Hget). cbn [Nat.add app].
    apply IH. intros k' chans' Hin. apply Hall. now right.
Qed.

Lemma prune_nothing (ks : list string) (a : SyncAcc) :
  (forall k, In k ks -> has_key discoveredMap k = true) ->
  fold_left (pruneMissing discoveredMap) ks a = a.
Proof.
  revert a. induction ks as [| k rest IH]; intros a Hall; [reflexivity |].
  cbn [fold_left]. destruct a as [[[cats changes] details] lines].
  cbn [pruneMissing]. rewrite (Hall k (or_introl eq_refl)).
  apply IH. intros k' Hin. apply Hall. now right.
Qed.

(** *** The first pass settles every category *)

Lemma visit_settles (d : list (string * list string)) :
  NoDup (map fst d) ->
  forall cats changes details lines cats' changes' details' lines',
    (forall k c, In k (map fst d) -> obj_get cats k = Some c ->
                 category_defined c = true) ->
    fold_left (visitDiscovered gd) d (cats, changes, details, lines)
    = (cats', changes', details', lines') ->
    (forall k chans, In (k, chans) d ->
       exists c, obj_get cats' k = Some c /\ settled gd k chans c)
    /\ (forall k, ~ In k (map fst d) -> obj_get cats' k = obj_get cats k).
Proof.
  induction d as [| [k chans] rest IH]; intros Hnodup
    cats changes details lines cats' changes' details' lines' Hdef H.
  - cbn in H. inversion H; subst. split; [intros k chans [] | reflexivity].
  - cbn [map fst] in Hnodup. inversion Hnodup as [| ? ? Hfresh Hrest]; subst.
    cbn [fold_left] in H. cbn [visitDiscovered] in H.
    assert (Hstep : exists c1 a1 b1 l1,
               fold_left (visitDiscovered gd) rest (obj_set cats k c1, a1, b1, l1)
               = (cats', changes', details', lines')
               /\ settled gd k chans c1).
    { destruct (lookup_category cats k) as [cat |] eqn:Hget.
      - destruct (syncCategory gd k chans cat) as [[[cat1 n] ds] ls] eqn:Hsync.
        exists cat1. do 3 eexists. split; [exact H |].
        apply (syncCategory_settles gd k chans cat cat1 n ds ls); [| exact Hsync].
        apply (Hdef k); [now left | now rewrite <- lookup_category_obj_get].
      - do 4 eexists. split; [exact H | apply discovered_settled]. }
    destruct Hstep as (c1 & a1 & b1 & l1 & Hfold & Hsettled).
    apply IH in Hfold; [| exact Hrest |].
    + destruct Hfold as [Hall Hother]. split.
      * intros k' chans' [Heq | Hin].
        -- inversion Heq; subst k' chans'. exists c1. split; [| exact Hsettled].
           rewrite (Hother k Hfresh), obj_get_set, String.eqb_refl. reflexivity.
        -- now apply Hall.
      * intros k' Hnot. cbn [map fst In] in Hnot.
        rewrite Hother by tauto. rewrite obj_get_set.
        destruct (String.eqb_spec k k') as [-> | _]; [tauto | reflexivity].
    + intros k' c Hin Hget. rewrite obj_get_set in Hget.
      destruct (String.eqb_spec k k') as [-> | _]; [contradiction |].
      apply (Hdef k'); [now right | exact Hget].
Qed.

Lemma prune_lookup (ks : list string) :
  forall cats changes details lines cats' changes' details' lines',
    fold_left (pruneMissing discoveredMap) ks (cats, changes, details, lines)
    = (cats', changes', details', lines') ->
    forall s, obj_get cats' s
              = if has_name ks s && negb (has_key discoveredMap s)
                then None else obj_get cats s.
Proof.
  induction ks as [| k rest IH];
    intros cats changes details lines cats' changes' details' lines' H s.
  - cbn in H. inversion H; subst. reflexivity.
  - cbn [fold_left] in H. cbn [pruneMissing] in H. rewrite has_name_cons.
    destruct (has_key discoveredMap k) eqn:Hk.
    + rewrite (IH _ _ _ _ _ _ _ _ H s).
      destruct (String.eqb_spec s k) as [-> | Hne]; [| reflexivity].
      rewrite Hk. cbn. now rewrite andb_false_r.
    + rewrite (IH _ _ _ _ _ _ _ _ H s), obj_get_delete.
      destruct (String.eqb_spec s k) as [-> | Hne].
      * rewrite String.eqb_refl, Hk. cbn.
        now destruct (has_name rest k && true).
      * destruct (String.eqb_spec k s) as [-> | _]; [contradiction | reflexivity].
Qed.

End SyncLoops.

Lemma map_push_keys {A : Type} (m : list (string * list A)) (k : string) (v : A) :
  forall x, In x (map fst (map_push m k v)) <-> x = k \/ In x (map fst m).
Proof.
  induction m as [| [k' vs] rest IH]; intros x; cbn [map_push map fst In].
  - split; [intros [H | []]; now left | intros [H | []]; now left].
  - destruct (String.eqb_spec k' k) as [-> | Hne]; cbn [map fst In].
    + intuition congruence.
    + rewrite IH. tauto.
Qed.

Lemma map_push_nodup {A : Type} (m : list (string * list A)) (k : string) (v : A) :
  NoDup (map fst m) -> NoDup (map fst (map_push m k v)).
Proof.
  induction m as [| [k' vs] rest IH]; intros Hnd; cbn [map_push map fst].
  - constructor; [intros [] | constructor].
  - cbn [map fst] in Hnd. inversion Hnd as [| ? ? Hfresh Hrest]; subst.
    destruct (String.eqb_spec k' k) as [-> | Hne]; cbn [map fst].
    + now constructor.
    + constructor; [| now apply IH].
      rewrite map_push_keys. intros [H | H]; [congruence | contradiction].
Qed.

Lemma discoveredMap_nodup (textChannels : list TextChannel) :
  NoDup (map fst (discoveredMap_of textChannels)).
Proof.
  unfold discoveredMap_of.
  assert (Hgen : forall m : list (string * list string),
             NoDup (map fst m) ->
             NoDup (map fst (fold_left
                               (fun m channel =>
                                  match tc_category channel with
                                  | None => m
                                  | Some category => map_push m category (tc_name channel)
                                  end) textChannels m))).
  { induction textChannels as [| c rest IH]; intros m Hm; [exact Hm |].
    cbn [fold_left]. apply IH.
    destruct (tc_category c); [now apply map_push_nodup | exact Hm]. }
  apply Hgen. constructor.
Qed.

(** After one pass of the two loops every discovered category is settled and
    every category kept is a discovered one. *)
Lemma syncCategories_settles (gd : value) (discoveredMap : list (string * list string))
    (cats cats' : list (string * Category)) (changes : nat)
    (details : list ChangeDetail) (lines : list logrec) :
  NoDup (map fst discoveredMap) ->
  forallb (fun '(_, cat) => category_defined cat) cats = true ->
  syncCategories gd discoveredMap cats = (cats', changes, details, lines) ->
  (forall k chans, In (k, chans) discoveredMap ->
     exists c, obj_get cats' k = Some c /\ settled gd k chans c)
  /\ (forall k, In k (map fst cats') -> has_key discoveredMap k = true).
Proof.
  intros Hnodup Hdef Hsync. unfold syncCategories in Hsync. cbv zeta in Hsync.
  destruct (fold_left (visitDiscovered gd) discoveredMap (cats, 0%nat, [], []))
    as [[[cats1 changes1] details1] lines1] eqn:Hvisit.
  cbn [fst] in Hsync.
  destruct (visit_settles gd discoveredMap Hnodup _ _ _ _ _ _ _ _
              (fun k c _ Hget =>
                 proj1 (forallb_forall _ _) Hdef (k, c) (obj_get_some_in _ _ _ Hget))
              Hvisit) as [Hall _].
  pose proof (prune_lookup discoveredMap _ _ _ _ _ _ _ _ _ Hsync) as Hlookup.
  split.
  - intros k chans Hin. destruct (Hall k chans Hin) as (c & Hget & Hsettled).
    exists c. split; [| exact Hsettled].
    rewrite Hlookup, (has_key_in _ _ _ Hin). cbn [negb]. rewrite andb_false_r.
    exact Hget.
  - intros k Hin. apply obj_get_in_keys in Hin. rewrite Hlookup in Hin.
    destruct (has_key discoveredMap k); [reflexivity |].
    cbn [negb] in Hin. rewrite andb_true_r in Hin.
    destruct (has_name (map fst cats1) k) eqn:Hk; [contradiction |].
    exfalso. apply Hin.
    destruct (obj_get cats1 k) eqn:Hget; [| reflexivity].
    assert (Hkey : In k (map fst cats1)).
    { apply obj_get_in_keys. congruence. }
    apply has_name_in in Hkey. congruence.
Qed.

(** A pass over settled categories changes nothing and reports nothing. *)
Lemma syncCategories_settled (gd : value) (discoveredMap : list (string * list string))
    (cats : list (string * Category)) :
  (forall k chans, In (k, chans) discoveredMap ->
     exists c, obj_get cats k = Some c /\ settled gd k chans c) ->
  (forall k, In k (map fst cats) -> has_key discoveredMap k = true) ->
  exists lines, syncCategories gd discoveredMap cats = (cats, O, [], lines).
Proof.
  intros Hall Hkeys. unfold syncCategories. cbv zeta.
  destruct (visit_settled gd discoveredMap cats Hall []) as [lines Hvisit].
  rewrite Hvisit. cbn [fst]. exists lines.
  now apply prune_nothing.
Qed.

Lemma syncCategories_counts (gd : value) (discoveredMap : list (string * list string))
    (cats cats' : list (string * Category)) (details : list ChangeDetail)
    (lines : list logrec) :
  syncCategories gd discoveredMap cats = (cats', O, details, lines) -> cats' = cats.
Proof.
  unfold syncCategories. cbv zeta.
  destruct (fold_left (visitDiscovered gd) discoveredMap (cats, 0%nat, [], []))
    as [[[cats1 changes1] details1] lines1] eqn:Hvisit.
  cbn [fst]. intros Hprune.
  destruct (visit_counts gd _ _ _ _ _ _ _ _ _ Hvisit) as [_ H1].
  destruct (prune_counts discoveredMap _ _ _ _ _ _ _ _ _ Hprune) as [Hle H2].
  assert (changes1 = 0)%nat by lia. subst changes1.
  rewrite (H2 eq_refl). exact (H1 eq_refl).
Qed.

(** C9.  A full sync writes the configuration file exactly when it counted
    at least one change, and a sync that counted none left the
    configuration as it was.  Run a second time on the same guild, right
    after a first sync, it counts no change, reports no detail, writes
    nothing and leaves the configuration as the first sync left it.  (The
    values of the configuration are those of a YAML document: none is
    [undefined].) *)
Theorem full_sync_idempotent (exitOnError : bool) (w : Outside) (p p1 : Process)
    (report1 : SyncReport) :
  config_defined (p_config p) = true ->
  syncConfig exitOnError w p = (SyncDone report1, p1) ->
  p_configWrites p1
  = (if (0 <? sr_changes report1)%nat then S (p_configWrites p) else p_configWrites p)
  /\ (sr_changes report1 = 0%nat -> p_config p1 = p_config p)
  /\ exists report2 p2,
       syncConfig exitOnError w p1 = (SyncDone report2, p2)
       /\ sr_changes report2 = 0%nat
       /\ sr_details report2 = []
       /\ p_configWrites p2 = p_configWrites p1
       /\ p_config p2 = p_config p1.
Proof.
  intros Hdef Hsync. unfold syncConfig in *.
  destruct (o_guild w) as [textChannels |];
    [| destruct exitOnError; discriminate Hsync].
  destruct (o_channelsFetch w) as [err |]; [discriminate Hsync |].
  destruct (syncCategories (globalDefault (p_config p)) (discoveredMap_of textChannels)
              (categories (p_config p))) as [[[cats1 changes1] details1] lines1]
    eqn:Hfirst.
  inversion Hsync; subst report1 p1. clear Hsync.
  cbn [sr_changes sr_details p_configWrites p_config globalDefault categories].
  split; [reflexivity |]. split.
  - intros ->. apply syncCategories_counts in Hfirst. subst cats1.
    now destruct (p_config p).
  - destruct (syncCategories_settles _ _ _ _ _ _ _
                (discoveredMap_nodup textChannels) Hdef Hfirst) as [Hall Hkeys].
    destruct (syncCategories_settled _ _ _ Hall Hkeys) as [lines2 Hsecond].
    rewrite Hsecond. do 2 eexists. split; [reflexivity |].
    cbn [sr_changes sr_details p_configWrites p_config Nat.ltb Nat.leb].
    repeat split.
Qed.

Lemma full_sync_idempotent_witness :
  p_configWrites (snd (syncConfig false Samples.guild_logs_only Samples.idle_two))
  = 1%nat
  /\ exists report2 p2,
       syncConfig false Samples.guild_logs_only
         (snd (syncConfig false Samples.guild_logs_only Samples.idle_two))
       = (SyncDone report2, p2)
       /\ sr_changes report2 = 0%nat
       /\ p_configWrites p2 = 1%nat.
Proof.
  assert (Hfirst :
            syncConfig false Samples.guild_logs_only Samples.idle_two
            = (SyncDone
                 (mkSyncReport 1 3 1
                    [mkChangeDetail "removed" "category" "media" ["requests"; "errors"]]),
               snd (syncConfig false Samples.guild_logs_only Samples.idle_two))).
  { vm_compute. reflexivity. }
  destruct (full_sync_idempotent false Samples.guild_logs_only Samples.idle_two _ _
              eq_refl Hfirst)
    as (Hwrites & _ & report2 & p2 & Hsecond & Hzero & _ & Hsame & _).
  split; [exact Hwrites |].
  exists report2, p2. split; [exact Hsecond |]. split; [exact Hzero |].
  rewrite Hsame. exact Hwrites.
Defined.

(** * Further properties *)

(** ** What a channel scan asks of the store *)

Section ScanBounds.

Variable env : Env.

Lemma fetch_limits_app (a b : list Call) :
  fetch_limits (a ++ b) = fetch_limits a ++ fetch_limits b.
Proof. unfold fetch_limits. apply flat_map_app. Qed.

Lemma fetched_channels_app (a b : list Call) :
  fetched_channels (a ++ b) = fetched_channels a ++ fetched_channels b.
Proof. unfold fetched_channels. apply flat_map_app. Qed.

Lemma deleted_in_app (a b : list Call) :
  deleted_in (a ++ b) = deleted_in a ++ deleted_in b.
Proof. unfold deleted_in. apply flat_map_app. Qed.

Lemma fetchLoop_asks (chan maxMessages : nat) (skip deleteOld : bool)
    (cutoff : option Z) (limit : Z) (fuel : nat) :
  forall (fetched : nat) (lastId : option nat) (acc : list Msg * list Msg)
         (st st' : RunState) (r : outcome (list Msg * list Msg * nat)),
    fetchLoop env fuel chan maxMessages skip deleteOld cutoff limit
      fetched lastId acc st = (r, st') ->
    exists new,
      calls st' = calls st ++ new
      /\ Forall (fun c => c = chan) (fetched_channels new)
      /\ Forall (fun l => (1 <= l <= 100)%nat) (fetch_limits new)
      /\ (List.length new <= fuel)%nat
      /\ deleted_in new = []
      /\ (respects_limit env -> (fetched <= maxMessages)%nat ->
          (fetched + List.length (fetched_in new) <= maxMessages)%nat
          /\ match r with
             | Ok (_, n) => n = (fetched + List.length (fetched_in new))%nat
             | Throw _ => True
             end).
Proof.
  induction fuel as [| fuel IH]; intros fetched lastId acc st st' r Hrun.
  - cbn in Hrun. inversion Hrun; subst.
    exists []. rewrite app_nil_r. cbn. repeat split; auto; lia.
  - cbn [fetchLoop] in Hrun.
    destruct (Nat.ltb_spec fetched maxMessages) as [Hlt | Hge].
    2:{ inversion Hrun; subst.
        exists []. rewrite app_nil_r. cbn. repeat split; auto; lia. }
    set (batchSize := Nat.min 100 (maxMessages - fetched)) in *.
    assert (Hsize : (1 <= batchSize <= 100)%nat) by (subst batchSize; lia).
    destruct (env_fetch env (tick st) chan lastId batchSize) as [err | [| m ms]] eqn:Hans.
    + inversion Hrun; subst. eexists. split; [reflexivity |].
      cbn. repeat split; auto; lia.
    + inversion Hrun; subst. eexists. split; [reflexivity |].
      cbn. repeat split; auto; lia.
    + apply IH in Hrun. destruct Hrun as (new & Hc & Hch & Hl & Hn & Hd & Hb).
      exists (CFetch chan lastId batchSize (inr (m :: ms)) :: new).
      split; [rewrite Hc; cbn; now rewrite <- app_assoc |].
      split; [constructor; [reflexivity | exact Hch] |].
      split; [constructor; [exact Hsize | exact Hl] |].
      split; [cbn; lia |]. split; [exact Hd |].
      intros Hresp _.
      pose proof (Hresp _ _ _ _ _ Hans) as Hpage.
      assert (Hroom : (fetched + List.length (m :: ms) <= maxMessages)%nat)
        by (subst batchSize; lia).
      destruct (Hb Hresp Hroom) as [Hle Hres].
      change (fetched_in (CFetch chan lastId batchSize (inr (m :: ms)) :: new))
        with ((m :: ms) ++ fetched_in new).
      rewrite length_app. split; [lia |].
      destruct r as [[acc' n] | e]; [lia | exact I].
Qed.

End ScanBounds.

(** X1.  Scanning a channel only fetches from that channel, asks for pages
    of 1 to 100 messages, makes at most [maxMessagesPerChannel] fetches and
    deletes nothing.  On a store that never returns more than it was asked
    for, the messages fetched number at most [maxMessagesPerChannel], and
    the count the scan reports is their number. *)
Theorem scan_respects_ceiling (env : Env) (config : Config) (deleteOld : bool)
    (channel : TextChannel) (retention : value) (st : RunState) :
  let result := scanChannel env config deleteOld channel retention st in
  let maxMessages := maxMessagesPerChannel (discord config) in
  exists new,
    calls (snd result) = calls st ++ new
    /\ Forall (fun c => c = tc_id channel) (fetched_channels new)
    /\ Forall (fun l => (1 <= l <= 100)%nat) (fetch_limits new)
    /\ (List.length new <= maxMessages)%nat
    /\ deleted_in new = []
    /\ (respects_limit env ->
        (List.length (fetched_in new) <= maxMessages)%nat
        /\ forall bulk old n, fst result = Ok (bulk, old, n) ->
             n = List.length (fetched_in new)).
Proof.
  intros result maxMessages.
  destruct result as [r st'] eqn:Hres. subst result. unfold scanChannel in Hres.
  destruct (fetchLoop_asks env _ _ _ _ _ _ _ _ _ _ _ _ _ Hres)
    as (new & Hc & Hch & Hl & Hn & Hd & Hb).
  exists new. cbn [fst snd]. repeat split; try assumption.
  - destruct (Hb H (Nat.le_0_l _)) as [Hle _]. exact Hle.
  - intros bulk old n ->. destruct (Hb H (Nat.le_0_l _)) as [_ Hr]. exact Hr.
Qed.

Lemma store_respects_limit (msgs : list Msg) (refused : list nat) :
  respects_limit (Samples.store msgs refused).
Proof.
  intros t chan before limit page H. cbn in H. inversion H; subst.
  rewrite length_firstn. apply Nat.le_min_l.
Defined.

Lemma scan_respects_ceiling_witness :
  exists new,
    calls (snd (scanChannel (Samples.store Samples.mix []) Samples.config_ok true
                  Samples.general (VInt 7) initialRunState)) = [] ++ new
    /\ (List.length (fetched_in new) <= 500)%nat.
Proof.
  destruct (scan_respects_ceiling (Samples.store Samples.mix []) Samples.config_ok true
              Samples.general (VInt 7) initialRunState)
    as (new & Hc & _ & _ & _ & _ & Hb).
  exists new. split; [exact Hc |].
  exact (proj1 (Hb (store_respects_limit Samples.mix []))).
Defined.

(** ** What a run deletes *)

Lemma batch_sizes_app (a b : list Call) :
  batch_sizes (a ++ b) = batch_sizes a ++ batch_sizes b.
Proof. unfold batch_sizes. apply flat_map_app. Qed.

Ltac split_trace :=
  rewrite ?fetched_in_app, ?fetched_channels_app, ?batch_sizes_app, ?deleted_in_app.

Ltac split_trace_in H :=
  rewrite ?fetched_in_app, ?fetched_channels_app, ?batch_sizes_app, ?deleted_in_app in H.

Section Deletes.

Variable env : Env.

Lemma firstn_hundred (rest : list Msg) (batch : list Msg) :
  firstn 100 rest = batch -> (List.length batch <= 100)%nat.
Proof. intros <-. rewrite length_firstn. apply Nat.le_min_l. Qed.

Lemma bulkPhase_deletes (chan : nat) (fuel : nat) :
  forall (rest : list Msg) (deleted : nat) (st st' : RunState) (r : outcome nat),
    (List.length rest <= fuel)%nat ->
    bulkPhase env fuel chan rest deleted st = (r, st') ->
    exists new,
      calls st' = calls st ++ new
      /\ fetched_in new = [] /\ fetched_channels new = []
      /\ Forall (fun n => (2 <= n <= 100)%nat) (batch_sizes new)
      /\ (exists suffix, deleted_in new ++ suffix = rest)
      /\ match r with
         | Ok _ => deleted_in new = rest
         | Throw _ => True
         end.
Proof.
  induction fuel as [| fuel IH]; intros rest deleted st st' r Hle Hrun.
  - destruct rest; [| cbn in Hle; lia]. cbn in Hrun. inversion Hrun; subst.
    exists []. rewrite app_nil_r. cbn. repeat split; auto. now exists [].
  - cbn [bulkPhase] in Hrun.
    pose proof (firstn_skipn 100 rest) as Hsplit.
    destruct (firstn 100 rest) as [| m [| m2 batch]] eqn:Hb.
    + destruct rest; [| discriminate Hb]. inversion Hrun; subst.
      exists []. rewrite app_nil_r. cbn. repeat split; auto. now exists [].
    + pose proof (firstn_nonempty _ _ _ _ Hb) as Hlt.
      destruct (env_delete env (tick st) m) as [err |].
      * inversion Hrun; subst. exists [CDeleteSingle m (Some err)].
        split; [reflexivity |].
        change (deleted_in [CDeleteSingle m (Some err)]) with [m].
        repeat split; try reflexivity; [constructor |].
        exists (skipn 100 rest). exact Hsplit.
      * apply IH in Hrun; [| lia].
        destruct Hrun as (new & Hc & Hf & Hch & Hs & (suffix & Hpre) & Hres).
        exists ([CDeleteSingle m None] ++ new).
        split; [rewrite Hc; cbn [await calls]; now rewrite <- app_assoc |].
        split_trace.
        change (deleted_in [CDeleteSingle m None]) with [m].
        split; [exact Hf |]. split; [exact Hch |]. split; [exact Hs |].
        split.
        -- exists suffix. rewrite <- app_assoc, Hpre. exact Hsplit.
        -- destruct r; [| exact I]. rewrite Hres. exact Hsplit.
    + pose proof (firstn_nonempty _ _ _ _ Hb) as Hlt.
      pose proof (firstn_hundred _ _ Hb) as Hsize.
      assert (Hbatch : (2 <= List.length (m :: m2 :: batch) <= 100)%nat)
        by (cbn [List.length] in *; lia).
      destruct (env_bulkDelete env (tick st) chan (m :: m2 :: batch)) as [err | size].
      * inversion Hrun; subst.
        exists [CBulkDelete chan (m :: m2 :: batch) (inl err)].
        split; [reflexivity |].
        change (deleted_in [CBulkDelete chan (m :: m2 :: batch) (inl err)])
          with ((m :: m2 :: batch) ++ []).
        change (batch_sizes [CBulkDelete chan (m :: m2 :: batch) (inl err)])
          with [List.length (m :: m2 :: batch)].
        rewrite app_nil_r.
        repeat split; try reflexivity; [constructor; [exact Hbatch | constructor] |].
        exists (skipn 100 rest). exact Hsplit.
      * apply IH in Hrun; [| lia].
        destruct Hrun as (new & Hc & Hf & Hch & Hs & (suffix & Hpre) & Hres).
        exists ([CBulkDelete chan (m :: m2 :: batch) (inr size)] ++ new).
        split; [rewrite Hc; cbn [await calls]; now rewrite <- app_assoc |].
        split_trace.
        change (deleted_in [CBulkDelete chan (m :: m2 :: batch) (inr size)])
          with ((m :: m2 :: batch) ++ []).
        change (batch_sizes [CBulkDelete chan (m :: m2 :: batch) (inr size)])
          with [List.length (m :: m2 :: batch)].
        rewrite app_nil_r.
        split; [exact Hf |]. split; [exact Hch |].
        split; [constructor; [exact Hbatch | exact Hs] |].
        split.
        -- exists suffix. rewrite <- app_assoc, Hpre. exact Hsplit.
        -- destruct r; [| exact I]. rewrite Hres. exact Hsplit.
Qed.

Lemma oldPhase_deletes (catName chanName : string) (oldToDelete : list Msg) :
  forall (deleted : nat) (st st' : RunState) (deleted' : nat),
    oldPhase env catName chanName oldToDelete deleted st = (deleted', st') ->
    exists new,
      calls st' = calls st ++ new
      /\ fetched_in new = [] /\ fetched_channels new = [] /\ batch_sizes new = []
      /\ (exists suffix, deleted_in new ++ suffix = oldToDelete)
      /\ ((forall t, env_cancel env t = false) -> cleanupCancelled st = false ->
          deleted_in new = oldToDelete).
Proof.
  induction oldToDelete as [| msg rest IH]; intros deleted st st' deleted' Hrun.
  - cbn in Hrun. inversion Hrun; subst.
    exists []. rewrite app_nil_r. cbn. repeat split; auto. now exists [].
  - cbn [oldPhase] in Hrun.
    destruct (cleanupCancelled st) eqn:Hcancel.
    + inversion Hrun; subst.
      exists []. rewrite app_nil_r. cbn. repeat split; auto;
        [now exists (msg :: rest) | discriminate].
    + set (answer := env_delete env (tick st) msg) in *.
      assert (Hstep : exists st2 d2,
                 oldPhase env catName chanName rest d2 (await env (CSleep 1200) st2)
                 = (deleted', st')
                 /\ calls st2 = calls st ++ [CDeleteOld msg answer]
                 /\ ((forall t, env_cancel env t = false) ->
                     cleanupCancelled (await env (CSleep 1200) st2) = false)).
      { destruct answer as [err |]; do 2 eexists; (split; [exact Hrun |]);
          (split; [reflexivity |]); intros Hno; cbn; now rewrite Hcancel, !Hno. }
      destruct Hstep as (st2 & d2 & Hrest & Hc2 & Hk2).
      apply IH in Hrest.
      destruct Hrest as (new & Hc & Hf & Hch & Hb & (suffix & Hpre) & Hall).
      exists ([CDeleteOld msg answer; CSleep 1200] ++ new).
      split.
      { rewrite Hc. cbn [await calls]. rewrite Hc2, <- !app_assoc. reflexivity. }
      split_trace.
      change (deleted_in [CDeleteOld msg answer; CSleep 1200]) with [msg].
      split; [exact Hf |]. split; [exact Hch |]. split; [exact Hb |].
      split.
      * exists suffix. rewrite <- app_assoc, Hpre. reflexivity.
      * intros Hno _. cbn [app]. f_equal. apply Hall; [exact Hno | exact (Hk2 Hno)].
Qed.

End Deletes.

Section ChannelDeletes.

Variable env : Env.
Variable config : Config.

(** The calls made while a channel is processed: fetches from that channel
    first, then deletes of a prefix of the bulk-deletable messages followed
    by the capped old ones. *)
Lemma processChannel_deletes (dry : bool) (catName : string) (deleteOld : bool)
    (channel : TextChannel) (retention : value) (source : string)
    (st st' : RunState) (r : ChannelResult) :
  processChannel env config dry catName deleteOld channel retention source st
  = (r, st') ->
  exists new,
    calls st' = calls st ++ new
    /\ Forall (fun c => c = tc_id channel) (fetched_channels new)
    /\ Forall (fun n => (2 <= n <= 100)%nat) (batch_sizes new)
    /\ (dry = true -> deleted_in new = [])
    /\ match fst (scanChannel env config deleteOld channel retention st) with
       | Throw _ => deleted_in new = []
       | Ok (bulk, old, _) =>
           (bulk, old)
           = fold_left
               (classify (skipPinned (discord config)) deleteOld
                  (cutoff_of (env_now env (tick st)) retention)
                  (bulkDeleteLimit_of (env_now env (tick st))))
               (fetched_in new) ([], [])
           /\ (exists suffix,
                 deleted_in new ++ suffix
                 = bulk ++ firstn (maxOldDeletesPerChannel (discord config)) old)
           /\ (dry = false -> cooperative env -> cleanupCancelled st = false ->
               deleted_in new
               = bulk ++ firstn (maxOldDeletesPerChannel (discord config)) old)
           /\ (dry = false -> (forall t, env_cancel env t = false) ->
               cleanupCancelled st = false -> is_error r = false ->
               deleted_in new
               = bulk ++ firstn (maxOldDeletesPerChannel (discord config)) old)
       end.
Proof.
  unfold processChannel.
  destruct (scanChannel env config deleteOld channel retention st)
    as [rs st1] eqn:Hscan.
  destruct (scanChannel_trace env config _ _ _ _ _ _ Hscan)
    as (newF & HevF & HallF & HresF).
  pose proof Hscan as Hasks. unfold scanChannel in Hasks.
  destruct (fetchLoop_asks env _ _ _ _ _ _ _ _ _ _ _ _ _ Hasks)
    as (newF' & HcF & HchF & _ & _ & HdF & _).
  assert (newF' = newF).
  { destruct HevF as (Hc & _). rewrite Hc in HcF. now apply app_inv_head in HcF. }
  subst newF'.
  destruct HevF as (_ & _ & _ & _ & _ & _ & _ & HkF).
  cbn [fst].
  destruct rs as [[[bulk old] fetched] | err].
  - destruct HresF as [Hacc _].
    set (maxOld := maxOldDeletesPerChannel (discord config)).
    assert (HchF' : Forall (fun c => c = tc_id channel) (fetched_channels newF))
      by exact HchF.
    assert (HbF : batch_sizes newF = []).
    { clear - HallF. induction newF as [| c rest IH]; [reflexivity |].
      cbn in HallF. apply andb_true_iff in HallF. destruct HallF as [Hc Hrest].
      destruct c; try discriminate Hc. exact (IH Hrest). }
    assert (Hquiet : forall st2 : RunState,
               calls st2 = calls st1 ->
               exists new,
                 calls st2 = calls st ++ new
                 /\ Forall (fun c => c = tc_id channel) (fetched_channels new)
                 /\ Forall (fun n => (2 <= n <= 100)%nat) (batch_sizes new)
                 /\ deleted_in new = []
                 /\ fetched_in new = fetched_in newF).
    { intros st2 H2. exists newF. rewrite H2, HbF. repeat split; auto. }
    destruct (List.length bulk + List.length old =? 0)%nat eqn:Hzero.
    + intros Heq. inversion Heq; subst r st'. clear Heq.
      destruct (Hquiet (log INFO (MNothingToDelete catName (tc_name channel) fetched) st1)
                  eq_refl) as (new & Hc & Hch & Hb & Hd & Hf).
      exists new. split; [exact Hc |]. split; [exact Hch |]. split; [exact Hb |].
      split; [intros _; exact Hd |].
      apply Nat.eqb_eq in Hzero.
      assert (bulk = [] /\ old = []) as [-> ->].
      { destruct bulk, old; cbn in Hzero; try lia. now split. }
      rewrite Hf, Hd. split; [exact Hacc |].
      split; [exists []; now destruct maxOld |].
      split; now destruct maxOld.
    + destruct dry.
      * intros Heq. inversion Heq; subst r st'. clear Heq.
        match goal with
        | |- context [add_purged ?k (log INFO ?m st1)] =>
            destruct (Hquiet (add_purged k (log INFO m st1)) eq_refl)
              as (new & Hc & Hch & Hb & Hd & Hf)
        end.
        exists new. split; [exact Hc |]. split; [exact Hch |]. split; [exact Hb |].
        split; [intros _; exact Hd |].
        rewrite Hf, Hd. split; [exact Hacc |].
        split; [now exists (bulk ++ firstn maxOld old) |].
        split; discriminate.
      * destruct (bulkPhase env (List.length bulk) (tc_id channel) bulk 0 st1)
          as [rb st2] eqn:Hbulk.
        destruct (bulkPhase_deletes env _ _ _ _ _ _ _ (Nat.le_refl _) Hbulk)
          as (newB & HcB & HfB & HchB & HsB & (sufB & HpreB) & HresB).
        destruct (bulkPhase_trace env _ _ _ _ _ _ _ Hbulk) as (newB' & HevB & _).
        assert (HkB : (forall t, env_cancel env t = false) ->
                      cleanupCancelled st2 = cleanupCancelled st1) by apply HevB.
        clear newB' HevB.
        destruct rb as [deleted1 | err].
        -- destruct (oldPhase env catName (tc_name channel) (firstn maxOld old)
                       deleted1 st2) as [deleted st3] eqn:Hold.
           destruct (oldPhase_deletes env _ _ _ _ _ _ _ Hold)
             as (newO & HcO & HfO & HchO & HsO & (sufO & HpreO) & HallO).
           intros Heq. inversion Heq; subst r st'. clear Heq.
           exists (newF ++ newB ++ newO).
           split.
           { cbn [add_purged log calls].
             destruct (maxOld <? List.length old)%nat; cbn [log calls];
               rewrite HcO, HcB, HcF, <- !app_assoc; reflexivity. }
           split_trace. rewrite HchB, HchO, HbF, HsO, HdF, HfB, HfO, HresB, !app_nil_r.
           cbn [app].
           split; [exact HchF |]. split; [exact HsB |]. split; [discriminate |].
           split; [exact Hacc |]. split.
           ++ exists sufO. rewrite <- app_assoc, HpreO. reflexivity.
           ++ split.
              ** intros _ (_ & _ & Hno) Hst. f_equal. apply HallO; [exact Hno |].
                 rewrite (HkB Hno), (HkF Hno). exact Hst.
              ** intros _ Hno Hst _. f_equal. apply HallO; [exact Hno |].
                 rewrite (HkB Hno), (HkF Hno). exact Hst.
        -- intros Heq. unfold channelFailed in Heq. inversion Heq; subst r st'. clear Heq.
           exists (newF ++ newB).
           split.
           { cbn [add_error log calls]. rewrite HcB, HcF, <- !app_assoc. reflexivity. }
           split_trace. rewrite HchB, HbF, HdF, HfB, !app_nil_r. cbn [app].
           split; [exact HchF |]. split; [exact HsB |]. split; [discriminate |].
           split; [exact Hacc |]. split.
           ++ exists (sufB ++ firstn maxOld old). rewrite app_assoc, HpreB. reflexivity.
           ++ split; [| intros _ _ _ Herr; discriminate Herr].
              intros _ (Hdel & Hbd & _) _. exfalso.
              pose proof (bulkPhase_all env (tc_id channel) (List.length bulk)
                            Hdel Hbd bulk 0%nat st1 (Nat.le_refl _)) as Hgood.
              rewrite Hbulk in Hgood. discriminate Hgood.
  - intros Heq. unfold channelFailed in Heq. inversion Heq; subst r st'. clear Heq.
    exists newF. cbn [add_error log calls].
    split; [exact HcF |]. split; [exact HchF |].
    assert (HbF : batch_sizes newF = []).
    { clear - HallF. induction newF as [| c rest IH]; [reflexivity |].
      cbn in HallF. apply andb_true_iff in HallF. destruct HallF as [Hc Hrest].
      destruct c; try discriminate Hc. exact (IH Hrest). }
    rewrite HbF. split; [constructor |]. split; [intros _; exact HdF | exact HdF].
Qed.

End ChannelDeletes.

Lemma firstn_member {A : Type} (n : nat) (l : list A) (x : A) :
  In x (firstn n l) -> In x l.
Proof.
  intros H. rewrite <- (firstn_skipn n l). apply in_or_app. now left.
Qed.

(** X2.  Whatever the store answers, every message handed to a delete call
    while a channel is processed was fetched from the store in that scan,
    is older than the retention cutoff (the retention being an integer
    number of days), and is not pinned when [skipPinned] is on; with
    [deleteOld] off it is also less than 14 days old.  A dry run hands no
    message to any delete call. *)
Theorem only_eligible_deleted (env : Env) (config : Config) (dry : bool)
    (catName : string) (deleteOld : bool) (channel : TextChannel)
    (retention : value) (source : string) (st : RunState) :
  let result := processChannel env config dry catName deleteOld channel
                  retention source st in
  let now := env_now env (tick st) in
  exists new,
    calls (snd result) = calls st ++ new
    /\ (dry = true -> deleted_in new = [])
    /\ forall m, In m (deleted_in new) ->
         In m (fetched_in new)
         /\ (skipPinned (discord config) = true -> pinned m = false)
         /\ (exists days, retention = VInt days /\ createdAt m < now - days * day_ms)
         /\ (deleteOld = false -> age now m < 14 * day_ms).
Proof.
  intros result now.
  destruct result as [r st'] eqn:Hres. subst result.
  destruct (processChannel_deletes env config _ _ _ _ _ _ _ _ _ Hres)
    as (new & Hc & _ & _ & Hdry & Hscan).
  exists new. cbn [snd]. split; [exact Hc |]. split; [exact Hdry |].
  intros m Hm.
  destruct (fst (scanChannel env config deleteOld channel retention st))
    as [[[bulk old] n] | err].
  2:{ rewrite Hscan in Hm. contradiction. }
  destruct Hscan as (Hacc & (suffix & Hpre) & _).
  rewrite classify_fold in Hacc. cbn [app] in Hacc. inversion Hacc as [[Hbulk Hold]].
  assert (Hin : In m bulk \/ In m old).
  { assert (H : In m (deleted_in new ++ suffix)) by (apply in_or_app; now left).
    rewrite Hpre in H. apply in_app_or in H. destruct H as [H | H]; [now left |].
    right. exact (firstn_member _ _ _ H). }
  fold now in Hbulk, Hold.
  assert (Hfacts : In m (fetched_in new)
                   /\ eligible (skipPinned (discord config))
                        (cutoff_of now retention) m = true
                   /\ (deleteOld = false -> age now m < 14 * day_ms)).
  { destruct Hin as [H | H]; [rewrite Hbulk in H | rewrite Hold in H];
      apply filter_In in H; destruct H as [Hf Hp].
    - apply andb_true_iff in Hp. destruct Hp as [He Hside].
      split; [exact Hf |]. split; [exact He |]. intros _. now apply bulk_side.
    - apply andb_true_iff in Hp. destruct Hp as [Hp Hd].
      apply andb_true_iff in Hp. destruct Hp as [He _].
      split; [exact Hf |]. split; [exact He |]. intros ->. discriminate Hd. }
  destruct Hfacts as (Hf & He & Hd).
  unfold eligible in He. apply andb_true_iff in He. destruct He as [Hpin Hcut].
  split; [exact Hf |]. split; [| split; [| exact Hd]].
  - intros Hskip. rewrite Hskip, andb_true_r in Hpin.
    now destruct (pinned m).
  - unfold before_cutoff, cutoff_of in Hcut.
    destruct retention as [| | b | days | x | s |]; try discriminate Hcut.
    exists days. split; [reflexivity |]. now apply Z.ltb_lt.
Qed.

(** X3.  In a live run, the messages handed to delete calls are, in order, a
    prefix of the bulk-deletable messages found followed by the first
    [maxOldDeletesPerChannel] old ones: never a message twice, never out of
    order; every batch call carries 2 to 100 messages.  On a store whose
    deletes succeed, with no cancellation, they are exactly these
    messages. *)
Theorem deletes_follow_the_scan (env : Env) (config : Config) (catName : string)
    (deleteOld : bool) (channel : TextChannel) (retention : value) (source : string)
    (st st1 : RunState) (bulk old : list Msg) (n : nat) :
  scanChannel env config deleteOld channel retention st = (Ok (bulk, old, n), st1) ->
  let result := processChannel env config false catName deleteOld channel
                  retention source st in
  let planned := bulk ++ firstn (maxOldDeletesPerChannel (discord config)) old in
  exists new,
    calls (snd result) = calls st ++ new
    /\ (exists suffix, deleted_in new ++ suffix = planned)
    /\ Forall (fun size => (2 <= size <= 100)%nat) (batch_sizes new)
    /\ (cooperative env -> cleanupCancelled st = false -> deleted_in new = planned).
Proof.
  intros Hscan result planned.
  destruct result as [r st'] eqn:Hres. subst result.
  destruct (processChannel_deletes env config _ _ _ _ _ _ _ _ _ Hres)
    as (new & Hc & _ & Hb & _ & Hcase).
  rewrite Hscan in Hcase. cbn [fst] in Hcase.
  destruct Hcase as (_ & Hpre & Hall & _).
  exists new. cbn [snd]. split; [exact Hc |]. split; [exact Hpre |].
  split; [exact Hb |]. intros Hcoop Hst. exact (Hall eq_refl Hcoop Hst).
Qed.

Lemma deletes_follow_the_scan_witness :
  exists new,
    calls (snd (processChannel (Samples.store Samples.mix []) Samples.config_ok false
                  "logs" true Samples.general (VInt 7) "category" initialRunState))
    = [] ++ new
    /\ List.length (deleted_in new) = 110%nat.
Proof.
  assert (Hscan :
            scanChannel (Samples.store Samples.mix []) Samples.config_ok true
              Samples.general (VInt 7) initialRunState
            = (Ok (Samples.messages 90 1000 (8 * Samples.day),
                   Samples.messages 30 2000 (20 * Samples.day), 120%nat),
               snd (scanChannel (Samples.store Samples.mix []) Samples.config_ok true
                      Samples.general (VInt 7) initialRunState))).
  { vm_compute. reflexivity. }
  destruct (deletes_follow_the_scan (Samples.store Samples.mix []) Samples.config_ok
              "logs" true Samples.general (VInt 7) "category" initialRunState
              _ _ _ _ Hscan) as (new & Hc & _ & _ & Hall).
  exists new. split; [exact Hc |].
  rewrite (Hall (cooperative_store Samples.mix) eq_refl). vm_compute. reflexivity.
Defined.

(** ** Which channels a run touches *)

Lemma map_push_members {A : Type} (m : list (string * list A)) (k : string) (v : A)
    (k' : string) (vs : list A) (x : A) :
  In (k', vs) (map_push m k v) -> In x vs ->
  (exists vs0, In (k', vs0) m /\ In x vs0) \/ (k' = k /\ x = v).
Proof.
  induction m as [| [k0 vs0] rest IH]; cbn [map_push]; intros Hin Hx.
  - destruct Hin as [Heq | []]. inversion Heq; subst.
    destruct Hx as [-> | []]. now right.
  - destruct (String.eqb k0 k) eqn:Hk.
    + apply String.eqb_eq in Hk. subst k0.
      destruct Hin as [Heq | Hin].
      * inversion Heq; subst. apply in_app_or in Hx.
        destruct Hx as [Hx | [-> | []]].
        -- left. exists vs0. split; [now left | exact Hx].
        -- now right.
      * left. exists vs. split; [now right | exact Hx].
    + destruct Hin as [Heq | Hin].
      * inversion Heq; subst. left. exists vs. split; [now left | exact Hx].
      * destruct (IH Hin Hx) as [(vs1 & H1 & H2) | H]; [| now right].
        left. exists vs1. split; [now right | exact H2].
Qed.

Lemma categoryChannelMap_members (textChannels : list TextChannel) (catName : string)
    (channels : list TextChannel) (c : TextChannel) :
  In (catName, channels) (categoryChannelMap_of textChannels) -> In c channels ->
  In c textChannels /\ tc_category c = Some catName.
Proof.
  unfold categoryChannelMap_of.
  assert (Hgen : forall tcs m,
             In (catName, channels)
               (fold_left (fun m channel =>
                             match tc_category channel with
                             | None => m
                             | Some category => map_push m category channel
                             end) tcs m) ->
             In c channels ->
             (exists vs0, In (catName, vs0) m /\ In c vs0)
             \/ (In c tcs /\ tc_category c = Some catName)).
  { induction tcs as [| t rest IH]; cbn [fold_left]; intros m Hin Hc.
    - left. now exists channels.
    - destruct (IH _ Hin Hc) as [(vs0 & H1 & H2) | [H1 H2]].
      + destruct (tc_category t) as [category |] eqn:Hcat.
        * destruct (map_push_members _ _ _ _ _ _ H1 H2) as [H | [-> ->]].
          -- now left.
          -- right. split; [now left | exact Hcat].
        * left. now exists vs0.
      + right. split; [now right | exact H2]. }
  intros Hin Hc. destruct (Hgen _ _ Hin Hc) as [(vs0 & [] & _) | H]. exact H.
Qed.

Section RunTouches.

Variable env : Env.
Variable config : Config.
Variable effectiveDryRun : bool.
Variable categoryFilter channelFilter : option string.

Lemma processChannel_touches (catName : string) (deleteOld : bool)
    (channel : TextChannel) (retention : value) (source : string)
    (st st' : RunState) (r : ChannelResult) :
  processChannel env config effectiveDryRun catName deleteOld channel retention source st
  = (r, st') ->
  exists new,
    calls st' = calls st ++ new
    /\ (forall id, In id (fetched_channels new) -> id = tc_id channel)
    /\ (forall m, In m (deleted_in new) -> In m (fetched_in new))
    /\ (effectiveDryRun = true -> deleted_in new = []).
Proof.
  intros Hres.
  destruct (processChannel_deletes env config _ _ _ _ _ _ _ _ _ Hres)
    as (new & Hc & Hf & _ & Hdry & Hscan).
  exists new. split; [exact Hc |]. split; [| split; [| exact Hdry]].
  - intros id Hid. rewrite Forall_forall in Hf. exact (Hf id Hid).
  - intros m Hm.
    destruct (fst (scanChannel env config deleteOld channel retention st))
      as [[[bulk old] n] | err].
    2:{ rewrite Hscan in Hm. contradiction. }
    destruct Hscan as (Hacc & (suffix & Hpre) & _).
    rewrite classify_fold in Hacc. cbn [app] in Hacc. inversion Hacc as [[Hbulk Hold]].
    assert (H : In m (deleted_in new ++ suffix)) by (apply in_or_app; now left).
    rewrite Hpre in H. apply in_app_or in H.
    destruct H as [H | H]; [| apply firstn_member in H];
      [rewrite Hbulk in H | rewrite Hold in H]; apply filter_In in H; tauto.
Qed.

Lemma channelLoop_touches (catName : string) (deleteOld : bool)
    (allowedCount : nat) (channels : list TextChannel) :
  isEnabled config catName = true ->
  filtered_out categoryFilter catName = false ->
  forall (results : list ChannelResult) (catErrors : bool) (index : nat)
         (st : RunState),
  exists new,
    calls (snd (channelLoop env config effectiveDryRun channelFilter catName deleteOld
                  (getConfiguredChannels config catName) allowedCount channels
                  results catErrors index st))
    = calls st ++ new
    /\ (forall id, In id (fetched_channels new) ->
          exists c, In c channels /\ tc_id c = id
                    /\ cleanable config categoryFilter channelFilter catName c)
    /\ (forall m, In m (deleted_in new) -> In m (fetched_in new))
    /\ (effectiveDryRun = true -> deleted_in new = []).
Proof.
  intros Hen Hcat.
  assert (Hnil : forall st : RunState,
             exists new : list Call,
               calls st = calls st ++ new
               /\ (forall id, In id (fetched_channels new) ->
                     exists c, In c (@nil TextChannel) /\ tc_id c = id
                       /\ cleanable config categoryFilter channelFilter catName c)
               /\ (forall m, In m (deleted_in new) -> In m (fetched_in new))
               /\ (effectiveDryRun = true -> deleted_in new = [])).
  { intros st. exists []. rewrite app_nil_r. cbn. tauto. }
  assert (Hweaken : forall (channel : TextChannel) rest (st0 st1 : RunState),
             calls st0 = calls st1 ->
             forall stF : RunState,
             (exists new,
                 calls stF = calls st0 ++ new
                 /\ (forall id, In id (fetched_channels new) ->
                       exists c, In c rest /\ tc_id c = id
                         /\ cleanable config categoryFilter channelFilter catName c)
                 /\ (forall m, In m (deleted_in new) -> In m (fetched_in new))
                 /\ (effectiveDryRun = true -> deleted_in new = [])) ->
             exists new,
               calls stF = calls st1 ++ new
               /\ (forall id, In id (fetched_channels new) ->
                     exists c, In c (channel :: rest) /\ tc_id c = id
                       /\ cleanable config categoryFilter channelFilter catName c)
               /\ (forall m, In m (deleted_in new) -> In m (fetched_in new))
               /\ (effectiveDryRun = true -> deleted_in new = [])).
  { intros channel rest st0 st1 Heq stF (new & Hc & Hf & Hd & Hdry).
    exists new. rewrite <- Heq. split; [exact Hc |]. split; [| tauto].
    intros id Hid. destruct (Hf id Hid) as (c & Hin & Hrest).
    exists c. split; [now right | exact Hrest]. }
  induction channels as [| channel rest IH]; intros results catErrors index st.
  - cbn [channelLoop snd]. apply Hnil.
  - cbn [channelLoop].
    destruct (cleanupCancelled st).
    { cbn [snd]. exists []. rewrite app_nil_r. cbn. tauto. }
    destruct (has_name (getConfiguredChannels config catName) (tc_name channel))
      eqn:Hallowed; cbn [negb].
    2:{ apply (Hweaken channel rest (add_skipped 1 st) st eq_refl). apply IH. }
    destruct (filtered_out channelFilter (tc_name channel)) eqn:Hfilter.
    { apply (Hweaken channel rest st st eq_refl). apply IH. }
    destruct (getRetention config catName (tc_name channel)) as [retention warnings]
      eqn:Hret.
    destruct (is_never retention) eqn:Hnever.
    { eapply (Hweaken channel rest _ st); [| apply IH]. reflexivity. }
    set (st2 := logs warnings
                  (log INFO (MScanning catName (tc_name channel) (S index) allowedCount)
                     (add_processed st))).
    destruct (processChannel env config effectiveDryRun catName deleteOld channel
                retention (getRetentionSource config catName (tc_name channel)) st2)
      as [result st3] eqn:Hres.
    destruct (processChannel_touches _ _ _ _ _ _ _ _ Hres)
      as (new1 & Hc1 & Hf1 & Hd1 & Hdry1).
    destruct (IH (results ++ [result]) (catErrors || is_error result) (S index)
                (await env (CSleep (delayBetweenChannels (discord config))) st3))
      as (new2 & Hc2 & Hf2 & Hd2 & Hdry2).
    exists (new1 ++ [CSleep (delayBetweenChannels (discord config))] ++ new2).
    split; [| split; [| split]].
    + rewrite Hc2. cbn [await calls]. rewrite Hc1. subst st2. cbn [logs log add_processed calls].
      now rewrite <- !app_assoc.
    + intros id Hid. split_trace_in Hid.
      apply in_app_or in Hid. destruct Hid as [Hid | Hid].
      * exists channel. split; [now left |]. split; [symmetry; exact (Hf1 id Hid) |].
        unfold cleanable. rewrite Hret. cbn [fst]. tauto.
      * change (fetched_channels [CSleep (delayBetweenChannels (discord config))])
          with (@nil nat) in Hid. cbn [app] in Hid.
        destruct (Hf2 id Hid) as (c & Hin & Hrest).
        exists c. split; [now right | exact Hrest].
    + intros m Hm. split_trace_in Hm. split_trace.
      change (deleted_in [CSleep (delayBetweenChannels (discord config))])
        with (@nil Msg) in Hm.
      change (fetched_in [CSleep (delayBetweenChannels (discord config))])
        with (@nil Msg).
      cbn [app] in Hm |- *. apply in_or_app. apply in_app_or in Hm.
      destruct Hm as [Hm | Hm]; [left; now apply Hd1 | right; now apply Hd2].
    + intros Hdry. split_trace.
      change (deleted_in [CSleep (delayBetweenChannels (discord config))])
        with (@nil Msg).
      now rewrite (Hdry1 Hdry), (Hdry2 Hdry).
Qed.

End RunTouches.

Section RunTouchesCategories.

Variable env : Env.
Variable config : Config.
Variable effectiveDryRun : bool.
Variable categoryFilter channelFilter : option string.

Lemma categoryLoop_touches (cats : list (string * list TextChannel)) :
  forall (categoryStats : list (string * CategoryStats)) (embeds : list string)
         (st : RunState),
  exists new,
    calls (snd (categoryLoop env config effectiveDryRun categoryFilter channelFilter
                  cats categoryStats embeds st))
    = calls st ++ new
    /\ (forall id, In id (fetched_channels new) ->
          exists catName channels c,
            In (catName, channels) cats /\ In c channels /\ tc_id c = id
            /\ cleanable config categoryFilter channelFilter catName c)
    /\ (forall m, In m (deleted_in new) -> In m (fetched_in new))
    /\ (effectiveDryRun = true -> deleted_in new = []).
Proof.
  assert (Hweaken : forall (cat : string * list TextChannel) rest (st0 st1 : RunState),
             calls st0 = calls st1 ->
             forall stF : RunState,
             (exists new,
                 calls stF = calls st0 ++ new
                 /\ (forall id, In id (fetched_channels new) ->
                       exists catName channels c,
                         In (catName, channels) rest /\ In c channels /\ tc_id c = id
                         /\ cleanable config categoryFilter channelFilter catName c)
                 /\ (forall m, In m (deleted_in new) -> In m (fetched_in new))
                 /\ (effectiveDryRun = true -> deleted_in new = [])) ->
             exists new,
               calls stF = calls st1 ++ new
               /\ (forall id, In id (fetched_channels new) ->
                     exists catName channels c,
                       In (catName, channels) (cat :: rest) /\ In c channels
                       /\ tc_id c = id
                       /\ cleanable config categoryFilter channelFilter catName c)
               /\ (forall m, In m (deleted_in new) -> In m (fetched_in new))
               /\ (effectiveDryRun = true -> deleted_in new = [])).
  { intros cat rest st0 st1 Heq stF (new & Hc & Hf & Hd & Hdry).
    exists new. rewrite <- Heq. split; [exact Hc |]. split; [| tauto].
    intros id Hid. destruct (Hf id Hid) as (catName & channels & c & Hin & Hrest).
    exists catName, channels, c. split; [now right | exact Hrest]. }
  induction cats as [| [catName channels] rest IH]; intros categoryStats embeds st.
  - cbn [categoryLoop snd]. exists []. rewrite app_nil_r. cbn. tauto.
  - cbn [categoryLoop].
    destruct (cleanupCancelled st).
    { cbn [snd log calls]. exists []. rewrite app_nil_r. cbn. tauto. }
    destruct (isEnabled config catName) eqn:Hen; cbn [negb].
    2:{ apply (Hweaken (catName, channels) rest
                 (add_skipped (List.length channels) st) st eq_refl). apply IH. }
    destruct (filtered_out categoryFilter catName) eqn:Hcat.
    { apply (Hweaken (catName, channels) rest st st eq_refl). apply IH. }
    set (deleteOld := match lookup_category (categories config) catName with
                      | Some cat => not_false (cat_deleteOld cat)
                      | None => true
                      end).
    set (allowedCount :=
           List.length (filter (fun c => has_name (getConfiguredChannels config catName)
                                           (tc_name c)) channels)).
    destruct (channelLoop_touches env config effectiveDryRun categoryFilter
                channelFilter catName deleteOld allowedCount channels Hen Hcat
                [] false O (log INFO (MProcessing catName allowedCount) st))
      as (new1 & Hc1 & Hf1 & Hd1 & Hdry1).
    destruct (channelLoop env config effectiveDryRun channelFilter catName deleteOld
                (getConfiguredChannels config catName) allowedCount channels
                [] false O (log INFO (MProcessing catName allowedCount) st))
      as [[channelResults catErrors] st2].
    cbn [snd] in Hc1.
    match goal with
    | |- context [categoryLoop _ _ _ _ _ rest ?cs ?em st2] =>
        destruct (IH cs em st2) as (new2 & Hc2 & Hf2 & Hd2 & Hdry2)
    end.
    exists (new1 ++ new2). split; [| split; [| split]].
    + rewrite Hc2, Hc1. cbn [log calls]. now rewrite app_assoc.
    + intros id Hid. split_trace_in Hid. apply in_app_or in Hid.
      destruct Hid as [Hid | Hid].
      * destruct (Hf1 id Hid) as (c & Hin & Hrest).
        exists catName, channels, c. split; [now left |]. split; [exact Hin | exact Hrest].
      * destruct (Hf2 id Hid) as (catName' & channels' & c & Hin & Hrest).
        exists catName', channels', c. split; [now right | exact Hrest].
    + intros m Hm. split_trace_in Hm. split_trace.
      apply in_or_app. apply in_app_or in Hm.
      destruct Hm as [Hm | Hm]; [left; now apply Hd1 | right; now apply Hd2].
    + intros Hdry. split_trace. now rewrite (Hdry1 Hdry), (Hdry2 Hdry).
Qed.

End RunTouchesCategories.

Lemma autoDiscoverChannels_settings (locale_lt : string -> string -> bool)
    (textChannels : list TextChannel) (config : Config) :
  let config' := fst (fst (fst (autoDiscoverChannels locale_lt textChannels config))) in
  globalDefault config' = globalDefault config
  /\ dryRun config' = dryRun config
  /\ discord config' = discord config
  /\ webhookInfo config' = webhookInfo config.
Proof.
  unfold autoDiscoverChannels.
  destruct (fold_left _ (discoveredMap_of textChannels) (categories config, O, []))
    as [[cats changes] lines].
  destruct ((0 <? changes)%nat || negb (discoveryComplete config)); cbn; tauto.
Qed.

(** X4.  Whatever the store answers, a cleanup run fetches messages only
    from text channels of the guild that, in the configuration the run
    leaves behind, belong to an enabled category passing the category
    filter, are on the category's [_channels] list, pass the channel filter
    and have a retention other than -1.  Every message it hands to a delete
    call was handed out by one of these fetches, and a run that is not
    forced live deletes nothing when [dryRun] is configured or forced. *)
Theorem run_touches_only_cleanable (options : Options) (w : Outside) (p : Process) :
  let result := runCleanup options w p in
  let config' := p_config (snd result) in
  exists new,
    p_calls (snd result) = p_calls p ++ new
    /\ (forall id, In id (fetched_channels new) ->
          exists textChannels c catName,
            o_guild w = Some textChannels /\ In c textChannels /\ tc_id c = id
            /\ tc_category c = Some catName
            /\ cleanable config' (categoryFilter options) (channelFilter options)
                 catName c)
    /\ (forall m, In m (deleted_in new) -> In m (fetched_in new))
    /\ (forceLive options = false ->
        dryRun config' || forceDryRun options = true -> deleted_in new = []).
Proof.
  intros result config'. subst config' result. unfold runCleanup.
  destruct (p_cleanupRunning p).
  { cbn [snd p_calls]. exists []. rewrite app_nil_r. cbn. tauto. }
  set (loaded := match o_disk w with
                 | Some parsed => loadConfig parsed
                 | None => (p_config p, [(ERROR, MReloadFailed)])
                 end).
  destruct loaded as [config lines] eqn:Hloaded.
  destruct (o_guild w) as [textChannels |] eqn:Hguild.
  2:{ cbn [snd p_calls]. exists []. rewrite app_nil_r. cbn. tauto. }
  destruct (o_channelsFetch w) as [err |].
  { cbn [snd p_calls]. exists [CChannelsFetch]. cbn. tauto. }
  pose proof (autoDiscoverChannels_settings (o_locale_lt w) textChannels config)
    as Hsettings.
  destruct (autoDiscoverChannels (o_locale_lt w) textChannels config)
    as [[[config1 changes] lines2] written].
  cbn [fst] in Hsettings. destruct Hsettings as (_ & Hdry1 & _ & _).
  set (effectiveDryRun := if forceLive options then false
                          else dryRun config || forceDryRun options).
  set (st1 := if written && discoveryComplete config && (0 <? changes)%nat
                 && webhookInfo config1
              then await (o_env w) CNotifyDiscovery
                     (await (o_env w) CChannelsFetch initialRunState)
              else await (o_env w) CChannelsFetch initialRunState).
  destruct (categoryLoop_touches (o_env w) config1 effectiveDryRun
              (categoryFilter options) (channelFilter options)
              (categoryChannelMap_of textChannels) [] [] st1)
    as (new & Hc & Hf & Hd & Hdry).
  destruct (categoryLoop (o_env w) config1 effectiveDryRun (categoryFilter options)
              (channelFilter options) (categoryChannelMap_of textChannels) [] [] st1)
    as [[categoryStats embeds] st2].
  cbn [snd p_config] in Hc |- *.
  assert (Hst1 : exists pre, calls st1 = pre /\ fetched_channels pre = []
                             /\ deleted_in pre = []).
  { subst st1. destruct (written && discoveryComplete config && (0 <? changes)%nat
                         && webhookInfo config1);
      eexists; (split; [reflexivity | split; reflexivity]). }
  destruct Hst1 as (pre & Hpre & Hpf & Hpd).
  match goal with
  | |- context [p_calls (mkProcess _ _ _ _ _ _ (_ ++ calls ?s))] => set (st4 := s)
  end.
  assert (Hst4 : exists tail, calls st4 = calls st2 ++ tail
                              /\ fetched_channels tail = [] /\ fetched_in tail = []
                              /\ deleted_in tail = []).
  { subst st4. destruct embeds as [| e embeds].
    - exists []. now rewrite app_nil_r.
    - eexists. cbn [await log calls]. repeat split. }
  destruct Hst4 as (tail & Htail & Htf & Hti & Htd). clearbody st4.
  cbn [p_calls].
  exists (pre ++ new ++ tail). split; [| split; [| split]].
  - rewrite Htail, Hc, Hpre. now rewrite <- !app_assoc.
  - intros id Hid. split_trace_in Hid. rewrite Hpf, Htf, app_nil_r in Hid.
    cbn [app] in Hid.
    destruct (Hf id Hid) as (catName & channels & c & Hin & Hc' & Hid' & Hclean).
    destruct (categoryChannelMap_members _ _ _ _ Hin Hc') as [Htc Hparent].
    exists textChannels, c, catName. tauto.
  - intros m Hm. split_trace_in Hm. rewrite Hpd, Htd, app_nil_r in Hm.
    cbn [app] in Hm.
    split_trace. apply in_or_app. right. apply in_or_app. left. now apply Hd.
  - intros Hlive Hd'. split_trace. rewrite Hpd, Htd, app_nil_r. cbn [app].
    apply Hdry. subst effectiveDryRun. rewrite Hlive, <- Hdry1. exact Hd'.
Qed.

(** ** The totals of a run *)

Lemma list_sum_cons (x : nat) (l : list nat) :
  list_sum (x :: l) = (x + list_sum l)%nat.
Proof. reflexivity. Qed.

Lemma sum_purged_list_sum (rs : list ChannelResult) :
  sum_purged rs = list_sum (map cr_purged rs).
Proof.
  unfold sum_purged.
  assert (Hgen : forall acc,
             fold_left (fun sum ch => (sum + cr_purged ch)%nat) rs acc
             = (acc + list_sum (map cr_purged rs))%nat).
  { induction rs as [| r rest IH]; intros acc; cbn [fold_left map].
    - cbn. lia.
    - rewrite IH, list_sum_cons. lia. }
  now rewrite Hgen.
Qed.

Lemma obj_set_fresh {A : Type} (o : list (string * A)) (k : string) (v : A) :
  ~ In k (map fst o) -> obj_set o k v = o ++ [(k, v)].
Proof.
  induction o as [| [k' v'] rest IH]; cbn [obj_set map fst In app]; intros Hfresh.
  - reflexivity.
  - destruct (String.eqb_spec k' k) as [-> | Hne].
    + exfalso. apply Hfresh. now left.
    + rewrite IH; [reflexivity |]. intros Hin. apply Hfresh. now right.
Qed.

Lemma categoryChannelMap_nodup (textChannels : list TextChannel) :
  NoDup (map fst (categoryChannelMap_of textChannels)).
Proof.
  unfold categoryChannelMap_of.
  assert (Hgen : forall m : list (string * list TextChannel),
             NoDup (map fst m) ->
             NoDup (map fst (fold_left
                               (fun m channel =>
                                  match tc_category channel with
                                  | None => m
                                  | Some category => map_push m category channel
                                  end) textChannels m))).
  { induction textChannels as [| t rest IH]; intros m Hnd; cbn [fold_left].
    - exact Hnd.
    - apply IH. destruct (tc_category t); [now apply map_push_nodup | exact Hnd]. }
  apply Hgen. constructor.
Qed.

Section Totals.

Variable env : Env.
Variable config : Config.
Variable effectiveDryRun : bool.
Variable categoryFilter channelFilter : option string.

Lemma processChannel_counts (catName : string) (deleteOld : bool)
    (channel : TextChannel) (retention : value) (source : string) (st : RunState) :
  let result := processChannel env config effectiveDryRun catName deleteOld channel
                  retention source st in
  totalProcessed (snd result) = totalProcessed st
  /\ totalSkipped (snd result) = totalSkipped st
  /\ totalPurged (snd result) = (totalPurged st + cr_purged (fst result))%nat
  /\ totalErrors (snd result)
     = (totalErrors st + (if is_error (fst result) then 1 else 0))%nat.
Proof.
  intros result. destruct result as [r st'] eqn:Hres. subst result.
  destruct (processChannel_cases env config _ _ _ _ _ _ _ _ _ Hres)
    as (new & lines & _ & Hp & Hs & _ & _ & Hcase).
  cbn [fst snd]. split; [exact Hp |]. split; [exact Hs |].
  destruct Hcase as [(err & -> & _ & He & Hu & _)
                    | (b & o & f & t & n & _ & -> & _ & He & Hu & _)];
    cbn [cr_purged is_error]; lia.
Qed.

Lemma channelLoop_counts (catName : string) (deleteOld : bool)
    (allowed : list string) (allowedCount : nat) (channels : list TextChannel) :
  forall (results : list ChannelResult) (catErrors : bool) (index : nat)
         (st : RunState),
  let result := channelLoop env config effectiveDryRun channelFilter catName deleteOld
                  allowed allowedCount channels results catErrors index st in
  exists added,
    fst (fst result) = results ++ added
    /\ totalProcessed (snd result) = (totalProcessed st + List.length added)%nat
    /\ totalPurged (snd result)
       = (totalPurged st + list_sum (map cr_purged added))%nat
    /\ totalErrors (snd result)
       = (totalErrors st + List.length (filter is_error added))%nat.
Proof.
  induction channels as [| channel rest IH]; intros results catErrors index st.
  - cbn. exists []. rewrite app_nil_r. cbn. repeat split; try reflexivity; lia.
  - cbn [channelLoop].
    destruct (cleanupCancelled st).
    { cbn. exists []. rewrite app_nil_r. cbn. repeat split; try reflexivity; lia. }
    destruct (has_name allowed (tc_name channel)); cbn [negb].
    2:{ destruct (IH results catErrors index (add_skipped 1 st))
          as (added & H1 & H2 & H3 & H4).
        exists added. cbn [add_skipped totalProcessed totalPurged totalErrors] in *.
        tauto. }
    destruct (filtered_out channelFilter (tc_name channel)).
    { apply IH. }
    destruct (getRetention config catName (tc_name channel)) as [retention warnings].
    set (st2 := logs warnings
                  (log INFO (MScanning catName (tc_name channel) (S index) allowedCount)
                     (add_processed st))).
    assert (Hst2 : totalProcessed st2 = S (totalProcessed st)
                   /\ totalPurged st2 = totalPurged st
                   /\ totalErrors st2 = totalErrors st).
    { subst st2. cbn. tauto. }
    destruct Hst2 as (Hp2 & Hu2 & He2). clearbody st2.
    destruct (is_never retention).
    + destruct (IH (results ++ [CRSkipped (tc_name channel)]) catErrors (S index) st2)
        as (added & H1 & H2 & H3 & H4).
      exists (CRSkipped (tc_name channel) :: added).
      rewrite H1, H2, H3, H4, Hp2, Hu2, He2, <- app_assoc.
      cbn [app List.length map cr_purged filter is_error]. rewrite ?list_sum_cons.
      repeat split; try reflexivity; lia.
    + pose proof (processChannel_counts catName deleteOld channel retention
                    (getRetentionSource config catName (tc_name channel)) st2)
        as Hcounts.
      destruct (processChannel env config effectiveDryRun catName deleteOld channel
                  retention (getRetentionSource config catName (tc_name channel)) st2)
        as [r st3].
      cbn [fst snd] in Hcounts. destruct Hcounts as (Hp3 & _ & Hu3 & He3).
      destruct (IH (results ++ [r]) (catErrors || is_error r) (S index)
                  (await env (CSleep (delayBetweenChannels (discord config))) st3))
        as (added & H1 & H2 & H3 & H4).
      exists (r :: added).
      rewrite H1, H2, H3, H4, <- app_assoc.
      cbn [await totalProcessed totalPurged totalErrors].
      rewrite Hp3, Hu3, He3, Hp2, Hu2, He2.
      cbn [app List.length map filter]. rewrite ?list_sum_cons.
      destruct (is_error r); cbn [List.length]; repeat split; try reflexivity; lia.
Qed.

Lemma total_of_app (f : CategoryStats -> nat) (a b : list (string * CategoryStats)) :
  total_of f (a ++ b) = (total_of f a + total_of f b)%nat.
Proof. unfold total_of. now rewrite map_app, list_sum_app. Qed.

Lemma total_of_one (f : CategoryStats -> nat) (k : string) (cs : CategoryStats) :
  total_of f [(k, cs)] = f cs.
Proof. unfold total_of. cbn. lia. Qed.

Lemma categoryLoop_counts (cats : list (string * list TextChannel)) :
  NoDup (map fst cats) ->
  forall (categoryStats : list (string * CategoryStats)) (embeds : list string)
         (st : RunState),
  (forall k, In k (map fst cats) -> ~ In k (map fst categoryStats)) ->
  let result := categoryLoop env config effectiveDryRun categoryFilter channelFilter
                  cats categoryStats embeds st in
  exists added,
    fst (fst result) = categoryStats ++ added
    /\ (forall k, In k (map fst added) ->
          In k (map fst cats) /\ isEnabled config k = true)
    /\ NoDup (map fst added)
    /\ totalProcessed (snd result) = (totalProcessed st + total_of cs_processed added)%nat
    /\ totalPurged (snd result) = (totalPurged st + total_of cs_purged added)%nat
    /\ totalErrors (snd result) = (totalErrors st + total_of failed_channels added)%nat.
Proof.
  induction cats as [| [catName channels] rest IH];
    intros Hnd categoryStats embeds st Hfresh.
  - cbn. exists []. rewrite app_nil_r. cbn. repeat split; try lia; try tauto; try constructor.
  - cbn [map fst] in Hnd. inversion Hnd as [| ? ? Hhead Hrest]; subst.
    assert (Hskip : forall st0 : RunState,
               totalProcessed st0 = totalProcessed st ->
               totalPurged st0 = totalPurged st ->
               totalErrors st0 = totalErrors st ->
               let result := categoryLoop env config effectiveDryRun categoryFilter
                               channelFilter rest categoryStats embeds st0 in
               exists added,
                 fst (fst result) = categoryStats ++ added
                 /\ (forall k, In k (map fst added) ->
                       In k (map fst ((catName, channels) :: rest))
                       /\ isEnabled config k = true)
                 /\ NoDup (map fst added)
                 /\ totalProcessed (snd result)
                    = (totalProcessed st + total_of cs_processed added)%nat
                 /\ totalPurged (snd result)
                    = (totalPurged st + total_of cs_purged added)%nat
                 /\ totalErrors (snd result)
                    = (totalErrors st + total_of failed_channels added)%nat).
    { intros st0 Hp Hu He.
      destruct (IH Hrest categoryStats embeds st0) as (added & H1 & H2 & H3 & H4 & H5 & H6).
      { intros k Hk. apply Hfresh. now right. }
      exists added. rewrite <- Hp, <- Hu, <- He.
      split; [exact H1 |]. split; [| tauto].
      intros k Hk. destruct (H2 k Hk). split; [now right | assumption]. }
    cbn [categoryLoop].
    destruct (cleanupCancelled st).
    { cbn. exists []. rewrite app_nil_r. cbn. repeat split; try lia; try tauto; try constructor. }
    destruct (isEnabled config catName) eqn:Hen; cbn [negb].
    2:{ apply Hskip; reflexivity. }
    destruct (filtered_out categoryFilter catName).
    { apply Hskip; reflexivity. }
    set (deleteOld := match lookup_category (categories config) catName with
                      | Some cat => not_false (cat_deleteOld cat)
                      | None => true
                      end).
    set (allowedCount :=
           List.length (filter (fun c => has_name (getConfiguredChannels config catName)
                                           (tc_name c)) channels)).
    destruct (channelLoop_counts catName deleteOld
                (getConfiguredChannels config catName) allowedCount channels
                [] false O (log INFO (MProcessing catName allowedCount) st))
      as (results & Hr1 & Hr2 & Hr3 & Hr4).
    destruct (channelLoop env config effectiveDryRun channelFilter catName deleteOld
                (getConfiguredChannels config catName) allowedCount channels
                [] false O (log INFO (MProcessing catName allowedCount) st))
      as [[channelResults catErrors] st2].
    cbn [fst snd app log totalProcessed totalPurged totalErrors] in Hr1, Hr2, Hr3, Hr4.
    subst channelResults.
    set (stats := mkCategoryStats (List.length results) (sum_purged results)
                    (List.length (filter cr_has_error results)) results).
    rewrite (obj_set_fresh categoryStats catName stats)
      by (apply Hfresh; now left).
    match goal with
    | |- context [categoryLoop _ _ _ _ _ rest ?cs ?em st2] =>
        destruct (IH Hrest cs em st2) as (added & H1 & H2 & H3 & H4 & H5 & H6)
    end.
    { intros k Hk. rewrite map_app. cbn [map fst]. intros Hin.
      apply in_app_or in Hin. destruct Hin as [Hin | [<- | []]].
      - apply (Hfresh k); [now right | exact Hin].
      - contradiction. }
    exists ((catName, stats) :: added).
    rewrite H1, H4, H5, H6, <- app_assoc. cbn [app map fst].
    split; [reflexivity |]. split; [| split].
    + intros k [<- | Hk]; [split; [now left | exact Hen] |].
      destruct (H2 k Hk). split; [now right | assumption].
    + constructor; [| exact H3]. intros Hin. apply Hhead. now apply H2.
    + change ((catName, stats) :: added) with ([(catName, stats)] ++ added).
      rewrite !total_of_app, !total_of_one.
      change (failed_channels stats) with (List.length (filter is_error results)).
      subst stats.
      cbn [cs_processed cs_purged cs_channels].
      rewrite sum_purged_list_sum, Hr2, Hr3, Hr4. repeat split; try reflexivity; lia.
Qed.

End Totals.

Lemma obj_set_members {A : Type} (o : list (string * A)) (k : string) (v : A)
    (entry : string * A) :
  In entry (obj_set o k v) -> In entry o \/ entry = (k, v).
Proof.
  induction o as [| [k' v'] rest IH]; cbn [obj_set In].
  - intros [<- | []]. now right.
  - destruct (String.eqb_spec k' k) as [-> | Hne]; cbn [In].
    + intros [<- | Hin]; [now right | left; now right].
    + intros [<- | Hin]; [left; now left |].
      destruct (IH Hin) as [H | H]; [left; now right | now right].
Qed.

Lemma categoryLoop_entries (env : Env) (config : Config) (effectiveDryRun : bool)
    (categoryFilter channelFilter : option string)
    (cats : list (string * list TextChannel)) :
  forall (categoryStats : list (string * CategoryStats)) (embeds : list string)
         (st : RunState),
  (forall entry, In entry categoryStats -> counts_its_channels (snd entry)) ->
  forall entry,
    In entry (fst (fst (categoryLoop env config effectiveDryRun categoryFilter
                          channelFilter cats categoryStats embeds st))) ->
    counts_its_channels (snd entry).
Proof.
  induction cats as [| [catName channels] rest IH];
    intros categoryStats embeds st Hall; cbn [categoryLoop].
  - exact Hall.
  - destruct (cleanupCancelled st); [exact Hall |].
    destruct (isEnabled config catName); cbn [negb]; [| now apply IH].
    destruct (filtered_out categoryFilter catName); [now apply IH |].
    match goal with
    | |- context [channelLoop ?e ?c ?d ?f ?n ?o ?a ?k ?l ?r ?b ?i ?s] =>
        destruct (channelLoop e c d f n o a k l r b i s)
          as [[channelResults catErrors] st2]
    end.
    apply IH. intros entry Hin.
    destruct (obj_set_members _ _ _ _ Hin) as [H | ->]; [now apply Hall |].
    cbn [snd]. unfold counts_its_channels. cbn [cs_processed cs_purged cs_errors cs_channels].
    rewrite sum_purged_list_sum. tauto.
Qed.

Lemma filter_errors_le (rs : list ChannelResult) :
  (List.length (filter cr_has_error rs) <= List.length (filter is_error rs)
   <= List.length rs)%nat.
Proof.
  induction rs as [| r rest IH]; cbn [filter List.length]; [lia |].
  destruct r; cbn [cr_has_error is_error List.length]; try lia.
  destruct (negb (String.eqb err "")); cbn [List.length]; lia.
Qed.

(** X5.  The totals reported by a completed run are the sums of its
    per-category statistics: channels processed, messages purged, and
    channels that failed.  A category's own error counter only counts
    entries whose error text is not empty, so the sum of these counters
    never exceeds the run's error total, which never exceeds the number of
    channels processed.  The categories reported are distinct and enabled
    in the configuration the run leaves. *)
Theorem run_totals_add_up (options : Options) (w : Outside) (p p' : Process)
    (stats : RunStats) :
  runCleanup options w p = (RunCompleted stats, p') ->
  run_totalProcessed stats = total_of cs_processed (run_categories stats)
  /\ run_totalPurged stats = total_of cs_purged (run_categories stats)
  /\ run_totalErrors stats = total_of failed_channels (run_categories stats)
  /\ (total_of cs_errors (run_categories stats) <= run_totalErrors stats
      <= run_totalProcessed stats)%nat
  /\ NoDup (map fst (run_categories stats))
  /\ (forall entry, In entry (run_categories stats) ->
        isEnabled (p_config p') (fst entry) = true
        /\ counts_its_channels (snd entry)).
Proof.
  unfold runCleanup.
  destruct (p_cleanupRunning p); [discriminate |].
  destruct (match o_disk w with
            | Some parsed => loadConfig parsed
            | None => (p_config p, [(ERROR, MReloadFailed)])
            end) as [config lines].
  destruct (o_guild w) as [textChannels |]; [| discriminate].
  destruct (o_channelsFetch w) as [err |]; [discriminate |].
  destruct (autoDiscoverChannels (o_locale_lt w) textChannels config)
    as [[[config1 changes] lines2] written].
  set (effectiveDryRun := if forceLive options then false
                          else dryRun config || forceDryRun options).
  set (st1 := if written && discoveryComplete config && (0 <? changes)%nat
                 && webhookInfo config1
              then await (o_env w) CNotifyDiscovery
                     (await (o_env w) CChannelsFetch initialRunState)
              else await (o_env w) CChannelsFetch initialRunState).
  assert (Hst1 : totalProcessed st1 = O /\ totalPurged st1 = O /\ totalErrors st1 = O).
  { subst st1. destruct (written && discoveryComplete config && (0 <? changes)%nat
                         && webhookInfo config1); cbn; tauto. }
  destruct Hst1 as (Hp1 & Hu1 & He1).
  destruct (categoryLoop_counts (o_env w) config1 effectiveDryRun
              (categoryFilter options) (channelFilter options)
              (categoryChannelMap_of textChannels)
              (categoryChannelMap_nodup textChannels) [] [] st1)
    as (added & Ha & Hkeys & Hnd & Hp & Hu & He).
  { intros k _ []. }
  pose proof (categoryLoop_entries (o_env w) config1 effectiveDryRun
                (categoryFilter options) (channelFilter options)
                (categoryChannelMap_of textChannels) [] [] st1) as Hentries.
  destruct (categoryLoop (o_env w) config1 effectiveDryRun (categoryFilter options)
              (channelFilter options) (categoryChannelMap_of textChannels) [] [] st1)
    as [[categoryStats embeds] st2].
  cbn [fst snd app] in Ha, Hp, Hu, He, Hentries. subst categoryStats.
  rewrite Hp1 in Hp. rewrite Hu1 in Hu. rewrite He1 in He.
  intros Heq. inversion Heq; subst stats p'. clear Heq.
  cbn [run_totalProcessed run_totalPurged run_totalErrors run_categories log
       totalProcessed totalPurged totalErrors p_config].
  assert (Hall : forall entry, In entry added -> counts_its_channels (snd entry)).
  { apply Hentries. intros entry []. }
  assert (Hle : (total_of cs_errors added <= total_of failed_channels added
                 <= total_of cs_processed added)%nat).
  { clear - Hall. induction added as [| [k cs] rest IH]; [cbn; lia |].
    change ((k, cs) :: rest) with ([(k, cs)] ++ rest).
    rewrite !total_of_app, !total_of_one.
    destruct (Hall (k, cs)) as (H1 & _ & H3); [now left |]. cbn [snd] in H1, H3.
    pose proof (filter_errors_le (cs_channels cs)) as Hf.
    unfold failed_channels at 1 3. rewrite H1, H3.
    assert (Hr : (total_of cs_errors rest <= total_of failed_channels rest
                  <= total_of cs_processed rest)%nat).
    { apply IH. intros entry Hin. apply Hall. now right. }
    lia. }
  split; [lia |]. split; [lia |]. split; [lia |]. split; [lia |].
  split; [exact Hnd |].
  intros [k cs] Hin. cbn [fst]. split; [| now apply Hall].
  apply Hkeys. apply in_map_iff. now exists (k, cs).
Qed.

Lemma run_totals_add_up_witness :
  exists stats,
    fst (runCleanup Samples.scheduled Samples.guild_requests Samples.idle)
    = RunCompleted stats
    /\ run_totalPurged stats = 110%nat
    /\ run_totalPurged stats = total_of cs_purged (run_categories stats).
Proof.
  destruct (runCleanup Samples.scheduled Samples.guild_requests Samples.idle)
    as [outcome p'] eqn:Hrun.
  assert (Hout : exists stats, outcome = RunCompleted stats
                               /\ run_totalPurged stats = 110%nat).
  { assert (H : outcome
                = fst (runCleanup Samples.scheduled Samples.guild_requests Samples.idle))
      by now rewrite Hrun.
    rewrite H. vm_compute. eexists. split; reflexivity. }
  destruct Hout as (stats & -> & Hpurged).
  exists stats. split; [reflexivity |]. split; [exact Hpurged |].
  exact (proj1 (proj2 (run_totals_add_up _ _ _ _ _ Hrun))).
Defined.

(** ** Sorting and the leaderboards *)

Lemma insert_by_perm {A : Type} (precedes : A -> A -> bool) (x : A) (l : list A) :
  Permutation (insert_by precedes x l) (x :: l).
Proof.
  induction l as [| y rest IH]; cbn [insert_by]; [reflexivity |].
  destruct (precedes y x); [| reflexivity].
  rewrite IH. apply perm_swap.
Qed.

Lemma sort_by_perm {A : Type} (precedes : A -> A -> bool) (l : list A) :
  Permutation (sort_by precedes l) l.
Proof.
  unfold sort_by. induction l as [| x rest IH]; cbn [fold_right]; [reflexivity |].
  rewrite insert_by_perm. now constructor.
Qed.

Lemma sort_by_length {A : Type} (precedes : A -> A -> bool) (l : list A) :
  List.length (sort_by precedes l) = List.length l.
Proof. apply Permutation_length, sort_by_perm. Qed.

Section ByCount.

Variable A : Type.
Variable count : A -> nat.

Lemma insert_by_count_sorted (x : A) (l : list A) :
  StronglySorted (fun a b => (count b <= count a)%nat) l ->
  StronglySorted (fun a b => (count b <= count a)%nat)
    (insert_by (fun a b => (count b <? count a)%nat) x l).
Proof.
  induction 1 as [| y rest Hsorted IH Hall]; cbn [insert_by].
  - repeat constructor.
  - destruct (count x <? count y)%nat eqn:Hlt.
    + apply Nat.ltb_lt in Hlt. constructor; [exact IH |].
      rewrite Forall_forall in Hall |- *. intros z Hz.
      apply (Permutation_in _ (insert_by_perm _ x rest)) in Hz.
      destruct Hz as [<- | Hz]; [lia | now apply Hall].
    + apply Nat.ltb_ge in Hlt. constructor; [now constructor |].
      constructor; [exact Hlt |].
      rewrite Forall_forall in Hall |- *. intros z Hz.
      specialize (Hall z Hz). cbn beta in Hall. lia.
Qed.

Lemma sort_by_count_sorted (l : list A) :
  StronglySorted (fun a b => (count b <= count a)%nat)
    (sort_by (fun a b => (count b <? count a)%nat) l).
Proof.
  unfold sort_by. induction l as [| x rest IH]; cbn [fold_right]; [constructor |].
  now apply insert_by_count_sorted.
Qed.

Lemma sorted_split (n : nat) (l : list A) :
  StronglySorted (fun a b => (count b <= count a)%nat) l ->
  forall a b, In a (firstn n l) -> In b (skipn n l) -> (count b <= count a)%nat.
Proof.
  intros Hsorted. revert n.
  induction Hsorted as [| y rest Hsorted IH Hall]; intros n a b Ha Hb.
  - destruct n; contradiction.
  - destruct n as [| n]; [contradiction |].
    cbn [firstn skipn] in Ha, Hb. destruct Ha as [<- | Ha].
    + rewrite Forall_forall in Hall. apply Hall.
      rewrite <- (firstn_skipn n rest). apply in_or_app. now right.
    + now apply (IH n).
Qed.

End ByCount.

(** X6.  Pruning a leaderboard to [cap] entries keeps [cap] of them when
    there are more, and all of them otherwise; what is kept and what is
    dropped together are the entries there were, and no dropped entry has
    a higher count than a kept one. *)
Theorem prune_keeps_highest (cap : nat) (o : list (string * nat)) :
  List.length (prune cap o) = Nat.min cap (List.length o)
  /\ exists dropped,
       Permutation (prune cap o ++ dropped) o
       /\ forall kept gone, In kept (prune cap o) -> In gone dropped ->
                            (snd gone <= snd kept)%nat.
Proof.
  unfold prune. destruct (cap <? List.length o)%nat eqn:Hcap.
  - apply Nat.ltb_lt in Hcap. split.
    + rewrite length_firstn, sort_by_length. reflexivity.
    + exists (skipn cap (sort_by (fun a b => (snd b <? snd a)%nat) o)).
      split; [rewrite firstn_skipn; apply sort_by_perm |].
      intros kept gone Hk Hg.
      exact (sorted_split _ snd cap _ (sort_by_count_sorted _ snd o) kept gone Hk Hg).
  - apply Nat.ltb_ge in Hcap. split; [lia |].
    exists []. rewrite app_nil_r. split; [reflexivity | intros ? ? _ []].
Qed.

Lemma count_of_bump (o : list (string * nat)) (k s : string) (n : nat) :
  count_of (bump o k n) s
  = (count_of o s + (if String.eqb k s then n else O))%nat.
Proof.
  unfold count_of, bump. rewrite obj_get_set.
  destruct (String.eqb_spec k s) as [-> | Hne]; [reflexivity | lia].
Qed.

Lemma category_totals_fold (cats : list (string * CategoryStats)) (k : string) :
  forall o,
    count_of (fold_left (fun o '(catName, cs) => bump o catName (cs_purged cs)) cats o) k
    = (count_of o k
       + list_sum (map (fun entry => if String.eqb (fst entry) k
                                     then cs_purged (snd entry) else O) cats))%nat.
Proof.
  induction cats as [| [c cs] rest IH]; intros o; cbn [fold_left map].
  - cbn. lia.
  - rewrite IH, count_of_bump, list_sum_cons. cbn [fst snd]. lia.
Qed.

(** X7.  Persisting a run records it as the last run and puts its entry at
    the head of the history, in front of the 89 newest earlier entries, so
    that the history never exceeds 90 entries.  A dry run leaves the last
    live run, the lifetime totals and both leaderboards as they were.  A
    live run becomes the last live run, adds one run and its purged and
    error counts to the lifetime totals, keeps the date of the first run,
    adds to every category's total what the run purged in it, and leaves at
    most 200 channels and 100 categories on the leaderboards. *)
Theorem persistStats_accounts (run : RunStats) (file : option StatsData) :
  let before := match file with Some d => d | None => no_stats end in
  let after := persistStats run file in
  lastRun after = Some run
  /\ (exists entry,
        history after = entry :: firstn 89 (history before)
        /\ h_timestamp entry = run_timestamp run
        /\ h_purged entry = run_totalPurged run
        /\ h_errors entry = run_totalErrors run
        /\ h_dryRun entry = run_dryRun run)
  /\ (List.length (history after) <= 90)%nat
  /\ (run_dryRun run = true -> live_counters after = live_counters before)
  /\ (run_dryRun run = false ->
        lastLiveRun after = Some run
        /\ (exists lt,
              lifetime after = Some lt
              /\ lt_totalRuns lt
                 = S (match lifetime before with Some l => lt_totalRuns l | None => O end)
              /\ lt_totalPurged lt
                 = (match lifetime before with Some l => lt_totalPurged l | None => O end
                    + run_totalPurged run)%nat
              /\ lt_totalErrors lt
                 = (match lifetime before with Some l => lt_totalErrors l | None => O end
                    + run_totalErrors run)%nat
              /\ lt_firstRun lt
                 = match lifetime before with
                   | Some l => lt_firstRun l
                   | None => run_timestamp run
                   end)
        /\ (exists channelBoard categoryBoard,
              channelTotals after = Some (prune 200 channelBoard)
              /\ categoryTotals after = Some (prune 100 categoryBoard)
              /\ (List.length (prune 200 channelBoard) <= 200)%nat
              /\ (List.length (prune 100 categoryBoard) <= 100)%nat
              /\ forall k,
                   count_of categoryBoard k
                   = (count_of (match categoryTotals before with
                                | Some o => o
                                | None => []
                                end) k
                      + category_purged run k)%nat)).
Proof.
  intros before after. subst after. unfold persistStats. fold no_stats. fold before.
  set (entry := mkHistoryEntry _ _ _ _ _ _ _).
  assert (Hlen : (List.length (firstn 90 (entry :: history before)) <= 90)%nat).
  { rewrite length_firstn. apply Nat.le_min_l. }
  assert (Hlen2 : forall cap o, (List.length (prune cap o) <= cap)%nat).
  { intros cap o. unfold prune. destruct (cap <? List.length o)%nat eqn:Hcap.
    - rewrite length_firstn. apply Nat.le_min_l.
    - now apply Nat.ltb_ge in Hcap. }
  destruct (run_dryRun run); cbn [negb lastRun history lastLiveRun lifetime
                                  channelTotals categoryTotals].
  - split; [reflexivity |]. split.
    { exists entry. repeat split; reflexivity. }
    split; [exact Hlen |]. split; [intros _; reflexivity | discriminate].
  - split; [reflexivity |]. split.
    { exists entry. repeat split; reflexivity. }
    split; [exact Hlen |]. split; [discriminate |]. intros _.
    split; [reflexivity |]. split.
    { eexists. split; [reflexivity |].
      destruct (lifetime before); cbn; repeat split; reflexivity. }
    eexists. eexists. split; [reflexivity |]. split; [reflexivity |].
    split; [apply Hlen2 |]. split; [apply Hlen2 |].
    intros k. apply category_totals_fold.
Qed.

(** ** Incremental discovery only adds *)

Lemma lookup_category_set (cats : list (string * Category)) (k s : string)
    (cat : Category) :
  lookup_category (obj_set cats k cat) s
  = if String.eqb k s then Some cat else lookup_category cats s.
Proof. rewrite !lookup_category_obj_get. apply obj_get_set. Qed.

Lemma same_settings_refl (cat : Category) : same_settings cat cat.
Proof. unfold same_settings. tauto. Qed.

Lemma same_settings_trans (a b c : Category) :
  same_settings a b -> same_settings b c -> same_settings a c.
Proof. unfold same_settings. intros (-> & -> & -> & ->) (-> & -> & -> & ->). tauto. Qed.

Lemma grows_from_refl (cat : Category) : grows_from cat cat.
Proof. split; [apply same_settings_refl | apply incl_refl]. Qed.

Lemma grows_from_trans (a b c : Category) :
  grows_from a b -> grows_from b c -> grows_from a c.
Proof.
  intros [Hs1 Hi1] [Hs2 Hi2].
  split; [eapply same_settings_trans; eassumption | eapply incl_tran; eassumption].
Qed.

Lemma grows_from_listed (a b : Category) (name : string) :
  grows_from a b -> In name (listed a) -> In name (listed b).
Proof.
  intros [_ Hincl]. unfold listed. rewrite !in_map_iff.
  intros (e & He & Hin). exists e. split; [exact He | now apply Hincl].
Qed.

Lemma cats_grow_refl (cats : list (string * Category)) : cats_grow cats cats.
Proof. intros k cat Hk. exists cat. split; [exact Hk | apply grows_from_refl]. Qed.

Lemma cats_grow_trans (a b c : list (string * Category)) :
  cats_grow a b -> cats_grow b c -> cats_grow a c.
Proof.
  intros Hab Hbc k cat Hk.
  destruct (Hab k cat Hk) as (cat1 & Hk1 & Hg1).
  destruct (Hbc k cat1 Hk1) as (cat2 & Hk2 & Hg2).
  exists cat2. split; [exact Hk2 | eapply grows_from_trans; eassumption].
Qed.

Lemma getConfiguredChannels_listed (config : Config) (k : string) :
  getConfiguredChannels config k
  = match lookup_category (categories config) k with
    | Some cat => listed cat
    | None => []
    end.
Proof.
  unfold getConfiguredChannels, category_at, listed, channels_or_empty.
  destruct (lookup_category (categories config) k) as [cat |].
  - now destruct (cat_channels cat).
  - now destruct (inherited k).
Qed.

(** An inherited member is not enabled: [isEnabled] only depends on the
    own keys of the category map. *)
Lemma isEnabled_own (config : Config) (k : string) :
  isEnabled config k
  = match lookup_category (categories config) k with
    | Some cat => is_true (cat_enabled cat)
    | None => false
    end.
Proof.
  unfold isEnabled, category_at.
  destruct (lookup_category (categories config) k) as [cat |]; [reflexivity |].
  now destruct (inherited k).
Qed.

Lemma discoveredMap_complete (textChannels : list TextChannel) (c : TextChannel)
    (k : string) :
  In c textChannels -> tc_category c = Some k ->
  exists names, In (k, names) (discoveredMap_of textChannels) /\ In (tc_name c) names.
Proof.
  unfold discoveredMap_of.
  assert (Hpush : forall (m : list (string * list string)) k' v,
             (forall k0 vs x, In (k0, vs) m -> In x vs ->
                exists vs', In (k0, vs') (map_push m k' v) /\ In x vs')
             /\ exists vs', In (k', vs') (map_push m k' v) /\ In v vs').
  { induction m as [| [k0 vs0] rest IH]; intros k' v; cbn [map_push].
    - split; [intros ? ? ? [] |]. exists [v]. split; now left.
    - destruct (IH k' v) as [IH1 (vs' & IH2 & IH3)].
      destruct (String.eqb_spec k0 k') as [-> | Hne].
      + split.
        * intros k1 vs x [Heq | Hin] Hx.
          -- inversion Heq; subst. exists (vs ++ [v]).
             split; [now left | apply in_or_app; now left].
          -- exists vs. split; [now right | exact Hx].
        * exists (vs0 ++ [v]). split; [now left | apply in_or_app; right; now left].
      + split.
        * intros k1 vs x [Heq | Hin] Hx.
          -- inversion Heq; subst. exists vs. split; [now left | exact Hx].
          -- destruct (IH1 k1 vs x Hin Hx) as (vs1 & H1 & H2).
             exists vs1. split; [now right | exact H2].
        * exists vs'. split; [now right | exact IH3]. }
  assert (Hkeep : forall tcs (m : list (string * list string)) k0 vs x,
             In (k0, vs) m -> In x vs ->
             exists vs', In (k0, vs')
                           (fold_left (fun m channel =>
                                         match tc_category channel with
                                         | None => m
                                         | Some category =>
                                             map_push m category (tc_name channel)
                                         end) tcs m)
                         /\ In x vs').
  { induction tcs as [| t rest IH]; intros m k0 vs x Hin Hx; cbn [fold_left].
    - now exists vs.
    - destruct (tc_category t) as [category |]; [| now apply (IH m k0 vs x)].
      destruct (proj1 (Hpush m category (tc_name t)) k0 vs x Hin Hx) as (vs1 & H1 & H2).
      now apply (IH _ k0 vs1 x). }
  intros Hin Hcat. generalize (@nil (string * list string)).
  induction textChannels as [| t rest IH]; intros m; [contradiction |].
  cbn [fold_left]. destruct Hin as [-> | Hin].
  - rewrite Hcat.
    destruct (proj2 (Hpush m k (tc_name c))) as (vs & H1 & H2).
    now apply (Hkeep rest _ k vs).
  - now apply IH.
Qed.

Lemma fold_left_ext {A B : Type} (f g : A -> B -> A) (l : list B) (a : A) :
  (forall a x, f a x = g a x) -> fold_left f l a = fold_left g l a.
Proof.
  intros Hext. revert a. induction l as [| x rest IH]; intros a; cbn [fold_left].
  - reflexivity.
  - now rewrite Hext, IH.
Qed.

Section DiscoveryFacts.

Variable locale_lt : string -> string -> bool.

Lemma discover_channels_fold (gd : value) (catName : string)
    (existingNames sortedChannels : list string) (cat : Category) :
  discover_channels locale_lt gd catName existingNames sortedChannels cat
  = fold_left (discover_channel_step locale_lt gd catName existingNames)
      sortedChannels (cat, O, []).
Proof.
  unfold discover_channels. apply fold_left_ext.
  intros [[c n] o] x. reflexivity.
Qed.

Lemma autoDiscoverChannels_fold (textChannels : list TextChannel) (config : Config) :
  categories (fst (fst (fst (autoDiscoverChannels locale_lt textChannels config))))
  = fst (fst (fold_left (discover_category_step locale_lt config)
                (discoveredMap_of textChannels) (categories config, O, []))).
Proof.
  unfold autoDiscoverChannels.
  rewrite (fold_left_ext _ (discover_category_step locale_lt config))
    by (intros [[c n] o] [k chans]; reflexivity).
  destruct (fold_left (discover_category_step locale_lt config)
              (discoveredMap_of textChannels) (categories config, O, []))
    as [[cats changes] out].
  now destruct ((0 <? changes)%nat || negb (discoveryComplete config)).
Qed.

Lemma discover_channels_grows (gd : value) (catName : string)
    (existingNames : list string) (sortedChannels : list string) :
  forall (cat : Category) (changes : nat) (out : list logrec),
    let result :=
      fold_left (discover_channel_step locale_lt gd catName existingNames)
        sortedChannels (cat, changes, out) in
    grows_from cat (fst (fst result))
    /\ (forall name, In name sortedChannels -> has_name existingNames name = false ->
          In name (listed (fst (fst result))))
    /\ (changes <= snd (fst result))%nat
    /\ (snd (fst result) = changes -> fst (fst result) = cat).
Proof.
  induction sortedChannels as [| chanName rest IH]; intros cat changes out;
    cbn [fold_left].
  - cbn. split; [apply grows_from_refl |]. split; [contradiction |]. split; [lia | tauto].
  - change (discover_channel_step locale_lt gd catName existingNames
              (cat, changes, out) chanName)
      with (if has_name existingNames chanName then (cat, changes, out)
            else
              (set_channels cat
                 (sort_entries locale_lt (channels_or_empty cat ++ [EName chanName])),
               S changes,
               out ++ [(INFO, MAutoChannel chanName catName
                                (nullish (cat_default cat) gd)
                                (if defined (cat_default cat)
                                 then "category" else "global"))])).
    destruct (has_name existingNames chanName) eqn:Hknown.
    + destruct (IH cat changes out) as (Hg & Hl & Hc & Hsame).
      cbn zeta. split; [exact Hg |]. split; [| split; [exact Hc | exact Hsame]].
      intros name [<- | Hin] Hnew; [congruence | now apply Hl].
    + set (cat1 := set_channels cat
                     (sort_entries locale_lt (channels_or_empty cat ++ [EName chanName]))).
      assert (Hperm : Permutation (channels_or_empty cat1)
                        (channels_or_empty cat ++ [EName chanName])).
      { subst cat1. unfold set_channels, channels_or_empty at 1. cbn [cat_channels].
        unfold sort_entries. apply sort_by_perm. }
      assert (Hg1 : grows_from cat cat1).
      { split; [subst cat1; unfold set_channels, same_settings; cbn; tauto |].
        intros e He. apply (Permutation_in _ (Permutation_sym Hperm)).
        apply in_or_app. now left. }
      match goal with
      | |- context [fold_left _ rest (cat1, ?n, ?o)] =>
          destruct (IH cat1 n o) as (Hg & Hl & Hc & Hsame)
      end.
      cbn zeta. split; [eapply grows_from_trans; eassumption |].
      split; [| split; [lia |]].
      * intros name [<- | Hin] Hnew; [| now apply Hl].
        apply (grows_from_listed cat1); [exact Hg |].
        unfold listed. apply in_map_iff. exists (EName chanName).
        split; [reflexivity |]. apply (Permutation_in _ (Permutation_sym Hperm)).
        apply in_or_app. right. now left.
      * intros Heq. exfalso. lia.
Qed.

End DiscoveryFacts.

Lemma known_or_disabled_refl (gd : value) (cats : list (string * Category)) :
  known_or_disabled gd cats cats.
Proof. intros k cat Hk. left. exists cat. split; [exact Hk | apply same_settings_refl]. Qed.

Lemma known_or_disabled_trans (gd : value) (a b c : list (string * Category)) :
  cats_grow a b -> known_or_disabled gd a b -> known_or_disabled gd b c ->
  known_or_disabled gd a c.
Proof.
  intros Hgrow Hab Hbc k cat2 Hk.
  destruct (Hbc k cat2 Hk) as [(cat1 & Hk1 & Hs1) | (Hnone & Hen & Hdef)].
  - destruct (Hab k cat1 Hk1) as [(cat0 & Hk0 & Hs0) | (Hnone & Hen & Hdef)].
    + left. exists cat0. split; [exact Hk0 | eapply same_settings_trans; eassumption].
    + right. destruct Hs1 as (He & Hd & _). split; [exact Hnone |]. split; congruence.
  - right. split; [| tauto].
    destruct (lookup_category a k) as [cat0 |] eqn:Hk0; [| reflexivity].
    destruct (Hgrow k cat0 Hk0) as (cat1 & Hk1 & _). congruence.
Qed.

Lemma sort_names_in (names : list string) (name : string) :
  In name names -> In name (sort_names names).
Proof.
  intros Hin. unfold sort_names.
  exact (Permutation_in _ (Permutation_sym (sort_by_perm _ names)) Hin).
Qed.

Section DiscoverySteps.

Variable locale_lt : string -> string -> bool.
Variable config : Config.

Lemma discover_category_step_facts (cats : list (string * Category)) (changes : nat)
    (out : list logrec) (catName : string) (channels : list string) :
  let cats' := fst (fst (discover_category_step locale_lt config (cats, changes, out)
                           (catName, channels))) in
  cats_grow cats cats'
  /\ known_or_disabled (globalDefault config) cats cats'
  /\ exists cat', lookup_category cats' catName = Some cat'
                  /\ forall name, In name channels -> In name (listed cat').
Proof.
  cbn zeta. unfold discover_category_step.
  destruct (lookup_category cats catName) as [cat |] eqn:Hcat.
  - rewrite discover_channels_fold.
    pose proof (discover_channels_grows locale_lt (globalDefault config) catName
                  (map entry_name (channels_or_empty cat)) (sort_names channels)
                  cat O []) as Hfacts.
    destruct (fold_left _ (sort_names channels) (cat, O, [])) as [[cat' n] lines].
    cbn [fst snd] in Hfacts. destruct Hfacts as (Hg & Hl & _ & Hsame).
    assert (Hnames : forall name, In name channels -> In name (listed cat')).
    { intros name Hin. apply sort_names_in in Hin.
      destruct (has_name (map entry_name (channels_or_empty cat)) name) eqn:Hknown.
      - apply (grows_from_listed cat); [exact Hg |]. now apply has_name_in.
      - now apply Hl. }
    destruct (0 <? n)%nat eqn:Hn; cbn [fst].
    + split; [| split].
      * intros k c Hk. rewrite lookup_category_set.
        destruct (String.eqb_spec catName k) as [<- | Hne].
        -- exists cat'. split; [reflexivity |]. congruence.
        -- exists c. split; [exact Hk | apply grows_from_refl].
      * intros k c. rewrite lookup_category_set.
        destruct (String.eqb_spec catName k) as [<- | Hne]; intros Hk.
        -- inversion Hk; subst c. left. exists cat. split; [exact Hcat | apply Hg].
        -- left. exists c. split; [exact Hk | apply same_settings_refl].
      * exists cat'. rewrite lookup_category_set, String.eqb_refl. tauto.
    + apply Nat.ltb_ge in Hn. assert (Hzero : n = O) by lia.
      rewrite (Hsame Hzero) in Hnames.
      split; [apply cats_grow_refl |]. split; [apply known_or_disabled_refl |].
      now exists cat.
  - cbn [fst]. split; [| split].
    + intros k c Hk. rewrite lookup_category_set.
      destruct (String.eqb_spec catName k) as [<- | Hne]; [congruence |].
      exists c. split; [exact Hk | apply grows_from_refl].
    + intros k c. rewrite lookup_category_set.
      destruct (String.eqb_spec catName k) as [<- | Hne]; intros Hk.
      * inversion Hk; subst c. right. cbn. tauto.
      * left. exists c. split; [exact Hk | apply same_settings_refl].
    + eexists. rewrite lookup_category_set, String.eqb_refl. split; [reflexivity |].
      intros name Hin. unfold listed, discovered_category, channels_or_empty.
      cbn [cat_channels]. rewrite map_map. cbn [entry_name]. rewrite map_id.
      now apply sort_names_in.
Qed.

Lemma discover_categories_facts (d : list (string * list string)) :
  forall (cats : list (string * Category)) (changes : nat) (out : list logrec),
    let cats' := fst (fst (fold_left (discover_category_step locale_lt config) d
                             (cats, changes, out))) in
    cats_grow cats cats'
    /\ known_or_disabled (globalDefault config) cats cats'
    /\ forall k names, In (k, names) d ->
         exists cat', lookup_category cats' k = Some cat'
                      /\ forall name, In name names -> In name (listed cat').
Proof.
  induction d as [| [catName channels] rest IH]; intros cats changes out;
    cbn [fold_left].
  - cbn. split; [apply cats_grow_refl |]. split; [apply known_or_disabled_refl |].
    intros ? ? [].
  - destruct (discover_category_step_facts cats changes out catName channels)
      as (Hg1 & Hk1 & cat1 & Hcat1 & Hnames1).
    destruct (discover_category_step locale_lt config (cats, changes, out)
                (catName, channels)) as [[cats1 changes1] out1].
    cbn [fst] in Hg1, Hk1, Hcat1.
    destruct (IH cats1 changes1 out1) as (Hg & Hk & Hall).
    cbn zeta. split; [eapply cats_grow_trans; eassumption |].
    split; [eapply known_or_disabled_trans; eassumption |].
    intros k names [Heq | Hin]; [| now apply Hall].
    inversion Heq; subst k names.
    destruct (Hg catName cat1 Hcat1) as (cat2 & Hcat2 & Hg2).
    exists cat2. split; [exact Hcat2 |].
    intros name Hname. apply (grows_from_listed cat1); [exact Hg2 | now apply Hnames1].
Qed.

End DiscoverySteps.

(** X8.  Incremental discovery only adds.  A category the configuration
    already has keeps its settings ([enabled], [default], [deleteOld],
    [overrides]) and every entry of its [_channels] list; a category it
    did not have comes in disabled, with the global default.  So no
    category changes between enabled and disabled.  Afterwards every text
    channel of the guild that has a category is on the [_channels] list of
    that category, and the global default, the dry-run flag and the
    platform settings are as before. *)
Theorem discovery_only_adds (locale_lt : string -> string -> bool)
    (textChannels : list TextChannel) (config : Config) :
  let config' := fst (fst (fst (autoDiscoverChannels locale_lt textChannels config))) in
  cats_grow (categories config) (categories config')
  /\ known_or_disabled (globalDefault config) (categories config) (categories config')
  /\ (forall k, isEnabled config' k = isEnabled config k)
  /\ (forall c k, In c textChannels -> tc_category c = Some k ->
        has_name (getConfiguredChannels config' k) (tc_name c) = true)
  /\ globalDefault config' = globalDefault config
  /\ dryRun config' = dryRun config
  /\ discord config' = discord config.
Proof.
  intros config'.
  pose proof (autoDiscoverChannels_settings locale_lt textChannels config) as Hset.
  pose proof (autoDiscoverChannels_fold locale_lt textChannels config) as Hcats.
  fold config' in Hset, Hcats. cbn zeta in Hset.
  destruct (discover_categories_facts locale_lt config (discoveredMap_of textChannels)
              (categories config) O []) as (Hg & Hk & Hall).
  rewrite <- Hcats in Hg, Hk, Hall.
  split; [exact Hg |]. split; [exact Hk |]. split; [| split; [| tauto]].
  - intros k. rewrite !isEnabled_own.
    destruct (lookup_category (categories config) k) as [cat |] eqn:Hcat.
    + destruct (Hg k cat Hcat) as (cat' & -> & ((-> & _) & _)). reflexivity.
    + destruct (lookup_category (categories config') k) as [cat' |] eqn:Hcat';
        [| reflexivity].
      destruct (Hk k cat' Hcat') as [(cat & Hsome & _) | (_ & -> & _)];
        [congruence | reflexivity].
  - intros c k Hin Hparent.
    destruct (discoveredMap_complete textChannels c k Hin Hparent)
      as (names & Hd & Hname).
    destruct (Hall k names Hd) as (cat' & Hcat' & Hlisted).
    rewrite getConfiguredChannels_listed, Hcat'. apply has_name_in. now apply Hlisted.
Qed.

(** ** What a full sync leaves *)

Lemma syncCategory_reconciles (gd : value) (catName : string) (channels : list string)
    (cat cat' : Category) (n : nat) (ds : list ChangeDetail) (ls : list logrec) :
  category_defined cat = true ->
  syncCategory gd catName channels cat = (cat', n, ds, ls) ->
  reconciled gd (Some cat) channels cat'.
Proof.
  intros Hdef Hsync.
  unfold category_defined in Hdef. apply andb_true_iff in Hdef.
  destruct Hdef as [Hentries Hsection].
  unfold syncCategory in Hsync.
  set (l := channels_or_empty cat) in *.
  set (S := sort_names channels) in *.
  set (EO := match cat_overrides cat with
             | Some section => migrate_overrides (inline_overrides l) section
             | None => inline_overrides l
             end).
  assert (HEO : forall s v, obj_get EO s = Some v -> defined v = true).
  { assert (Hinline : forall s v, obj_get (inline_overrides l) s = Some v ->
                                  defined v = true).
    { intros s v Hget. destruct (inline_overrides_some l s v Hget) as [more Hin].
      rewrite forallb_forall in Hentries. specialize (Hentries _ Hin).
      cbn [entry_defined] in Hentries. apply andb_true_iff in Hentries.
      apply Hentries. }
    subst EO. destruct (cat_overrides cat) as [section |]; [| exact Hinline].
    intros s v Hget. destruct (migrate_overrides_some section s v _ Hget) as [H | H].
    - exact (Hinline _ _ H).
    - rewrite forallb_forall in Hsection. exact (Hsection _ H). }
  pose proof (rebuilt_canonical EO S HEO) as Hcanon.
  assert (Hcat' : cat_overrides cat' = None
                  /\ cat_enabled cat' = cat_enabled cat
                  /\ cat_default cat' = cat_default cat
                  /\ cat_deleteOld cat' = cat_deleteOld cat
                  /\ (channels_or_empty cat' = map (rebuilt_entry EO) S
                      \/ (channels_or_empty cat' = l
                          /\ map json_entry l
                             = map json_entry (map (rebuilt_entry EO) S)))).
  { subst EO. destruct (cat_overrides cat) as [section |]; cbv zeta in Hsync;
      unfold json_differs in Hsync;
      match type of Hsync with
      | context [list_eq_dec jentry_eq_dec ?a ?b] =>
          destruct (list_eq_dec jentry_eq_dec a b) as [Heq | Hne]
      end;
      inversion Hsync; subst cat';
        cbn [cat_overrides cat_enabled cat_default cat_deleteOld
             channels_or_empty cat_channels];
        (split; [reflexivity |]); (split; [reflexivity |]);
        (split; [reflexivity |]); (split; [reflexivity |]);
        first [ left; reflexivity | right; split; [reflexivity | exact Heq] ]. }
  destruct Hcat' as (Hov & Hen & Hdf & Hdo & Hlist).
  unfold reconciled, listed. split; [| tauto].
  destruct Hlist as [Hnew | [Hold Hjson]].
  - rewrite Hnew. apply Hcanon.
  - rewrite Hold. apply (canonical_by_json l _ S Hjson Hentries Hcanon).
Qed.

Lemma discovered_reconciled (gd : value) (channels : list string) :
  reconciled gd None channels (discovered_category gd (sort_names channels)).
Proof.
  unfold reconciled, listed, discovered_category, channels_or_empty.
  cbn [cat_channels cat_overrides cat_enabled cat_default cat_deleteOld].
  rewrite map_map. cbn [entry_name]. rewrite map_id. tauto.
Qed.

Lemma visit_reconciles (gd : value) (d : list (string * list string)) :
  NoDup (map fst d) ->
  forall cats changes details lines cats' changes' details' lines',
    (forall k c, In k (map fst d) -> obj_get cats k = Some c ->
                 category_defined c = true) ->
    fold_left (visitDiscovered gd) d (cats, changes, details, lines)
    = (cats', changes', details', lines') ->
    (forall k chans, In (k, chans) d ->
       exists c, obj_get cats' k = Some c /\ reconciled gd (obj_get cats k) chans c)
    /\ (forall k, ~ In k (map fst d) -> obj_get cats' k = obj_get cats k).
Proof.
  induction d as [| [k chans] rest IH]; intros Hnodup
    cats changes details lines cats' changes' details' lines' Hdef H.
  - cbn in H. inversion H; subst. split; [intros k chans [] | reflexivity].
  - cbn [map fst] in Hnodup. inversion Hnodup as [| ? ? Hfresh Hrest]; subst.
    cbn [fold_left] in H. cbn [visitDiscovered] in H.
    assert (Hstep : exists c1 a1 b1 l1,
               fold_left (visitDiscovered gd) rest (obj_set cats k c1, a1, b1, l1)
               = (cats', changes', details', lines')
               /\ reconciled gd (obj_get cats k) chans c1).
    { rewrite <- lookup_category_obj_get.
      destruct (lookup_category cats k) as [cat |] eqn:Hget.
      - destruct (syncCategory gd k chans cat) as [[[cat1 n] ds] ls] eqn:Hsync.
        exists cat1. do 3 eexists. split; [exact H |].
        apply (syncCategory_reconciles gd k chans cat cat1 n ds ls); [| exact Hsync].
        apply (Hdef k); [now left | now rewrite <- lookup_category_obj_get].
      - do 4 eexists. split; [exact H | apply discovered_reconciled]. }
    destruct Hstep as (c1 & a1 & b1 & l1 & Hfold & Hrec).
    apply IH in Hfold; [| exact Hrest |].
    + destruct Hfold as [Hall Hother]. split.
      * intros k' chans' [Heq | Hin].
        -- inversion Heq; subst k' chans'. exists c1. split; [| exact Hrec].
           rewrite (Hother k Hfresh), obj_get_set, String.eqb_refl. reflexivity.
        -- destruct (Hall k' chans' Hin) as (c & Hget & Hc).
           exists c. split; [exact Hget |].
           rewrite obj_get_set in Hc.
           destruct (String.eqb_spec k k') as [-> | _]; [| exact Hc].
           exfalso. apply Hfresh. apply in_map_iff. now exists (k', chans').
      * intros k' Hnot. cbn [map fst In] in Hnot.
        rewrite Hother by tauto. rewrite obj_get_set.
        destruct (String.eqb_spec k k') as [-> | _]; [tauto | reflexivity].
    + intros k' c Hin Hget. rewrite obj_get_set in Hget.
      destruct (String.eqb_spec k k') as [-> | _]; [contradiction |].
      apply (Hdef k'); [now right | exact Hget].
Qed.

Lemma syncCategories_reconciles (gd : value)
    (discoveredMap : list (string * list string))
    (cats cats' : list (string * Category)) (changes : nat)
    (details : list ChangeDetail) (lines : list logrec) :
  NoDup (map fst discoveredMap) ->
  forallb (fun '(_, cat) => category_defined cat) cats = true ->
  syncCategories gd discoveredMap cats = (cats', changes, details, lines) ->
  (forall k chans, In (k, chans) discoveredMap ->
     exists c, lookup_category cats' k = Some c
               /\ reconciled gd (lookup_category cats k) chans c)
  /\ (forall k, In k (map fst cats') <-> In k (map fst discoveredMap)).
Proof.
  intros Hnodup Hdef Hsync.
  destruct (syncCategories_settles gd discoveredMap cats cats' changes details lines
              Hnodup Hdef Hsync) as [Hsettled Hkeys].
  unfold syncCategories in Hsync. cbv zeta in Hsync.
  destruct (fold_left (visitDiscovered gd) discoveredMap (cats, 0%nat, [], []))
    as [[[cats1 changes1] details1] lines1] eqn:Hvisit.
  cbn [fst] in Hsync.
  destruct (visit_reconciles gd discoveredMap Hnodup _ _ _ _ _ _ _ _
              (fun k c _ Hget =>
                 proj1 (forallb_forall _ _) Hdef (k, c) (obj_get_some_in _ _ _ Hget))
              Hvisit) as [Hall _].
  pose proof (prune_lookup discoveredMap _ _ _ _ _ _ _ _ _ Hsync) as Hlookup.
  split.
  - intros k chans Hin. destruct (Hall k chans Hin) as (c & Hget & Hrec).
    exists c. rewrite !lookup_category_obj_get. split; [| exact Hrec].
    rewrite Hlookup, (has_key_in _ _ _ Hin). cbn [negb]. rewrite andb_false_r.
    exact Hget.
  - intros k. split.
    + intros Hin. specialize (Hkeys k Hin). unfold has_key in Hkeys.
      apply obj_get_in_keys. now destruct (obj_get discoveredMap k).
    + intros Hin. apply in_map_iff in Hin. destruct Hin as ([k' chans] & <- & Hin).
      cbn [fst]. destruct (Hsettled k' chans Hin) as (c & Hget & _).
      apply obj_get_in_keys. congruence.
Qed.

(** X9.  A full sync that completes, on a configuration without undefined
    values and a platform none of whose categories bears the name of a
    member every object inherits, leaves exactly the categories of the
    platform that hold at least one text channel.  Each of them lists the names of its text channels, each once
    per channel and no other name, and when these names are ASCII the list
    is in sorted order; it has no deprecated [overrides] section; a
    category the configuration already had keeps [enabled], [default] and
    [deleteOld], a new one is disabled with the global default.  The
    global default, the dry-run flag and the platform settings are not
    touched, the report counts those categories and the text channels that
    have a parent, and the configuration file is written exactly when a
    change is reported. *)
Theorem sync_reconciles (exitOnError : bool) (w : Outside) (p p' : Process)
    (report : SyncReport) (textChannels : list TextChannel) :
  config_defined (p_config p) = true ->
  o_guild w = Some textChannels ->
  (forall k, In k (map fst (discoveredMap_of textChannels)) -> inherited k = false) ->
  syncConfig exitOnError w p = (SyncDone report, p') ->
  let discovered := discoveredMap_of textChannels in
  (forall k, In k (map fst (categories (p_config p'))) <-> In k (map fst discovered))
  /\ (forall k names, In (k, names) discovered ->
        exists cat',
          lookup_category (categories (p_config p')) k = Some cat'
          /\ Permutation (listed cat') names
          /\ (forallb is_ascii names = true -> listed cat' = sort_names names)
          /\ cat_overrides cat' = None
          /\ match lookup_category (categories (p_config p)) k with
             | Some cat =>
                 cat_enabled cat' = cat_enabled cat
                 /\ cat_default cat' = cat_default cat
                 /\ cat_deleteOld cat' = cat_deleteOld cat
             | None =>
                 cat_enabled cat' = VBool false
                 /\ cat_default cat' = globalDefault (p_config p)
                 /\ cat_deleteOld cat' = VUndefined
             end)
  /\ globalDefault (p_config p') = globalDefault (p_config p)
  /\ dryRun (p_config p') = dryRun (p_config p)
  /\ discord (p_config p') = discord (p_config p)
  /\ sr_categories report = List.length discovered
  /\ sr_channels report = List.length textChannels
  /\ p_configWrites p'
     = (if (0 <? sr_changes report)%nat then S (p_configWrites p) else p_configWrites p).
Proof.
  intros Hdef Hguild _. unfold syncConfig. rewrite Hguild.
  destruct (o_channelsFetch w) as [err |]; [discriminate |].
  destruct (syncCategories (globalDefault (p_config p)) (discoveredMap_of textChannels)
              (categories (p_config p))) as [[[cats changes] details] lines] eqn:Hsync.
  intros Heq. inversion Heq; subst report p'. clear Heq.
  cbn [p_config categories globalDefault dryRun discord sr_categories sr_channels
       sr_changes p_configWrites].
  destruct (syncCategories_reconciles _ _ _ _ _ _ _
              (discoveredMap_nodup textChannels) Hdef Hsync) as [Hall Hkeys].
  cbn zeta. split; [exact Hkeys |]. split; [| repeat split].
  intros k names Hin.
  destruct (Hall k names Hin) as (cat' & Hcat & Hlisted & Hnone & Hsettings).
  exists cat'. split; [exact Hcat |]. split; [| split; [| split]].
  - rewrite Hlisted. apply sort_by_perm.
  - intros _. exact Hlisted.
  - exact Hnone.
  - exact Hsettings.
Qed.

Lemma sync_reconciles_witness :
  exists cat',
    lookup_category
      (categories (p_config (snd (syncConfig false Samples.guild_logs_only
                                    Samples.idle_two)))) "logs" = Some cat'
    /\ listed cat' = ["archive"; "general"; "noise"]
    /\ cat_enabled cat' = VBool true.
Proof.
  destruct (syncConfig false Samples.guild_logs_only Samples.idle_two)
    as [outcome p'] eqn:Hrun.
  assert (Hout : exists report, outcome = SyncDone report).
  { assert (H : outcome
                = fst (syncConfig false Samples.guild_logs_only Samples.idle_two))
      by now rewrite Hrun.
    rewrite H. vm_compute. eexists. reflexivity. }
  destruct Hout as (report & ->).
  assert (Hplain : forall k, In k (map fst (discoveredMap_of Samples.logs_only)) ->
                              inherited k = false).
  { intros k [<- | []]. reflexivity. }
  destruct (sync_reconciles false Samples.guild_logs_only Samples.idle_two p' report
              Samples.logs_only eq_refl eq_refl Hplain Hrun) as (_ & Hall & _).
  destruct (Hall "logs" ["general"; "archive"; "noise"])
    as (cat' & Hcat & _ & Hlisted & _ & Hsettings).
  { vm_compute. now left. }
  exists cat'. cbn [snd]. split; [exact Hcat |]. split.
  - rewrite (Hlisted eq_refl). vm_compute. reflexivity.
  - change (lookup_category (categories (p_config Samples.idle_two)) "logs")
      with (Some Samples.sorted_logs) in Hsettings.
    destruct Hsettings as (Hen & _). rewrite Hen. reflexivity.
Defined.

(** ** The run guards, again *)

(** X10.  Whatever the interleaving of route requests, scheduled ticks and
    completions, each flag is set exactly while an operation of its kind
    is in flight, and there is never more than one cleanup nor more than
    one sync in flight. *)
Theorem flags_track_operations (events : list SingleFlight.event) :
  let s := snd (SingleFlight.run events SingleFlight.init) in
  SingleFlight.cleanupRunning s
  = SingleFlight.has_op SingleFlight.OpCleanup (SingleFlight.inFlight s)
  /\ SingleFlight.syncRunning s
     = SingleFlight.has_op SingleFlight.OpSync (SingleFlight.inFlight s)
  /\ (SingleFlight.count_op SingleFlight.OpCleanup (SingleFlight.inFlight s) <= 1)%nat
  /\ (SingleFlight.count_op SingleFlight.OpSync (SingleFlight.inFlight s) <= 1)%nat.
Proof.
  cbn zeta.
  assert (H : flight_shape (snd (SingleFlight.run events SingleFlight.init))).
  { apply run_keeps_shape. now left. }
  destruct H as [-> | [-> | [-> | ->]]]; cbn; repeat split; lia.
Qed.

(** X11.  Two operations are in flight together only as a sync started
    through the API followed by a cleanup started by the schedule: the
    routes never start anything while an operation is in flight, and the
    schedule never starts a second cleanup. *)
Theorem only_schedule_overlaps (events : list SingleFlight.event)
    (e : SingleFlight.event) :
  let s := snd (SingleFlight.run events SingleFlight.init) in
  SingleFlight.inFlight s <> [] ->
  fst (SingleFlight.step e s) = SingleFlight.Started ->
  e = SingleFlight.CronTick
  /\ SingleFlight.inFlight s = [SingleFlight.OpSync]
  /\ SingleFlight.inFlight (snd (SingleFlight.step e s))
     = [SingleFlight.OpSync; SingleFlight.OpCleanup].
Proof.
  cbn zeta.
  assert (H : flight_shape (snd (SingleFlight.run events SingleFlight.init))).
  { apply run_keeps_shape. now left. }
  destruct H as [-> | [-> | [-> | ->]]]; intros Hbusy;
    try (now contradiction Hbusy);
    destruct e as [[|] | [|] | [|] | | |]; cbn; intros Hstart;
      try discriminate Hstart; repeat split.
Qed.

Lemma only_schedule_overlaps_witness :
  SingleFlight.inFlight
    (snd (SingleFlight.step SingleFlight.CronTick
            (snd (SingleFlight.run [SingleFlight.PostSync true] SingleFlight.init))))
  = [SingleFlight.OpSync; SingleFlight.OpCleanup].
Proof.
  apply (only_schedule_overlaps [SingleFlight.PostSync true] SingleFlight.CronTick).
  - discriminate.
  - reflexivity.
Defined.

(** ** Cancellation *)

Section Cancellation.

Variable env : Env.

Lemma follows_nil (st st' : RunState) :
  calls st' = calls st -> tick st' = tick st ->
  cleanupCancelled st' = cleanupCancelled st ->
  follows env st st' [].
Proof.
  intros Hc Ht Hk. unfold follows, quiet. rewrite Hc, Ht, Hk, app_nil_r.
  cbn [List.length]. split; [reflexivity |]. split; [lia |]. split.
  - split; [intros H; split; [exact H | intros t Hr; lia] | tauto].
  - intros pre c post Heq. now destruct pre.
Qed.

Lemma follows_trans (st1 st2 st3 : RunState) (n1 n2 : list Call) :
  follows env st1 st2 n1 -> follows env st2 st3 n2 ->
  follows env st1 st3 (n1 ++ n2).
Proof.
  unfold follows, quiet.
  intros (Hc1 & Ht1 & Hk1 & Hw1) (Hc2 & Ht2 & Hk2 & Hw2).
  rewrite Hc2, Hc1, Ht2, Ht1, length_app, app_assoc.
  split; [reflexivity |]. split; [lia |]. split.
  - rewrite Hk2, Hk1, Ht1. split.
    + intros [[Hst Hq1] Hq2]. split; [exact Hst |]. intros t Hr.
      destruct (Nat.lt_ge_cases t (tick st1 + List.length n1)) as [Hlt | Hge];
        [apply Hq1 | apply Hq2]; lia.
    + intros [Hst Hq]. split; [split; [exact Hst |] |]; intros t Hr; apply Hq; lia.
  - intros pre c post Heq Hwork.
    apply app_eq_app in Heq. destruct Heq as (l & [[H1 H2] | [H1 H2]]).
    + destruct l as [| x l].
      * rewrite app_nil_r in H1. cbn [app] in H2. subst n1.
        destruct (Hw2 [] c post (eq_sym H2) Hwork) as [Hst2 _].
        apply Hk1 in Hst2. exact Hst2.
      * cbn [app] in H2. inversion H2; subst x. exact (Hw1 pre c l H1 Hwork).
    + destruct (Hw2 l c post H2 Hwork) as [Hst2 Hq2].
      apply Hk1 in Hst2. destruct Hst2 as [Hst Hq1]. split; [exact Hst |].
      subst pre. rewrite length_app. intros t Hr.
      destruct (Nat.lt_ge_cases t (tick st1 + List.length n1)) as [Hlt | Hge];
        [apply Hq1 | apply Hq2]; lia.
Qed.

Lemma follows_await (c : Call) (st : RunState) :
  (starts_work c = true -> cleanupCancelled st = false) ->
  follows env st (await env c st) [c].
Proof.
  intros Hwork. unfold follows, quiet, await.
  cbn [calls tick cleanupCancelled List.length].
  split; [reflexivity |]. split; [lia |]. split.
  - rewrite orb_false_iff. split.
    + intros [Hst Hc]. split; [exact Hst |]. intros t Hr.
      assert (t = tick st) by lia. now subst t.
    + intros [Hst Hq]. split; [exact Hst |]. apply Hq. lia.
  - intros pre c' post Heq Hw. destruct pre as [| x pre].
    + cbn [app] in Heq. inversion Heq; subst c'. split; [now apply Hwork |].
      intros t Hr. cbn [List.length] in Hr. lia.
    + cbn [app] in Heq. inversion Heq. now destruct pre.
Qed.

Lemma fetchLoop_follows (chan maxMessages : nat) (skip deleteOld : bool)
    (cutoff : option Z) (limit : Z) (fuel : nat) :
  forall (fetched : nat) (lastId : option nat) (acc : list Msg * list Msg)
         (st : RunState),
    (lastId = None -> cleanupCancelled st = false) ->
    exists new,
      follows env st
        (snd (fetchLoop env fuel chan maxMessages skip deleteOld cutoff limit
                fetched lastId acc st)) new.
Proof.
  induction fuel as [| fuel IH]; intros fetched lastId acc st Hfirst;
    cbn [fetchLoop].
  - exists []. now apply follows_nil.
  - destruct (fetched <? maxMessages)%nat; [| exists []; now apply follows_nil].
    set (batchSize := Nat.min 100 (maxMessages - fetched)).
    set (answer := env_fetch env (tick st) chan lastId batchSize).
    assert (Hstep : follows env st (await env (CFetch chan lastId batchSize answer) st)
                      [CFetch chan lastId batchSize answer]).
    { apply follows_await. cbn [starts_work]. destruct lastId; [discriminate |].
      intros _. now apply Hfirst. }
    clearbody answer. destruct answer as [err | [| m ms]]; cbn [snd].
    + eexists. exact Hstep.
    + eexists. exact Hstep.
    + match goal with
      | |- context [fetchLoop env fuel chan maxMessages skip deleteOld cutoff limit
                      ?f ?l ?a ?s] =>
          destruct (IH f l a s) as (new & Hnew); [discriminate |]
      end.
      eexists. exact (follows_trans _ _ _ _ _ Hstep Hnew).
Qed.

Lemma bulkPhase_follows (chan : nat) (fuel : nat) :
  forall (rest : list Msg) (deleted : nat) (st : RunState),
    exists new, follows env st (snd (bulkPhase env fuel chan rest deleted st)) new.
Proof.
  induction fuel as [| fuel IH]; intros rest deleted st; cbn [bulkPhase].
  - exists []. now apply follows_nil.
  - destruct (firstn 100 rest) as [| m [| m2 batch]].
    + exists []. now apply follows_nil.
    + set (answer := env_delete env (tick st) m).
      assert (Hstep : follows env st (await env (CDeleteSingle m answer) st)
                        [CDeleteSingle m answer])
        by (apply follows_await; discriminate).
      clearbody answer. destruct answer as [err |].
      * eexists. exact Hstep.
      * destruct (IH (skipn 100 rest) (S deleted)
                    (await env (CDeleteSingle m None) st)) as (new & Hnew).
        eexists. exact (follows_trans _ _ _ _ _ Hstep Hnew).
    + set (answer := env_bulkDelete env (tick st) chan (m :: m2 :: batch)).
      assert (Hstep : follows env st
                        (await env (CBulkDelete chan (m :: m2 :: batch) answer) st)
                        [CBulkDelete chan (m :: m2 :: batch) answer])
        by (apply follows_await; discriminate).
      clearbody answer. destruct answer as [err | size].
      * eexists. exact Hstep.
      * destruct (IH (skipn 100 rest) (deleted + size)%nat
                    (await env (CBulkDelete chan (m :: m2 :: batch) (inr size)) st))
          as (new & Hnew).
        eexists. exact (follows_trans _ _ _ _ _ Hstep Hnew).
Qed.

Lemma oldPhase_follows (catName chanName : string) (oldToDelete : list Msg) :
  forall (deleted : nat) (st : RunState),
    exists new,
      follows env st (snd (oldPhase env catName chanName oldToDelete deleted st)) new.
Proof.
  induction oldToDelete as [| msg rest IH]; intros deleted st; cbn [oldPhase].
  - exists []. now apply follows_nil.
  - destruct (cleanupCancelled st) eqn:Hst; [exists []; now apply follows_nil |].
    set (answer := env_delete env (tick st) msg).
    assert (Hstep : follows env st (await env (CDeleteOld msg answer) st)
                      [CDeleteOld msg answer])
      by (apply follows_await; intros _; exact Hst).
    clearbody answer. destruct answer as [err |].
    + set (st1 := log WARN (MDeleteFailed catName chanName (msg_id msg) err)
                    (await env (CDeleteOld msg (Some err)) st)).
      assert (Hlog : follows env (await env (CDeleteOld msg (Some err)) st) st1 [])
        by now apply follows_nil.
      assert (Hsleep : follows env st1 (await env (CSleep 1200) st1) [CSleep 1200])
        by (apply follows_await; discriminate).
      destruct (IH deleted (await env (CSleep 1200) st1)) as (new & Hnew).
      eexists.
      exact (follows_trans _ _ _ _ _
               (follows_trans _ _ _ _ _ (follows_trans _ _ _ _ _ Hstep Hlog) Hsleep)
               Hnew).
    + set (st1 := await env (CDeleteOld msg None) st).
      assert (Hsleep : follows env st1 (await env (CSleep 1200) st1) [CSleep 1200])
        by (apply follows_await; discriminate).
      destruct (IH (S deleted) (await env (CSleep 1200) st1)) as (new & Hnew).
      eexists.
      exact (follows_trans _ _ _ _ _ (follows_trans _ _ _ _ _ Hstep Hsleep) Hnew).
Qed.

End Cancellation.

Section CancellationLoops.

Variable env : Env.
Variable config : Config.
Variable effectiveDryRun : bool.
Variable categoryFilter channelFilter : option string.

Lemma processChannel_follows (catName : string) (deleteOld : bool)
    (channel : TextChannel) (retention : value) (source : string) (st : RunState) :
  cleanupCancelled st = false ->
  exists new,
    follows env st
      (snd (processChannel env config effectiveDryRun catName deleteOld channel
              retention source st)) new.
Proof.
  intros Hst. unfold processChannel.
  destruct (fetchLoop_follows env (tc_id channel)
              (maxMessagesPerChannel (discord config)) (skipPinned (discord config))
              deleteOld (cutoff_of (env_now env (tick st)) retention)
              (bulkDeleteLimit_of (env_now env (tick st)))
              (maxMessagesPerChannel (discord config)) O None ([], []) st
              (fun _ => Hst)) as (newF & HF).
  fold (scanChannel env config deleteOld channel retention st) in HF.
  destruct (scanChannel env config deleteOld channel retention st)
    as [[[[bulk old] fetched] | err] st1]; cbn [snd] in HF.
  2:{ exists (newF ++ []). apply (follows_trans _ _ _ _ _ _ HF).
      now apply follows_nil. }
  destruct (List.length bulk + List.length old =? 0)%nat.
  { exists (newF ++ []). apply (follows_trans _ _ _ _ _ _ HF). now apply follows_nil. }
  destruct effectiveDryRun.
  { exists (newF ++ []). apply (follows_trans _ _ _ _ _ _ HF). now apply follows_nil. }
  destruct (bulkPhase_follows env (tc_id channel) (List.length bulk) bulk O st1)
    as (newB & HB).
  destruct (bulkPhase env (List.length bulk) (tc_id channel) bulk O st1)
    as [[deleted1 | err] st2]; cbn [snd] in HB.
  2:{ exists ((newF ++ newB) ++ []).
      apply (follows_trans _ _ _ _ _ _ (follows_trans _ _ _ _ _ _ HF HB)).
      now apply follows_nil. }
  destruct (oldPhase_follows env catName (tc_name channel)
              (firstn (maxOldDeletesPerChannel (discord config)) old) deleted1 st2)
    as (newO & HO).
  destruct (oldPhase env catName (tc_name channel)
              (firstn (maxOldDeletesPerChannel (discord config)) old) deleted1 st2)
    as [deleted st3]; cbn [snd] in HO.
  exists (((newF ++ newB) ++ newO) ++ []).
  apply (follows_trans _ _ _ _ _ _
           (follows_trans _ _ _ _ _ _ (follows_trans _ _ _ _ _ _ HF HB) HO)).
  apply follows_nil;
    destruct (maxOldDeletesPerChannel (discord config) <? List.length old)%nat;
    reflexivity.
Qed.

Lemma channelLoop_follows (catName : string) (deleteOld : bool)
    (allowed : list string) (allowedCount : nat) (channels : list TextChannel) :
  forall (results : list ChannelResult) (catErrors : bool) (index : nat)
         (st : RunState),
  exists new,
    follows env st
      (snd (channelLoop env config effectiveDryRun channelFilter catName deleteOld
              allowed allowedCount channels results catErrors index st)) new.
Proof.
  induction channels as [| channel rest IH]; intros results catErrors index st;
    cbn [channelLoop].
  - exists []. now apply follows_nil.
  - destruct (cleanupCancelled st) eqn:Hst; [exists []; now apply follows_nil |].
    destruct (has_name allowed (tc_name channel)); cbn [negb].
    2:{ destruct (IH results catErrors index (add_skipped 1 st)) as (new & Hnew).
        exists ([] ++ new). refine (follows_trans _ _ _ _ _ _ _ Hnew).
        now apply follows_nil. }
    destruct (filtered_out channelFilter (tc_name channel)); [apply IH |].
    destruct (getRetention config catName (tc_name channel)) as [retention warnings].
    set (st2 := logs warnings
                  (log INFO (MScanning catName (tc_name channel) (S index) allowedCount)
                     (add_processed st))).
    assert (H2 : follows env st st2 []) by now apply follows_nil.
    assert (Hst2 : cleanupCancelled st2 = false) by exact Hst.
    clearbody st2.
    destruct (is_never retention).
    + destruct (IH (results ++ [CRSkipped (tc_name channel)]) catErrors (S index) st2)
        as (new & Hnew).
      exists ([] ++ new). exact (follows_trans _ _ _ _ _ _ H2 Hnew).
    + destruct (processChannel_follows catName deleteOld channel retention
                  (getRetentionSource config catName (tc_name channel)) st2 Hst2)
        as (newP & HP).
      destruct (processChannel env config effectiveDryRun catName deleteOld channel
                  retention (getRetentionSource config catName (tc_name channel)) st2)
        as [r st3]; cbn [snd] in HP.
      assert (Hsleep : follows env st3
                         (await env (CSleep (delayBetweenChannels (discord config))) st3)
                         [CSleep (delayBetweenChannels (discord config))])
        by (apply follows_await; discriminate).
      destruct (IH (results ++ [r]) (catErrors || is_error r) (S index)
                  (await env (CSleep (delayBetweenChannels (discord config))) st3))
        as (new & Hnew).
      eexists.
      exact (follows_trans _ _ _ _ _ _
               (follows_trans _ _ _ _ _ _ (follows_trans _ _ _ _ _ _ H2 HP) Hsleep)
               Hnew).
Qed.

Lemma categoryLoop_follows (cats : list (string * list TextChannel)) :
  forall (categoryStats : list (string * CategoryStats)) (embeds : list string)
         (st : RunState),
  exists new,
    follows env st
      (snd (categoryLoop env config effectiveDryRun categoryFilter channelFilter
              cats categoryStats embeds st)) new.
Proof.
  induction cats as [| [catName channels] rest IH]; intros categoryStats embeds st;
    cbn [categoryLoop].
  - exists []. now apply follows_nil.
  - destruct (cleanupCancelled st); [exists []; now apply follows_nil |].
    destruct (isEnabled config catName); cbn [negb].
    2:{ destruct (IH categoryStats embeds (add_skipped (List.length channels) st))
          as (new & Hnew).
        exists ([] ++ new). refine (follows_trans _ _ _ _ _ _ _ Hnew).
        now apply follows_nil. }
    destruct (filtered_out categoryFilter catName); [apply IH |].
    match goal with
    | |- context [channelLoop env config effectiveDryRun channelFilter catName
                    ?d ?a ?n channels [] false O ?s] =>
        destruct (channelLoop_follows catName d a n channels [] false O s)
          as (newC & HC);
        destruct (channelLoop env config effectiveDryRun channelFilter catName
                    d a n channels [] false O s) as [[channelResults catErrors] st2];
        assert (H1 : follows env st s []) by now apply follows_nil
    end.
    cbn [snd] in HC.
    match goal with
    | |- context [categoryLoop _ _ _ _ _ rest ?cs ?em st2] =>
        destruct (IH cs em st2) as (new & Hnew)
    end.
    eexists.
    exact (follows_trans _ _ _ _ _ _ (follows_trans _ _ _ _ _ _ H1 HC) Hnew).
Qed.

End CancellationLoops.

(** X12.  A run starts new work only while no cancellation has been
    requested: the first page of a channel is fetched, and an old message
    is deleted individually, only if no cancellation was requested during
    any earlier await of the run.  A run that completes reports itself
    cancelled exactly when a cancellation was requested during one of the
    awaits up to the end of its loop over the categories; the only await
    that comes later is that of the webhook, and a cancellation requested
    during it is not reported. *)
Theorem cancel_is_heeded (options : Options) (w : Outside) (p : Process) :
  let result := runCleanup options w p in
  exists new tail,
    p_calls (snd result) = p_calls p ++ new ++ tail
    /\ (tail = [] \/ exists embeds, tail = [CWebhook embeds])
    /\ (forall pre c post, new = pre ++ c :: post -> starts_work c = true ->
          quiet (o_env w) O (List.length pre))
    /\ (forall stats, fst result = RunCompleted stats ->
          (run_cancelled stats = false <-> quiet (o_env w) O (List.length new))).
Proof.
  intros result. subst result. unfold runCleanup.
  destruct (p_cleanupRunning p).
  { cbn [fst snd p_calls]. exists [], []. rewrite app_nil_r.
    split; [reflexivity |]. split; [now left |].
    split; [intros [] ? ? H; discriminate H | discriminate]. }
  destruct (match o_disk w with
            | Some parsed => loadConfig parsed
            | None => (p_config p, [(ERROR, MReloadFailed)])
            end) as [config lines].
  destruct (o_guild w) as [textChannels |].
  2:{ cbn [fst snd p_calls]. exists [], []. rewrite app_nil_r.
      split; [reflexivity |]. split; [now left |].
      split; [intros [] ? ? H; discriminate H | discriminate]. }
  assert (H0 : follows (o_env w) initialRunState
                 (await (o_env w) CChannelsFetch initialRunState) [CChannelsFetch])
    by (apply follows_await; discriminate).
  destruct (o_channelsFetch w) as [err |].
  { cbn [fst snd p_calls]. exists [CChannelsFetch], [].
    split; [reflexivity |]. split; [now left |]. split; [| discriminate].
    intros pre c post Heq Hwork. destruct H0 as (_ & _ & _ & Hw).
    exact (proj2 (Hw pre c post Heq Hwork)). }
  destruct (autoDiscoverChannels (o_locale_lt w) textChannels config)
    as [[[config1 changes] lines2] written].
  set (effectiveDryRun := if forceLive options then false
                          else dryRun config || forceDryRun options).
  set (st1 := if written && discoveryComplete config && (0 <? changes)%nat
                 && webhookInfo config1
              then await (o_env w) CNotifyDiscovery
                     (await (o_env w) CChannelsFetch initialRunState)
              else await (o_env w) CChannelsFetch initialRunState).
  assert (H1 : exists pre, follows (o_env w) initialRunState st1 pre).
  { subst st1. destruct (written && discoveryComplete config && (0 <? changes)%nat
                         && webhookInfo config1).
    - eexists. eapply follows_trans; [exact H0 | apply follows_await; discriminate].
    - eexists. exact H0. }
  destruct H1 as (pre1 & H1).
  destruct (categoryLoop_follows (o_env w) config1 effectiveDryRun
              (categoryFilter options) (channelFilter options)
              (categoryChannelMap_of textChannels) [] [] st1) as (new & Hnew).
  destruct (categoryLoop (o_env w) config1 effectiveDryRun (categoryFilter options)
              (channelFilter options) (categoryChannelMap_of textChannels) [] [] st1)
    as [[categoryStats embeds] st2].
  cbn [fst snd] in Hnew |- *.
  pose proof (follows_trans _ _ _ _ _ _ H1 Hnew) as (Hc & _ & Hk & Hw).
  cbn [calls tick cleanupCancelled initialRunState app] in Hc, Hk, Hw.
  exists (pre1 ++ new),
         (match embeds with [] => [] | _ :: _ => [CWebhook embeds] end).
  split; [| split; [| split]].
  - cbn [p_calls]. destruct embeds as [| e embeds]; cbn [await log calls];
      rewrite Hc; now rewrite ?app_nil_r, <- ?app_assoc.
  - destruct embeds as [| e embeds]; [now left | right; now eexists].
  - intros pre c post Heq Hwork. exact (proj2 (Hw pre c post Heq Hwork)).
  - intros stats Heq. inversion Heq; subst stats. cbn [run_cancelled].
    rewrite Hk. tauto.
Qed.

(** ** Discovery on a configuration that lists everything *)

Section DiscoveryStable.

Variable locale_lt : string -> string -> bool.

Lemma discover_channels_stable (gd : value) (catName : string)
    (existingNames sortedChannels : list string) (cat : Category) :
  (forall name, In name sortedChannels -> In name existingNames) ->
  discover_channels locale_lt gd catName existingNames sortedChannels cat
  = (cat, O, []).
Proof.
  rewrite discover_channels_fold. generalize (@nil logrec) as out. generalize O as n.
  induction sortedChannels as [| chanName rest IH]; intros n out Hall;
    cbn [fold_left]; [reflexivity |].
  change (discover_channel_step locale_lt gd catName existingNames (cat, n, out) chanName)
    with (if has_name existingNames chanName then (cat, n, out)
          else
            (set_channels cat
               (sort_entries locale_lt (channels_or_empty cat ++ [EName chanName])),
             S n,
             out ++ [(INFO, MAutoChannel chanName catName (nullish (cat_default cat) gd)
                              (if defined (cat_default cat)
                               then "category" else "global"))])).
  assert (Hknown : has_name existingNames chanName = true).
  { apply has_name_in. apply Hall. now left. }
  rewrite Hknown. apply IH. intros name Hin. apply Hall. now right.
Qed.

Lemma discover_categories_stable (config : Config) (d : list (string * list string))
    (cats : list (string * Category)) :
  (forall k names, In (k, names) d ->
     exists cat, lookup_category cats k = Some cat
                 /\ forall name, In name names -> In name (listed cat)) ->
  forall (n : nat) (out : list logrec),
    fold_left (discover_category_step locale_lt config) d (cats, n, out)
    = (cats, n, out).
Proof.
  induction d as [| [catName channels] rest IH]; intros Hall n out;
    cbn [fold_left]; [reflexivity |].
  destruct (Hall catName channels) as (cat & Hcat & Hnames); [now left |].
  assert (Hstep : discover_category_step locale_lt config (cats, n, out)
                    (catName, channels) = (cats, n, out)).
  { unfold discover_category_step. rewrite Hcat.
    rewrite discover_channels_stable.
    - cbn [Nat.ltb Nat.leb]. now rewrite Nat.add_0_r, app_nil_r.
    - intros name Hin. apply Hnames. unfold sort_names in Hin.
      exact (Permutation_in _ (sort_by_perm _ channels) Hin). }
  rewrite Hstep. apply IH. intros k names Hin. apply Hall. now right.
Qed.

Lemma autoDiscoverChannels_stable (textChannels : list TextChannel) (config : Config) :
  discoveryComplete config = true ->
  (forall k names, In (k, names) (discoveredMap_of textChannels) ->
     exists cat, lookup_category (categories config) k = Some cat
                 /\ forall name, In name names -> In name (listed cat)) ->
  autoDiscoverChannels locale_lt textChannels config = (config, O, [], false).
Proof.
  intros Hcomplete Hall. unfold autoDiscoverChannels.
  rewrite (fold_left_ext _ (discover_category_step locale_lt config))
    by (intros [[c n] o] [k chans]; reflexivity).
  rewrite (discover_categories_stable config _ _ Hall).
  clear Hall. destruct config as [g d s c dc wi].
  cbn [discoveryComplete] in Hcomplete. subst dc. reflexivity.
Qed.

End DiscoveryStable.

(** X13.  Incremental discovery reaches a fixed point at once: run again
    on the configuration it produced, for the same guild, it changes
    nothing, logs nothing, and does not write the configuration file. *)
Theorem discovery_is_idempotent (locale_lt : string -> string -> bool)
    (textChannels : list TextChannel) (config : Config) :
  let config' := fst (fst (fst (autoDiscoverChannels locale_lt textChannels config))) in
  autoDiscoverChannels locale_lt textChannels config' = (config', O, [], false).
Proof.
  intros config'. apply autoDiscoverChannels_stable.
  - subst config'. unfold autoDiscoverChannels.
    destruct (fold_left _ (discoveredMap_of textChannels) (categories config, O, []))
      as [[cats changes] out].
    destruct ((0 <? changes)%nat || negb (discoveryComplete config)) eqn:Hw;
      cbn [fst discoveryComplete]; [reflexivity |].
    apply orb_false_iff in Hw. destruct Hw as [_ Hw].
    now destruct (discoveryComplete config).
  - pose proof (autoDiscoverChannels_fold locale_lt textChannels config) as Hcats.
    fold config' in Hcats.
    destruct (discover_categories_facts locale_lt config (discoveredMap_of textChannels)
                (categories config) O []) as (_ & _ & Hall).
    rewrite <- Hcats in Hall. exact Hall.
Qed.

(** X14.  After a full sync that completes, incremental discovery for the
    same guild has nothing to add, once the first discovery has been
    made: it returns the configuration unchanged and does not write it. *)
Theorem discovery_after_sync (exitOnError : bool) (w : Outside) (p p' : Process)
    (report : SyncReport) (textChannels : list TextChannel)
    (locale_lt : string -> string -> bool) :
  config_defined (p_config p) = true ->
  discoveryComplete (p_config p) = true ->
  o_guild w = Some textChannels ->
  syncConfig exitOnError w p = (SyncDone report, p') ->
  autoDiscoverChannels locale_lt textChannels (p_config p')
  = (p_config p', O, [], false).
Proof.
  intros Hdef Hcomplete Hguild Hsync.
  assert (Hkeep : discoveryComplete (p_config p') = true).
  { unfold syncConfig in Hsync. rewrite Hguild in Hsync.
    destruct (o_channelsFetch w) as [err |]; [discriminate |].
    destruct (syncCategories (globalDefault (p_config p))
                (discoveredMap_of textChannels) (categories (p_config p)))
      as [[[cats changes] details] lines].
    inversion Hsync; subst p'. exact Hcomplete. }
  assert (Hall : forall k names, In (k, names) (discoveredMap_of textChannels) ->
            exists cat', lookup_category (categories (p_config p')) k = Some cat'
                         /\ reconciled (globalDefault (p_config p))
                              (lookup_category (categories (p_config p)) k) names cat').
  { unfold syncConfig in Hsync. rewrite Hguild in Hsync.
    destruct (o_channelsFetch w) as [err |]; [discriminate |].
    destruct (syncCategories (globalDefault (p_config p))
                (discoveredMap_of textChannels) (categories (p_config p)))
      as [[[cats changes] details] lines] eqn:Hcats.
    inversion Hsync; subst p'. cbn [p_config categories].
    exact (proj1 (syncCategories_reconciles _ _ _ _ _ _ _
                    (discoveredMap_nodup textChannels) Hdef Hcats)). }
  apply autoDiscoverChannels_stable; [exact Hkeep |].
  intros k names Hin. destruct (Hall k names Hin) as (cat' & Hcat' & Hlisted & _).
  exists cat'. split; [exact Hcat' |].
  intros name Hname. rewrite Hlisted. now apply sort_names_in.
Qed.

Lemma discovery_after_sync_witness :
  autoDiscoverChannels String.ltb Samples.logs_only
    (p_config (snd (syncConfig false Samples.guild_logs_only Samples.idle_discovered)))
  = (p_config (snd (syncConfig false Samples.guild_logs_only Samples.idle_discovered)),
     O, [], false).
Proof.
  destruct (syncConfig false Samples.guild_logs_only Samples.idle_discovered)
    as [outcome p'] eqn:Hrun.
  assert (Hout : exists report, outcome = SyncDone report).
  { assert (H : outcome
                = fst (syncConfig false Samples.guild_logs_only
                         Samples.idle_discovered))
      by now rewrite Hrun.
    rewrite H. vm_compute. eexists. reflexivity. }
  destruct Hout as (report & ->). cbn [snd].
  exact (discovery_after_sync false Samples.guild_logs_only Samples.idle_discovered
           p' report Samples.logs_only String.ltb eq_refl eq_refl eq_refl Hrun).
Defined.

(** ** Log rotation *)

Lemma ltb_trans (a b c : string) :
  String.ltb a b = true -> String.ltb b c = true -> String.ltb a c = true.
Proof.
  unfold String.ltb.
  pose proof (@RelationClasses.StrictOrder_Transitive _ _
                String_as_OT.lt_strorder a b c) as H.
  unfold String_as_OT.lt in H.
  change String_as_OT.compare with String.compare in H.
  destruct (String.compare a b); try discriminate.
  destruct (String.compare b c); try discriminate.
  intros _ _. now rewrite H.
Qed.

Lemma ltb_asym (a b : string) : String.ltb a b = true -> String.ltb b a = false.
Proof.
  unfold String.ltb. rewrite (String.compare_antisym a b).
  now destruct (String.compare b a).
Qed.

(** When [y] is not before [x], anything before [x] is before [y]. *)
Lemma ltb_before (x y z : string) :
  String.ltb y x = false -> String.ltb z x = true -> String.ltb z y = true.
Proof.
  intros Hyx Hzx.
  destruct (String.compare x y) eqn:Hc.
  - apply String.compare_eq_iff in Hc. now subst y.
  - apply (ltb_trans z x y); [exact Hzx |]. unfold String.ltb. now rewrite Hc.
  - unfold String.ltb in Hyx. rewrite (String.compare_antisym y x), Hc in Hyx.
    discriminate Hyx.
Qed.

Lemma insert_by_name_sorted (x : string) (l : list string) :
  StronglySorted (fun a b => String.ltb b a = false) l ->
  StronglySorted (fun a b => String.ltb b a = false) (insert_by String.ltb x l).
Proof.
  induction 1 as [| y rest Hsorted IH Hall]; cbn [insert_by].
  - repeat constructor.
  - destruct (String.ltb y x) eqn:Hlt.
    + constructor; [exact IH |].
      rewrite Forall_forall in Hall |- *. intros z Hz.
      apply (Permutation_in _ (insert_by_perm _ x rest)) in Hz.
      destruct Hz as [<- | Hz]; [now apply ltb_asym | now apply Hall].
    + constructor; [now constructor |].
      constructor; [exact Hlt |].
      rewrite Forall_forall in Hall |- *. intros z Hz.
      specialize (Hall z Hz). cbn beta in Hall.
      destruct (String.ltb z x) eqn:Hzx; [| reflexivity].
      rewrite (ltb_before x y z Hlt Hzx) in Hall. discriminate Hall.
Qed.

Lemma sort_names_sorted (names : list string) :
  StronglySorted (fun a b => String.ltb b a = false) (sort_names names).
Proof.
  unfold sort_names, sort_by.
  induction names as [| x rest IH]; cbn [fold_right]; [constructor |].
  now apply insert_by_name_sorted.
Qed.

Lemma rotate_loop_prefix (unlink_fails : string -> bool) (maxDays : Z)
    (files : list string) :
  forall removed,
    exists gone kept,
      rotate_loop unlink_fails maxDays files removed = removed ++ gone
      /\ files = gone ++ kept
      /\ (Z.of_nat (List.length kept) >= maxDays \/ gone = [])
      /\ ((forall f, unlink_fails f = false) ->
          Z.of_nat (List.length kept)
          = Z.min (Z.of_nat (List.length files)) (Z.max 0 maxDays)).
Proof.
  induction files as [| old rest IH]; intros removed; cbn [rotate_loop].
  - exists [], []. rewrite app_nil_r. cbn. repeat split; [now right | lia].
  - destruct (Z.of_nat (List.length (old :: rest)) >? maxDays) eqn:Hmore.
    + destruct (unlink_fails old) eqn:Hfail.
      * exists [], (old :: rest). rewrite app_nil_r.
        repeat split; [now right |]. intros Hnone. congruence.
      * destruct (IH (removed ++ [old])) as (gone & kept & Hrun & Hsplit & Hbound & Hall).
        exists (old :: gone), kept. rewrite Hrun, <- app_assoc. cbn [app].
        split; [reflexivity |]. split; [now rewrite Hsplit |]. split.
        -- left. destruct Hbound as [Hb | ->]; [exact Hb |].
           cbn [app] in Hsplit. subst kept.
           apply Z.gtb_lt in Hmore. cbn [List.length] in Hmore. lia.
        -- intros Hnone. rewrite (Hall Hnone).
           apply Z.gtb_lt in Hmore. cbn [List.length] in Hmore |- *. lia.
    + exists [], (old :: rest). rewrite app_nil_r.
      repeat split; [now right |]. intros _.
      pose proof (Zgt_cases (Z.of_nat (List.length (old :: rest))) maxDays) as Hc.
      rewrite Hmore in Hc. lia.
Qed.

Lemma sorted_app_le (gone kept : list string) :
  StronglySorted (fun a b => String.ltb b a = false) (gone ++ kept) ->
  forall a b, In a gone -> In b kept -> String.ltb b a = false.
Proof.
  induction gone as [| x rest IH]; cbn [app]; intros Hsorted a b Ha Hb;
    [contradiction |].
  inversion Hsorted as [| ? ? Hrest Hall]; subst.
  destruct Ha as [<- | Ha].
  - rewrite Forall_forall in Hall. apply Hall. apply in_or_app. now right.
  - now apply IH.
Qed.

(** X15.  Log rotation removes only files of the log directory named
    [purgebot-*.log].  What it removes is an initial part of these names
    in sorted order, so that no file removed comes after a file kept, and
    it never brings the number of log files below [maxDays]; when no
    removal fails, exactly the last [maxDays] log files are left (all of
    them when there are fewer).  When the directory cannot be read,
    nothing is removed. *)
Theorem rotateLogs_keeps_newest (unlink_fails : string -> bool) (maxDays : Z)
    (names : list string) :
  let removed := rotateLogs unlink_fails maxDays (Some names) in
  let logs := sort_names (filter is_log_file names) in
  rotateLogs unlink_fails maxDays None = []
  /\ (forall f, In f removed -> In f names /\ is_log_file f = true)
  /\ exists kept,
       logs = removed ++ kept
       /\ (forall a b, In a removed -> In b kept -> String.ltb b a = false)
       /\ (removed <> [] -> Z.of_nat (List.length kept) >= maxDays)
       /\ ((forall f, unlink_fails f = false) ->
           Z.of_nat (List.length kept)
           = Z.min (Z.of_nat (List.length logs)) (Z.max 0 maxDays)).
Proof.
  intros removed logs. subst removed. unfold rotateLogs. fold logs.
  destruct (rotate_loop_prefix unlink_fails maxDays logs [])
    as (gone & kept & Hrun & Hsplit & Hbound & Hall).
  cbn [app] in Hrun. rewrite Hrun.
  split; [reflexivity |]. split.
  - intros f Hf.
    assert (Hin : In f logs) by (rewrite Hsplit; apply in_or_app; now left).
    subst logs. unfold sort_names in Hin.
    apply (Permutation_in _ (sort_by_perm _ _)) in Hin.
    apply filter_In in Hin. exact Hin.
  - exists kept. split; [exact Hsplit |]. split; [| split; [| exact Hall]].
    + apply sorted_app_le. rewrite <- Hsplit. apply sort_names_sorted.
    + intros Hne. destruct Hbound as [Hb | Hb]; [exact Hb | contradiction].
Qed.

(** ** The cleanup webhook *)

Section WebhookFacts.

Context {E : Type}.
Variable respond : nat -> list E -> Webhook.answer.

Lemma batches_app (a b : list (Webhook.call E)) :
  Webhook.batches (a ++ b) = Webhook.batches a ++ Webhook.batches b.
Proof. unfold Webhook.batches. apply flat_map_app. Qed.

Lemma lines_of_app (a b : list (Webhook.call E)) :
  Webhook.lines_of (a ++ b) = Webhook.lines_of a ++ Webhook.lines_of b.
Proof. unfold Webhook.lines_of. apply flat_map_app. Qed.

Lemma sendLoop_posts (fuel : nat) :
  forall (rest : list E) (trace : list (Webhook.call E)) (out : list Webhook.line),
    (List.length rest <= fuel)%nat ->
    exists new,
      Webhook.sendLoop fuel respond rest trace out
      = (trace ++ new, out ++ Webhook.lines_of new)
      /\ List.concat (Webhook.batches new) = rest
      /\ Forall (fun batch => (1 <= List.length batch <= 10)%nat) (Webhook.batches new)
      /\ (rest = [] -> new = [])
      /\ (rest <> [] -> exists pre batch a, new = pre ++ [Webhook.Post batch a]).
Proof.
  induction fuel as [| fuel IH]; intros rest trace out Hfuel.
  - destruct rest; [| cbn in Hfuel; lia].
    exists []. cbn. rewrite !app_nil_r.
    split; [reflexivity |]. split; [reflexivity |]. split; [constructor |].
    split; [reflexivity | congruence].
  - cbn [Webhook.sendLoop].
    destruct (firstn 10 rest) as [| e batch] eqn:Hb.
    + assert (rest = []) by (destruct rest; [reflexivity | discriminate Hb]).
      subst rest. exists []. cbn. rewrite !app_nil_r.
      split; [reflexivity |]. split; [reflexivity |]. split; [constructor |].
      split; [reflexivity | congruence].
    + pose proof (firstn_nonempty _ _ _ _ Hb) as Hlt.
      pose proof (firstn_skipn 10 rest) as Hsplit. rewrite Hb in Hsplit.
      assert (Hsize : (1 <= List.length (e :: batch) <= 10)%nat).
      { split; [cbn; lia |]. rewrite <- Hb, length_firstn. apply Nat.le_min_l. }
      set (a := respond (List.length trace) (e :: batch)).
      set (tail := if Webhook.reaches_sleep a
                      && negb (List.length (skipn 10 rest) =? 0)%nat
                   then [Webhook.Sleep 1000] else @nil (Webhook.call E)).
      assert (Htail : Webhook.batches tail = [] /\ Webhook.lines_of tail = []
                      /\ (skipn 10 rest = [] -> tail = [])).
      { subst tail. destruct (Webhook.reaches_sleep a); cbn [andb].
        - destruct (skipn 10 rest); cbn; tauto || (repeat split; discriminate).
        - cbn. tauto. }
      destruct Htail as (Htb & Htl & Hte).
      destruct (IH (skipn 10 rest)
                  (trace ++ [Webhook.Post (e :: batch) a] ++ tail)
                  (out ++ Webhook.logged a)) as (new & Hrun & Hcat & Hall & Hnil & Hlast);
        [lia |].
      exists ([Webhook.Post (e :: batch) a] ++ tail ++ new).
      rewrite Hrun, !batches_app, !lines_of_app, Htb, Htl.
      cbn [Webhook.batches Webhook.lines_of flat_map app List.concat].
      rewrite !app_nil_r, Hcat, <- !app_assoc. cbn [app].
      split; [reflexivity |]. split; [exact Hsplit |].
      split; [constructor; assumption |].
      split; [intros ->; discriminate Hb |]. intros _.
      destruct (skipn 10 rest) as [| x xs] eqn:Hskip.
      * rewrite (Hte eq_refl), (Hnil eq_refl).
        exists [], (e :: batch), a. reflexivity.
      * destruct Hlast as (pre & b0 & a0 & ->); [discriminate |].
        exists (Webhook.Post (e :: batch) a :: tail ++ pre), b0, a0.
        cbn [app]. now rewrite <- app_assoc.
Qed.

End WebhookFacts.

(** X16.  The cleanup webhook posts every embed exactly once and in order,
    in batches of 1 to 10, whatever the answers: a refused or failed POST
    does not stop the later batches.  Each refused or failed POST leaves
    its line in the log and nothing else does; the last call is a POST, so
    there is no wait after the last batch.  Without a webhook address
    nothing is posted. *)
Theorem webhook_posts_every_embed {E : Type} (respond : nat -> list E -> Webhook.answer)
    (embeds : list E) :
  let result := Webhook.sendWebhook true respond embeds in
  Webhook.sendWebhook false respond embeds = ([], [])
  /\ List.concat (Webhook.batches (fst result)) = embeds
  /\ Forall (fun batch => (1 <= List.length batch <= 10)%nat)
       (Webhook.batches (fst result))
  /\ snd result = Webhook.lines_of (fst result)
  /\ (embeds = [] -> fst result = [])
  /\ (embeds <> [] ->
      exists pre batch a, fst result = pre ++ [Webhook.Post batch a]).
Proof.
  cbn zeta. unfold Webhook.sendWebhook.
  destruct (sendLoop_posts respond (List.length embeds) embeds [] [] (le_n _))
    as (new & Hrun & Hcat & Hall & Hnil & Hlast).
  rewrite Hrun. cbn [app fst snd]. tauto.
Qed.

(** ** A run goes on after a failure *)

Section Continuation.

Variable env : Env.
Variable config : Config.
Variable effectiveDryRun : bool.
Variable categoryFilter channelFilter : option string.

Hypothesis never_cancelled : forall t, env_cancel env t = false.

Lemma channelLoop_not_cancelled (catName : string) (deleteOld : bool)
    (allowed : list string) (allowedCount : nat) (channels : list TextChannel)
    (results : list ChannelResult) (catErrors : bool) (index : nat)
    (st : RunState) :
  cleanupCancelled st = false ->
  cleanupCancelled
    (snd (channelLoop env config effectiveDryRun channelFilter catName deleteOld
            allowed allowedCount channels results catErrors index st)) = false.
Proof.
  intros Hst.
  destruct (channelLoop_follows env config effectiveDryRun channelFilter catName
              deleteOld allowed allowedCount channels results catErrors index st)
    as (new & _ & _ & Hflag & _).
  apply Hflag. split; [exact Hst |]. intros t _. apply never_cancelled.
Qed.

(** While no cancellation is requested, the loop over the categories gives
    every enabled category that passes the filter its statistics, in order,
    with one entry for each of its channels that is to be processed,
    whatever happened in the channels and categories before. *)
Lemma categoryLoop_visits_all (cats : list (string * list TextChannel)) :
  NoDup (map fst cats) ->
  forall (categoryStats : list (string * CategoryStats)) (embeds : list string)
         (st : RunState),
  (forall k, In k (map fst cats) -> ~ In k (map fst categoryStats)) ->
  cleanupCancelled st = false ->
  map visited
    (fst (fst (categoryLoop env config effectiveDryRun categoryFilter channelFilter
                 cats categoryStats embeds st)))
  = map visited categoryStats ++ due config categoryFilter channelFilter cats.
Proof.
  induction cats as [| [catName channels] rest IH];
    intros Hnd categoryStats embeds st Hfresh Hst.
  - cbn. now rewrite app_nil_r.
  - cbn [map fst] in Hnd. inversion Hnd as [| ? ? Hhead Hrest]; subst.
    assert (Hfresh' : forall k, In k (map fst rest) -> ~ In k (map fst categoryStats)).
    { intros k Hk. apply Hfresh. now right. }
    cbn [categoryLoop]. rewrite Hst.
    unfold due. cbn [filter fst snd].
    destruct (isEnabled config catName) eqn:Hen; cbn [negb andb].
    2:{ apply IH; [exact Hrest | exact Hfresh' | exact Hst]. }
    destruct (filtered_out categoryFilter catName); cbn [negb].
    { apply IH; [exact Hrest | exact Hfresh' | exact Hst]. }
    set (deleteOld := match lookup_category (categories config) catName with
                      | Some cat => not_false (cat_deleteOld cat)
                      | None => true
                      end).
    set (allowedCount :=
           List.length (filter (fun c => has_name (getConfiguredChannels config catName)
                                           (tc_name c)) channels)).
    pose proof (channelLoop_visits_all env config effectiveDryRun channelFilter catName
                  deleteOld (getConfiguredChannels config catName) allowedCount
                  channels never_cancelled [] false O
                  (log INFO (MProcessing catName allowedCount) st) Hst) as Hvisit.
    pose proof (channelLoop_not_cancelled catName deleteOld
                  (getConfiguredChannels config catName) allowedCount channels
                  [] false O (log INFO (MProcessing catName allowedCount) st) Hst)
      as Hkeep.
    destruct (channelLoop env config effectiveDryRun channelFilter catName deleteOld
                (getConfiguredChannels config catName) allowedCount channels
                [] false O (log INFO (MProcessing catName allowedCount) st))
      as [[channelResults catErrors] st2].
    cbn [fst snd map app] in Hvisit, Hkeep.
    rewrite (obj_set_fresh categoryStats catName) by (apply Hfresh; now left).
    rewrite IH; [| exact Hrest | | exact Hkeep].
    + rewrite map_app. cbn [map]. unfold visited at 2.
      cbn [fst snd cs_channels]. rewrite Hvisit, <- app_assoc. reflexivity.
    + intros k Hk. rewrite map_app. cbn [map fst]. intros Hin.
      apply in_app_or in Hin. destruct Hin as [Hin | [<- | []]].
      * apply (Hfresh k); [now right | exact Hin].
      * contradiction.
Qed.

End Continuation.

(** A run that finds the guild and its channels completes, whatever the
    store answers while the channels are processed. *)
Lemma runCleanup_continues (options : Options) (w : Outside) (p : Process)
    (textChannels : list TextChannel) :
  p_cleanupRunning p = false ->
  o_guild w = Some textChannels ->
  o_channelsFetch w = None ->
  exists stats p',
    runCleanup options w p = (RunCompleted stats, p')
    /\ run_totalErrors stats = total_of failed_channels (run_categories stats)
    /\ ((forall t, env_cancel (o_env w) t = false) ->
        map visited (run_categories stats)
        = due (p_config p') (categoryFilter options) (channelFilter options)
            (categoryChannelMap_of textChannels)).
Proof.
  intros Hidle Hguild Hfetch.
  unfold runCleanup. rewrite Hidle, Hguild, Hfetch.
  destruct (match o_disk w with
            | Some parsed => loadConfig parsed
            | None => (p_config p, [(ERROR, MReloadFailed)])
            end) as [config lines].
  destruct (autoDiscoverChannels (o_locale_lt w) textChannels config)
    as [[[config1 changes] lines2] written].
  set (effectiveDryRun := if forceLive options then false
                          else dryRun config || forceDryRun options).
  set (st1 := if written && discoveryComplete config && (0 <? changes)%nat
                 && webhookInfo config1
              then await (o_env w) CNotifyDiscovery
                     (await (o_env w) CChannelsFetch initialRunState)
              else await (o_env w) CChannelsFetch initialRunState).
  assert (Hst1 : totalErrors st1 = O
                 /\ ((forall t, env_cancel (o_env w) t = false) ->
                     cleanupCancelled st1 = false)).
  { subst st1. destruct (written && discoveryComplete config && (0 <? changes)%nat
                         && webhookInfo config1); cbn; split; try reflexivity;
      intros Hno; now rewrite ?Hno. }
  destruct Hst1 as (He1 & Hc1).
  destruct (categoryLoop_counts (o_env w) config1 effectiveDryRun
              (categoryFilter options) (channelFilter options)
              (categoryChannelMap_of textChannels)
              (categoryChannelMap_nodup textChannels) [] [] st1)
    as (added & Ha & _ & _ & _ & _ & He).
  { intros k _ []. }
  pose proof (fun Hno : forall t, env_cancel (o_env w) t = false =>
                categoryLoop_visits_all (o_env w) config1 effectiveDryRun
                  (categoryFilter options) (channelFilter options) Hno
                  (categoryChannelMap_of textChannels)
                  (categoryChannelMap_nodup textChannels) [] [] st1
                  (fun k _ H => H) (Hc1 Hno)) as Hvisit.
  destruct (categoryLoop (o_env w) config1 effectiveDryRun (categoryFilter options)
              (channelFilter options) (categoryChannelMap_of textChannels) [] [] st1)
    as [[categoryStats embeds] st2].
  cbn [fst snd app map] in Ha, He, Hvisit. subst categoryStats.
  rewrite He1 in He.
  eexists. eexists. split; [reflexivity |].
  cbn [run_totalErrors run_categories log totalErrors p_config].
  split; [lia | exact Hvisit].
Qed.

(** C5, as stated, fails twice.  With 101 recent messages and 30 old ones
    in the channel, the bulk phase ends on a batch of one message, deleted
    by itself: 21 deletions of a single message, one more than the cap of
    20.  And when the batch delete throws, the 10 old messages that exceed
    the cap are reported nowhere. *)
Lemma old_deletes_capped_counterexample :
  (fst (scanChannel (Samples.store Samples.crowded []) Samples.config_ok true
          Samples.general (VInt 7) initialRunState)
   = Ok (Samples.messages 101 1000 (8 * Samples.day),
         Samples.messages 30 2000 (20 * Samples.day), 131%nat)
   /\ ~ caps_individual_deletes (maxOldDeletesPerChannel (discord Samples.config_ok))
          (Samples.messages 30 2000 (20 * Samples.day)) initialRunState
          (snd (processChannel (Samples.store Samples.crowded []) Samples.config_ok
                  false "logs" true Samples.general (VInt 7) "category"
                  initialRunState)))
  /\ (fst (scanChannel (Samples.bulk_refusing Samples.mix) Samples.config_ok true
             Samples.general (VInt 7) initialRunState)
      = Ok (Samples.messages 90 1000 (8 * Samples.day),
            Samples.messages 30 2000 (20 * Samples.day), 120%nat)
      /\ ~ caps_individual_deletes (maxOldDeletesPerChannel (discord Samples.config_ok))
             (Samples.messages 30 2000 (20 * Samples.day)) initialRunState
             (snd (processChannel (Samples.bulk_refusing Samples.mix) Samples.config_ok
                     false "logs" true Samples.general (VInt 7) "category"
                     initialRunState))).
Proof.
  split; (split; [vm_compute; reflexivity |]); intros H.
  - remember (snd (processChannel (Samples.store Samples.crowded []) Samples.config_ok
                     false "logs" true Samples.general (VInt 7) "category"
                     initialRunState)) as st' eqn:Hst'.
    destruct (H (calls st') (out st') eq_refl eq_refl) as [Hcap _].
    assert (Hcount : individual_deletes (calls st') = 21%nat).
    { rewrite Hst'. vm_compute. reflexivity. }
    rewrite Hcount in Hcap.
    change (maxOldDeletesPerChannel (discord Samples.config_ok)) with 20%nat in Hcap.
    lia.
  - remember (snd (processChannel (Samples.bulk_refusing Samples.mix) Samples.config_ok
                     false "logs" true Samples.general (VInt 7) "category"
                     initialRunState)) as st' eqn:Hst'.
    destruct (H (calls st') (out st') eq_refl eq_refl) as [_ Hremain].
    assert (Hmore : (maxOldDeletesPerChannel (discord Samples.config_ok)
                     < List.length (Samples.messages 30 2000 (20 * Samples.day)))%nat).
    { apply Nat.ltb_lt. vm_compute. reflexivity. }
    specialize (Hremain Hmore).
    assert (Hnone : existsb is_remaining_line (out st') = false).
    { rewrite Hst'. vm_compute. reflexivity. }
    rewrite Hnone in Hremain. discriminate Hremain.
Qed.

(** C6.  For a message mix of [bulk] bulk-deletable and [old] old messages
    found in a channel, a dry run deletes nothing, reports
    [bulk + min(old, cap)] both in the channel's entry and in the run's
    total, and, when there is something to delete, logs that same number
    as 'would delete'.  A live run over the same mix, on a store whose
    deletes succeed and with no cancellation, hands exactly the
    bulk-deletable messages and the first [cap] old ones to the store's
    delete calls, that many messages in all, and reports that number. *)
Theorem dry_run_matches_live (env env_live : Env) (config : Config)
    (catName : string) (deleteOld : bool)
    (channel : TextChannel) (retention : value) (source : string)
    (st_dry st_live s1 s2 : RunState) (bulk old : list Msg) (n1 n2 : nat) :
  scanChannel env config deleteOld channel retention st_dry
  = (Ok (bulk, old, n1), s1) ->
  scanChannel env_live config deleteOld channel retention st_live
  = (Ok (bulk, old, n2), s2) ->
  cooperative env_live -> cleanupCancelled st_live = false ->
  let dry := processChannel env config true catName deleteOld channel
               retention source st_dry in
  let live := processChannel env_live config false catName deleteOld channel
                retention source st_live in
  let maxOld := maxOldDeletesPerChannel (discord config) in
  let count := (List.length bulk + Nat.min (List.length old) maxOld)%nat in
  fst dry = CRDone (tc_name channel) retention source count
  /\ totalPurged (snd dry) = (totalPurged st_dry + count)%nat
  /\ (exists new, calls (snd dry) = calls st_dry ++ new
                  /\ existsb is_delete new = false)
  /\ ((0 < List.length bulk + List.length old)%nat ->
      exists remaining,
        In (INFO, MDryRun catName (tc_name channel) count (List.length bulk)
                    (Nat.min (List.length old) maxOld) remaining (negb deleteOld))
          (out (snd dry)))
  /\ fst live = CRDone (tc_name channel) retention source count
  /\ totalPurged (snd live) = (totalPurged st_live + count)%nat
  /\ (exists new, calls (snd live) = calls st_live ++ new
                  /\ deleted_in new = bulk ++ firstn maxOld old
                  /\ List.length (deleted_in new) = count).
Proof.
  intros Hdry Hlive Hcoop Hst dry live maxOld count.
  destruct (dry_and_live_reports env config env_live catName deleteOld channel
              retention source st_dry st_live s1 s2 bulk old n1 n2
              Hdry Hlive Hcoop Hst) as (H1 & H2 & H3 & H4 & H5 & H6).
  repeat (split; [assumption |]).
  subst live.
  destruct (processChannel env_live config false catName deleteOld channel
              retention source st_live) as [r st'] eqn:Hres.
  destruct (processChannel_deletes env_live config _ _ _ _ _ _ _ _ _ Hres)
    as (new & Hcalls & _ & _ & _ & Hcase).
  rewrite Hlive in Hcase. cbn [fst] in Hcase.
  destruct Hcase as (_ & _ & Hall & _).
  specialize (Hall eq_refl Hcoop Hst).
  exists new. cbn [snd]. split; [exact Hcalls |]. split; [exact Hall |].
  rewrite Hall, length_app, length_firstn. subst count maxOld.
  now rewrite (Nat.min_comm (List.length old)).
Qed.

Lemma dry_run_matches_live_witness :
  fst (processChannel (Samples.store Samples.mix []) Samples.config_ok true
         "logs" true Samples.general (VInt 7) "category" initialRunState)
  = CRDone "general" (VInt 7) "category" 110
  /\ fst (processChannel (Samples.store Samples.mix []) Samples.config_ok false
            "logs" true Samples.general (VInt 7) "category" initialRunState)
     = CRDone "general" (VInt 7) "category" 110
  /\ deleted_in
       (calls (snd (processChannel (Samples.store Samples.mix []) Samples.config_ok
                      false "logs" true Samples.general (VInt 7) "category"
                      initialRunState)))
     = Samples.messages 90 1000 (8 * Samples.day)
       ++ Samples.messages 20 2000 (20 * Samples.day).
Proof.
  assert (Hscan :
            scanChannel (Samples.store Samples.mix []) Samples.config_ok true
              Samples.general (VInt 7) initialRunState
            = (Ok (Samples.messages 90 1000 (8 * Samples.day),
                   Samples.messages 30 2000 (20 * Samples.day), 120%nat),
               snd (scanChannel (Samples.store Samples.mix []) Samples.config_ok true
                      Samples.general (VInt 7) initialRunState))).
  { vm_compute. reflexivity. }
  destruct (dry_run_matches_live (Samples.store Samples.mix [])
              (Samples.store Samples.mix []) Samples.config_ok
              "logs" true Samples.general (VInt 7)
              "category" initialRunState initialRunState _ _ _ _ _ _
              Hscan Hscan (cooperative_store Samples.mix) eq_refl)
    as (Hdry & _ & _ & _ & Hlive & _ & (new & Hcalls & Hall & _)).
  split; [exact Hdry |]. split; [exact Hlive |].
  rewrite Hcalls. cbn [calls initialRunState app]. rewrite Hall.
  vm_compute. reflexivity.
Defined.

(** C7, as amended.  Processing a channel in which a fetch, or a delete of
    the bulk phase, throws yields an entry for that channel carrying the
    error, one ERROR line and one more on the run's error counter.  When
    only individual deletes of old messages throw, each is logged as a
    warning and nothing else: the entry carries no error, the error counter
    does not move, and in a live run that is not cancelled the channel goes
    on with the next message, so that every bulk-deletable message and
    each of the first [maxOldDeletesPerChannel] old ones is handed to a
    delete call.  In every case the run goes on: while no cancellation is
    requested, every channel of the category that is on the allow-list and
    passes the filter gets its entry, in order; a run that found the guild
    and its channels completes whatever the store answers, its error total
    is the number of entries that carry an error, and, with no
    cancellation, its statistics hold every enabled category that passes
    the filter, in order, each with one entry for every such channel. *)
Theorem channel_failure_isolated (env : Env) (config : Config) (dry : bool)
    (chanFilter : option string) (catName : string) (deleteOld : bool)
    (channel : TextChannel) (retention : value) (source : string) (st : RunState)
    (allowed : list string) (allowedCount : nat) (channels : list TextChannel)
    (results : list ChannelResult) (catErrors : bool) (index : nat)
    (options : Options) (w : Outside) (p : Process)
    (textChannels : list TextChannel) :
  let result := processChannel env config dry catName deleteOld channel
                  retention source st in
  let maxOld := maxOldDeletesPerChannel (discord config) in
  (exists new lines,
     calls (snd result) = calls st ++ new
     /\ out (snd result) = out st ++ lines
     /\ (existsb fetch_or_bulk_failure new = true ->
           (exists err,
              fst result = CRError (tc_name channel) retention source err
              /\ In (ERROR, MChannelError catName (tc_name channel) err) lines)
           /\ totalErrors (snd result) = S (totalErrors st))
     /\ (existsb fetch_or_bulk_failure new = false ->
           is_error (fst result) = false
           /\ totalErrors (snd result) = totalErrors st
           /\ existsb is_error_line lines = false
           /\ List.length (filter is_delete_warning lines)
              = List.length (filter old_delete_failure new)
           /\ (dry = false -> (forall t, env_cancel env t = false) ->
               cleanupCancelled st = false ->
               exists bulk old fetched st1,
                 scanChannel env config deleteOld channel retention st
                 = (Ok (bulk, old, fetched), st1)
                 /\ deleted_in new = bulk ++ firstn maxOld old)))
  /\ ((forall t, env_cancel env t = false) -> cleanupCancelled st = false ->
      map cr_name
        (fst (fst (channelLoop env config dry chanFilter catName deleteOld
                     allowed allowedCount channels results catErrors index st)))
      = map cr_name results
        ++ map tc_name (filter (processed_channel allowed chanFilter) channels))
  /\ (p_cleanupRunning p = false -> o_guild w = Some textChannels ->
      o_channelsFetch w = None ->
      exists stats p',
        runCleanup options w p = (RunCompleted stats, p')
        /\ run_totalErrors stats = total_of failed_channels (run_categories stats)
        /\ ((forall t, env_cancel (o_env w) t = false) ->
            map visited (run_categories stats)
            = due (p_config p') (categoryFilter options) (channelFilter options)
                (categoryChannelMap_of textChannels))).
Proof.
  intros result maxOld.
  destruct (channel_failure_recorded env config dry chanFilter catName deleteOld
              channel retention source st allowed allowedCount channels results
              catErrors index) as [(new & lines & Hcalls & Hout & Hfail & Hquiet) Hloop].
  fold result in Hcalls, Hout, Hfail, Hquiet.
  split; [| split; [exact Hloop | now apply runCleanup_continues]].
  exists new, lines.
  split; [exact Hcalls |]. split; [exact Hout |]. split; [exact Hfail |].
  intros Hnone. destruct (Hquiet Hnone) as (Hok & Herr & Hlines & Hwarn).
  repeat (split; [assumption |]).
  intros Hlive Hno Hst.
  destruct result as [r st'] eqn:Hres. subst result. cbn [fst snd] in *.
  destruct (processChannel_deletes env config _ _ _ _ _ _ _ _ _ Hres)
    as (new' & Hcalls' & _ & _ & _ & Hcase).
  assert (new' = new).
  { rewrite Hcalls in Hcalls'. now apply app_inv_head in Hcalls'. }
  subst new'.
  destruct (processChannel_cases env config _ _ _ _ _ _ _ _ _ Hres)
    as (new' & lines' & _ & _ & _ & _ & _
        & [(err & -> & _) | (b & o & f & t & n & Hscan & _)]);
    [discriminate Hok |].
  rewrite Hscan in Hcase. cbn [fst] in Hcase.
  destruct Hcase as (_ & _ & _ & Hall).
  exists b, o, f, t. split; [exact Hscan |].
  exact (Hall Hlive Hno Hst Hok).
Qed.

Lemma channel_failure_isolated_witness :
  (is_error (fst (processChannel (Samples.unreadable Samples.three [] 1)
                    Samples.config_two false "logs" true Samples.general (VInt 14)
                    "category" initialRunState)) = true
   /\ totalErrors (snd (processChannel (Samples.unreadable Samples.three [] 1)
                          Samples.config_two false "logs" true Samples.general
                          (VInt 14) "category" initialRunState)) = 1%nat)
  /\ (is_error (fst (processChannel (Samples.store Samples.two_old [5%nat])
                       Samples.config_ok false "logs" true Samples.general (VInt 7)
                       "category" initialRunState)) = false
      /\ deleted_in
           (calls (snd (processChannel (Samples.store Samples.two_old [5%nat])
                          Samples.config_ok false "logs" true Samples.general
                          (VInt 7) "category" initialRunState)))
         = [Samples.old_message; Samples.older_message])
  /\ exists stats,
       fst (runCleanup Samples.scheduled Samples.guild_unreadable Samples.idle_two)
       = RunCompleted stats
       /\ run_totalErrors stats = 1%nat
       /\ map visited (run_categories stats)
          = [("logs", ["general"; "archive"; "noise"])]
       /\ map (fun entry => map is_error (cs_channels (snd entry)))
            (run_categories stats)
          = [[true; false; false]].
Proof.
  split; [| split].
  - destruct (channel_failure_isolated (Samples.unreadable Samples.three [] 1)
                Samples.config_two false None "logs" true Samples.general (VInt 14)
                "category" initialRunState [] 0 [] [] false 0
                Samples.scheduled Samples.guild_unreadable Samples.idle_two
                Samples.logs_only)
      as [(new & lines & Hcalls & _ & Hfail & _) _].
    cbn [calls initialRunState app] in Hcalls.
    destruct Hfail as [(err & Hr & _) Herr].
    { rewrite <- Hcalls. vm_compute. reflexivity. }
    split; [rewrite Hr; reflexivity | exact Herr].
  - destruct (channel_failure_isolated (Samples.store Samples.two_old [5%nat])
                Samples.config_ok false None "logs" true Samples.general (VInt 7)
                "category" initialRunState [] 0 [] [] false 0
                Samples.scheduled Samples.guild_unreadable Samples.idle_two
                Samples.logs_only)
      as [(new & lines & Hcalls & _ & _ & Hquiet) _].
    cbn [calls initialRunState app] in Hcalls.
    destruct Hquiet as (Hok & _ & _ & _ & Hall).
    { rewrite <- Hcalls. vm_compute. reflexivity. }
    split; [exact Hok |].
    destruct (Hall eq_refl (fun _ => eq_refl) eq_refl)
      as (bulk & old & fetched & st1 & Hscan & Hdel).
    rewrite Hcalls, Hdel.
    assert (Hfound : fst (scanChannel (Samples.store Samples.two_old [5%nat])
                            Samples.config_ok true Samples.general (VInt 7)
                            initialRunState)
                     = Ok ([], Samples.two_old, 2%nat)).
    { vm_compute. reflexivity. }
    rewrite Hscan in Hfound. cbn [fst] in Hfound.
    injection Hfound as -> -> _. reflexivity.
  - destruct (channel_failure_isolated (Samples.unreadable Samples.three [] 1)
                Samples.config_two false None "logs" true Samples.general (VInt 14)
                "category" initialRunState [] 0 [] [] false 0
                Samples.scheduled Samples.guild_unreadable Samples.idle_two
                Samples.logs_only)
      as (_ & _ & Hrun).
    destruct (Hrun eq_refl eq_refl eq_refl) as (stats & p' & Heq & Herrors & Hvisit).
    exists stats. rewrite Heq. cbn [fst]. split; [reflexivity |].
    specialize (Hvisit (fun _ => eq_refl)).
    assert (Hp' : p' = snd (runCleanup Samples.scheduled Samples.guild_unreadable
                              Samples.idle_two)) by now rewrite Heq.
    assert (Hs : RunCompleted stats
                 = fst (runCleanup Samples.scheduled Samples.guild_unreadable
                          Samples.idle_two)) by now rewrite Heq.
    clear Heq.
    assert (Hentries : map (fun entry => map is_error (cs_channels (snd entry)))
                         (run_categories stats) = [[true; false; false]]).
    { vm_compute in Hs. injection Hs as ->. reflexivity. }
    split; [| split; [| exact Hentries]].
    + rewrite Herrors. unfold total_of, failed_channels.
      clear - Hentries.
      destruct (run_categories stats) as [| [k cs] [| ? ?]]; try discriminate Hentries.
      cbn [map snd] in *. injection Hentries as Hentries.
      assert (Hcount : forall l, map is_error l = [true; false; false] ->
                                 List.length (filter is_error l) = 1%nat).
      { intros l Hl.
        destruct l as [| a [| b [| c [| ? ?]]]]; try discriminate Hl.
        cbn [map] in Hl. injection Hl as Ha Hb Hc.
        cbn [filter]. rewrite Ha, Hb, Hc. reflexivity. }
      rewrite (Hcount _ Hentries). reflexivity.
    + rewrite Hvisit, Hp'. vm_compute. reflexivity.
Defined.
